(** * The hash table of coregrind/m_hashtable.c

    A shallow embedding of [VgHashTable] and of the operations
    [VG_(HT_construct)], [resize], [VG_(HT_add_node)], [VG_(HT_lookup)],
    [VG_(HT_gen_lookup)], [VG_(HT_remove)], [VG_(HT_gen_remove)],
    [VG_(HT_to_array)], [VG_(HT_ResetIter)], [VG_(HT_Next)],
    [VG_(HT_remove_at_Iter)] and [VG_(HT_destruct)], followed by the
    properties of the table that hold of them and the concrete runs on
    which others fail.  The allocators of [memcheck/mc_main.c],
    [memcheck/mc_machine.c] and [memcheck/mc_leakcheck.c] are embedded
    after the table, with their properties at the end.

    Unsigned C integers ([SizeT], [UWord], [ULong], [UInt]) are numbers
    of [N]; the 32-bit counters [n_elements] and [iterChain] wrap
    around explicitly.  Indices into the slot array are bounded by the
    length of the array, so they never reach 2^64.  Node records live
    in a heap indexed by their (non-NULL) address, NULL is [None]. *)

From Stdlib Require Import NArith ZArith Lia.
From stdpp Require Import base option list gmap strings.

Local Open Scope N_scope.

(** ** Outcomes

    What has no defined behaviour in C (reading or writing outside an
    array, following NULL or a pointer to no node, dividing by zero)
    and what stops the program ([vg_assert]) is an explicit [Fault].
    [OutOfFuel] is the outcome of a loop that the embedding cut off.
    The loops of insert, of the lookups and of the export never end
    that way ([HT_add_node_not_OutOfFuel], [HT_lookup_not_OutOfFuel],
    [HT_to_array_not_OutOfFuel]); the loop of [VG_(HT_gen_remove)] can
    go round for ever ([gen_remove_loop_forever]), and so can a
    traversal over records whose links form a cycle. *)

Inductive fault : Set :=
  | OutOfBounds
  | NullDeref
  | BadPointer
  | DivByZero
  | AssertFailed.

Inductive result (A : Type) : Type :=
  | OK (a : A)
  | Fault (f : fault)
  | OutOfFuel.

Arguments OK {A} a.
Arguments Fault {A} f.
Arguments OutOfFuel {A}.

#[global] Instance result_ret : MRet result := λ A a, OK a.

#[global] Instance result_bind : MBind result := λ A B k m,
  match m with
  | OK a => k a
  | Fault f => Fault f
  | OutOfFuel => OutOfFuel
  end.

(** ** Data model *)

Definition addr := positive.

(** The header every stored record starts with. *)
Record VgHashNode : Set := mkNode {
  key : N;
  next : option addr
}.

Abbreviation heap := (gmap addr VgHashNode).

Record VgHashTable : Set := mkTable {
  max_size : N;                  (* SizeT, should be prime *)
  n_elements : N;                (* UInt *)
  iterNode : option addr;        (* current iterator node *)
  iterChain : N;                 (* UInt, next chain to be traversed *)
  iterOK : bool;                 (* table safe to iterate over? *)
  chain : list (option addr);    (* the array of slots *)
  name : string
}.

Definition set_max_size (v : N) (t : VgHashTable) : VgHashTable :=
  mkTable v (n_elements t) (iterNode t) (iterChain t) (iterOK t) (chain t) (name t).
Definition set_n_elements (v : N) (t : VgHashTable) : VgHashTable :=
  mkTable (max_size t) v (iterNode t) (iterChain t) (iterOK t) (chain t) (name t).
Definition set_iterNode (v : option addr) (t : VgHashTable) : VgHashTable :=
  mkTable (max_size t) (n_elements t) v (iterChain t) (iterOK t) (chain t) (name t).
Definition set_iterChain (v : N) (t : VgHashTable) : VgHashTable :=
  mkTable (max_size t) (n_elements t) (iterNode t) v (iterOK t) (chain t) (name t).
Definition set_iterOK (v : bool) (t : VgHashTable) : VgHashTable :=
  mkTable (max_size t) (n_elements t) (iterNode t) (iterChain t) v (chain t) (name t).
Definition set_chain (v : list (option addr)) (t : VgHashTable) : VgHashTable :=
  mkTable (max_size t) (n_elements t) (iterNode t) (iterChain t) (iterOK t) v (name t).

(** [UInt] arithmetic: [x++] and [x--] on 32 bits. *)
Definition UInt_modulus : N := 2 ^ 32.
Definition uint_incr (x : N) : N := (x + 1) mod UInt_modulus.
Definition uint_decr (x : N) : N := (x + UInt_modulus - 1) mod UInt_modulus.

(** ** Memory accesses *)

(** [arr[i]] as an rvalue. *)
Definition chain_at (arr : list (option addr)) (i : N) : result (option addr) :=
  match arr !! N.to_nat i with
  | Some c => OK c
  | None => Fault OutOfBounds
  end.

(** [arr[i] = p]. *)
Definition chain_store (arr : list (option addr)) (i : N) (p : option addr)
  : result (list (option addr)) :=
  if decide (N.to_nat i < length arr)%nat
  then OK (<[N.to_nat i := p]> arr)
  else Fault OutOfBounds.

(** [*p] for a node pointer [p]. *)
Definition deref (h : heap) (p : option addr) : result VgHashNode :=
  match p with
  | None => Fault NullDeref
  | Some a =>
      match h !! a with
      | Some nd => OK nd
      | None => Fault BadPointer
      end
  end.

(** [#define CHAIN_NO(key,tbl) (((ULong)(key)) % tbl->max_size)] *)
Definition CHAIN_NO (k : N) (t : VgHashTable) : result N :=
  if max_size t =? 0 then Fault DivByZero else OK (k mod max_size t).

(** ** Growth policy *)

Definition N_HASH_PRIMES : nat := 20.

Definition primes : list N :=
  [       769;      1543;      3079;       6151;
        12289;     24593;     49157;      98317;
       196613;    393241;    786433;    1572869;
      3145739;   6291469;  12582917;   25165843;
     50331653; 100663319; 201326611;  402653189 ].

(** [primes[i]] for an index inside the table. *)
Definition prime_at (i : nat) : N := nth i primes 0.

(** The [for] loop of [resize] that picks the new size: the first entry
    of [primes] above [new_chains], or [new_chains] itself if there is
    none. *)
Definition next_size (new_chains : N) : N :=
  match List.find (λ p, new_chains <? p) primes with
  | Some p => p
  | None => new_chains
  end.

(** ** VG_(HT_construct) *)

Definition HT_construct (nm : option string) : result VgHashTable :=
  let max_size := prime_at 0 in
  match nm with
  | None => Fault AssertFailed                               (* vg_assert(name) *)
  | Some s =>
      OK (mkTable max_size 0 None 0 true
                  (replicate (N.to_nat max_size) None)      (* calloc *)
                  s)
  end.

(** ** VG_(HT_count_nodes) *)

Definition HT_count_nodes (t : VgHashTable) : N := n_elements t.

(** ** resize *)

(** [while (chains[idx] == NULL) {idx++;}] started on the part [room]
    of the new array that begins at [idx]: the loop stops on the first
    slot in use, and leaves the array when there is none. *)
Fixpoint rehash_probe (room : list (option addr)) (idx : N) : result N :=
  match room with
  | [] => Fault OutOfBounds
  | None :: room' => rehash_probe room' (idx + 1)
  | Some _ :: _ => OK idx
  end.

(** The loop [for (i = 0; i < old_chains; i++)] with [n] rounds to go;
    [t] is the table after [table->max_size = new_chains], whose
    [chain] is still the old array; [chains] is the new array. *)
Fixpoint rehash (h : heap) (t : VgHashTable) (n : nat) (i : N)
    (chains : list (option addr)) : result (list (option addr)) :=
  match n with
  | O => OK chains
  | S n' =>
      node ← chain_at (chain t) i;
      match node with
      | None => rehash h t n' (i + 1) chains
      | Some a =>
          nd ← deref h (Some a);
          idx0 ← CHAIN_NO (key nd) t;
          idx ← rehash_probe (drop (N.to_nat idx0) chains) idx0;
          chains' ← chain_store chains idx (Some a);
          rehash h t n' (i + 1) chains'
      end
  end.

Definition resize (t : VgHashTable) (h : heap) : result VgHashTable :=
  let old_chains := max_size t in
  let new_chains := old_chains + 1 in
  (* If we've run out of primes, do nothing. *)
  if old_chains =? prime_at (N_HASH_PRIMES - 1) then OK t
  else if negb ((prime_at 0 <=? old_chains)
                && (old_chains <? prime_at (N_HASH_PRIMES - 1)))
  then Fault AssertFailed
  else
    let new_chains := next_size new_chains in
    if negb (old_chains <? new_chains) then Fault AssertFailed
    else if negb ((prime_at 0 <? new_chains)
                  && (new_chains <=? prime_at (N_HASH_PRIMES - 1)))
    then Fault AssertFailed
    else
      let t1 := set_max_size new_chains t in
      chains ← rehash h t1 (N.to_nat old_chains) 0
                 (replicate (N.to_nat new_chains) None);
      OK (set_chain chains t1).

(** ** VG_(HT_add_node) *)

(** The loop [while (table->chain[idx]) { idx++; if (idx >
    table->max_size-1) resize(table); }].  [max_size] is not 0 here,
    [CHAIN_NO] has divided by it. *)
Fixpoint add_probe (fuel : nat) (t : VgHashTable) (h : heap) (idx : N)
  : result (VgHashTable * N) :=
  match fuel with
  | O => OutOfFuel
  | S fuel' =>
      c ← chain_at (chain t) idx;
      match c with
      | None => OK (t, idx)
      | Some _ =>
          let idx := idx + 1 in
          if max_size t - 1 <? idx
          then t' ← resize t h; add_probe fuel' t' h idx
          else add_probe fuel' t h idx
      end
  end.

(** Two rounds more than the array has slots are enough for the loop,
    see [add_probe_fuel]. *)
Definition add_fuel (t : VgHashTable) : nat := S (S (length (chain t))).

Definition HT_add_node (t : VgHashTable) (h : heap) (node : addr)
  : result (VgHashTable * heap) :=
  nd ← deref h (Some node);
  idx0 ← CHAIN_NO (key nd) t;
  '(t1, idx) ← add_probe (add_fuel t) t h idx0;
  (* table->chain[idx] = node; *)
  chains ← chain_store (chain t1) idx (Some node);
  let t2 := set_chain chains t1 in
  (* table->chain[idx]->next = NULL; *)
  let h' := <[node := mkNode (key nd) None]> h in
  (* table->n_elements++; table->iterOK = False; *)
  OK (set_iterOK false (set_n_elements (uint_incr (n_elements t2)) t2), h').

(** ** VG_(HT_lookup) and VG_(HT_gen_lookup) *)

(** The comparator [HT_Cmp_t] of the generic operations: it is given
    two node pointers and answers 0 for equal records. *)
Definition HT_Cmp_t : Type := addr → addr → Z.

(** The loop shared by both lookups, [hit a nd] being the test made on
    the node [nd] at [a]:
    [while (curr) { if (hit) return curr; idx++;
                    if (idx >= table->max_size) {break;}
                    curr = table->chain[idx]; } return NULL;]
    [n] bounds the rounds that are left before [idx] reaches
    [max_size]. *)
Fixpoint lookup_loop (hit : addr → VgHashNode → bool) (h : heap)
    (t : VgHashTable) (n : nat) (idx : N) (curr : option addr)
  : result (option addr) :=
  match curr with
  | None => OK None
  | Some a =>
      nd ← deref h curr;
      if hit a nd then OK curr
      else
        let idx := idx + 1 in
        if max_size t <=? idx then OK None
        else
          match n with
          | O => OutOfFuel
          | S n' =>
              c ← chain_at (chain t) idx;
              lookup_loop hit h t n' idx c
          end
  end.

Definition HT_lookup (t : VgHashTable) (h : heap) (k : N)
  : result (option addr) :=
  idx ← CHAIN_NO k t;
  curr ← chain_at (chain t) idx;
  lookup_loop (λ _ nd, k =? key nd) h t (N.to_nat (max_size t)) idx curr.

Definition HT_gen_lookup (t : VgHashTable) (h : heap) (node : addr)
    (cmp : HT_Cmp_t) : result (option addr) :=
  if max_size t =? 0 then OK None
  else
    hnode ← deref h (Some node);
    idx ← CHAIN_NO (key hnode) t;
    curr ← chain_at (chain t) idx;
    lookup_loop (λ a nd, (key hnode =? key nd) && (cmp node a =? 0)%Z)
                h t (N.to_nat (max_size t)) idx curr.

(** ** VG_(HT_remove) and VG_(HT_gen_remove) *)

(** The inner loop of both removals, with [n] rounds to go:
    [for (i = 0; i + j < table->max_size; i++) {
        if (table->chain[i] != NULL) { curr = table->chain[i]; break; }
        else { curr = NULL; } }] *)
Fixpoint remove_rescan (arr : list (option addr)) (n : nat) (i : N)
    (curr : option addr) : result (option addr) :=
  match n with
  | O => OK curr
  | S n' =>
      c ← chain_at arr i;
      match c with
      | Some a => OK (Some a)
      | None => remove_rescan arr n' (i + 1) None
      end
  end.

(** [for (UWord j = 0; j < table->n_elements; j++)] with [n] rounds to
    go.  [curr->key] is read without a test of [curr]. *)
Fixpoint remove_loop (h : heap) (t : VgHashTable) (k : N) (n : nat) (j : N)
    (curr : option addr) : result (VgHashTable * option addr) :=
  match n with
  | O => OK (t, None)
  | S n' =>
      nd ← deref h curr;
      if k =? key nd
      then OK (set_n_elements (uint_decr (n_elements t)) t, curr)
      else
        curr' ← remove_rescan (chain t) (N.to_nat (max_size t - j)) 0 curr;
        remove_loop h t k n' (j + 1) curr'
  end.

Definition HT_remove (t : VgHashTable) (h : heap) (k : N)
  : result (VgHashTable * option addr) :=
  idx ← CHAIN_NO k t;
  curr ← chain_at (chain t) idx;
  (* Table has been modified; hence HT_Next should assert. *)
  let t := set_iterOK false t in
  remove_loop h t k (N.to_nat (n_elements t)) 0 curr.

(** [while (curr)] of the generic removal.  Nothing the loop reads
    changes from one round to the next once [curr] has been reloaded,
    so it may go round for ever: hence the fuel. *)
Fixpoint gen_remove_loop (fuel : nat) (h : heap) (t : VgHashTable)
    (node : addr) (hnode : VgHashNode) (cmp : HT_Cmp_t) (idx : N)
    (curr : option addr) : result (VgHashTable * option addr) :=
  match curr with
  | None => OK (t, None)
  | Some a =>
      match fuel with
      | O => OutOfFuel
      | S fuel' =>
          nd ← deref h curr;
          if (key hnode =? key nd) && (cmp node a =? 0)%Z
          then OK (set_n_elements (uint_decr (n_elements t)) t, curr)
          else
            curr' ← remove_rescan (chain t) (N.to_nat (max_size t - idx)) 0 curr;
            gen_remove_loop fuel' h t node hnode cmp idx curr'
      end
  end.

Definition HT_gen_remove (fuel : nat) (t : VgHashTable) (h : heap)
    (node : addr) (cmp : HT_Cmp_t) : result (VgHashTable * option addr) :=
  hnode ← deref h (Some node);
  idx ← CHAIN_NO (key hnode) t;
  curr ← chain_at (chain t) idx;
  (* Table has been modified; hence HT_Next should assert. *)
  let t := set_iterOK false t in
  gen_remove_loop fuel h t node hnode cmp idx curr.

(** ** VG_(HT_to_array) *)

(** [while (node) { arr[j++] = node; node = node->next; i++; }] where
    [room] is [*n_elems - j], the part of [arr] not yet written. *)
Fixpoint to_array_chain (h : heap) (room : nat) (node : option addr) (i : N)
    (arr : list addr) : result (nat * N * list addr) :=
  match node with
  | None => OK (room, i, arr)
  | Some a =>
      match room with
      | O => Fault OutOfBounds
      | S room' =>
          nd ← deref h node;
          to_array_chain h room' (next nd) (uint_incr i) (arr ++ [a])
      end
  end.

(** [for (UInt i = 0; i<table->max_size; i++)] and the assertion
    [vg_assert(j == *n_elems)] that follows it. *)
Fixpoint to_array_loop (fuel : nat) (h : heap) (t : VgHashTable) (room : nat)
    (i : N) (arr : list addr) : result (list addr) :=
  if max_size t <=? i
  then match room with
       | O => OK arr
       | S _ => Fault AssertFailed
       end
  else
    match fuel with
    | O => OutOfFuel
    | S fuel' =>
        node ← chain_at (chain t) i;
        '(room', i', arr') ← to_array_chain h room node i arr;
        to_array_loop fuel' h t room' (uint_incr i') arr'
    end.

(** The result is the array (NULL for an empty table) and [*n_elems]. *)
Definition HT_to_array (t : VgHashTable) (h : heap)
  : result (option (list addr) * N) :=
  let n_elems := n_elements t in
  if n_elems =? 0 then OK (None, n_elems)
  else
    arr ← to_array_loop (N.to_nat (max_size t)) h t (N.to_nat n_elems) 0 [];
    OK (Some arr, n_elems).

(** ** The iterator *)

Definition HT_ResetIter (t : VgHashTable) : VgHashTable :=
  set_iterOK true (set_iterChain 0 (set_iterNode None t)).

(** [for (i = table->iterChain; i < table->max_size; i++)
       if (table->chain[i] != NULL) ... return] with [n] rounds to go:
    the first slot in use and its index. *)
Fixpoint next_scan (arr : list (option addr)) (n : nat) (i : N)
  : result (option (N * addr)) :=
  match n with
  | O => OK None
  | S n' =>
      c ← chain_at arr i;
      match c with
      | Some a => OK (Some (i, a))
      | None => next_scan arr n' (i + 1)
      end
  end.

(** [i] is an [Int]: a cursor of 2^31 or more is negative there, and
    above every size once compared with the [SizeT] [max_size]. *)
Definition HT_Next (t : VgHashTable) (h : heap)
  : result (VgHashTable * option addr) :=
  if negb (iterOK t) then Fault AssertFailed              (* vg_assert(table->iterOK) *)
  else
    nxt ← match iterNode t with
          | None => OK None
          | Some a => nd ← deref h (Some a); OK (next nd)
          end;
    match nxt with
    | Some b =>
        OK (set_iterChain (uint_incr (iterChain t)) (set_iterNode (Some b) t),
            Some b)
    | None =>
        if 2 ^ 31 <=? iterChain t then OK (t, None)
        else
          r ← next_scan (chain t) (N.to_nat (max_size t - iterChain t))
                (iterChain t);
          match r with
          | Some (i, a) =>
              OK (set_iterChain (i + 1) (set_iterNode (Some a) t), Some a)
          | None => OK (t, None)
          end
    end.

Definition HT_remove_at_Iter (t : VgHashTable) : result VgHashTable :=
  if negb (iterOK t) then Fault AssertFailed              (* vg_assert(table->iterOK) *)
  else
    match iterNode t with
    | None => Fault AssertFailed                          (* vg_assert(table->iterNode) *)
    | Some _ =>
        OK (set_n_elements (uint_decr (n_elements t)) (set_iterNode None t))
    end.

(** [VG_(HT_ResetIter)] and then [VG_(HT_Next)] until it answers
    NULL: the nodes in the order they were returned. *)
Fixpoint next_until_end (fuel : nat) (t : VgHashTable) (h : heap)
    (seen : list addr) : result (VgHashTable * list addr) :=
  match fuel with
  | O => OutOfFuel
  | S fuel' =>
      '(t', r) ← HT_Next t h;
      match r with
      | None => OK (t', seen)
      | Some a => next_until_end fuel' t' h (seen ++ [a])
      end
  end.

Definition traverse (fuel : nat) (t : VgHashTable) (h : heap)
  : result (VgHashTable * list addr) :=
  next_until_end fuel (HT_ResetIter t) h [].

(** * Predicates used by the properties *)

(** What a table looks like after a [resize] that did grow it: a
    larger size of the sequence and a new array with no slot in use,
    which is only reached when no old slot was in use either. *)
Definition grown_from (t t' : VgHashTable) : Prop :=
  ∃ m : N,
    max_size t < m ∧ m ∈ primes ∧
    t' = set_chain (replicate (N.to_nat m) None) (set_max_size m t) ∧
    ∀ j, (j < N.to_nat (max_size t))%nat → chain t !! j = Some None.

(** What [resize] keeps, whether it grew the table or not. *)
Definition regrown (t t' : VgHashTable) : Prop :=
  max_size t ≤ max_size t' ∧
  (max_size t ∈ primes → max_size t' ∈ primes) ∧
  (length (chain t) = N.to_nat (max_size t) →
   length (chain t') = N.to_nat (max_size t')) ∧
  (∀ a, Some a ∈ chain t' → Some a ∈ chain t) ∧
  n_elements t' = n_elements t ∧ iterNode t' = iterNode t ∧
  iterChain t' = iterChain t ∧ iterOK t' = iterOK t ∧ name t' = name t.

(** A completed call of an operation that writes to the table.  The
    other operations take a [const VgHashTable*] and hand back no
    table. *)
Inductive call : VgHashTable → heap → VgHashTable → heap → Prop :=
  | call_add_node t h node t' h' :
      HT_add_node t h node = OK (t', h') → call t h t' h'
  | call_remove t h k t' r :
      HT_remove t h k = OK (t', r) → call t h t' h
  | call_gen_remove fuel t h node cmp t' r :
      HT_gen_remove fuel t h node cmp = OK (t', r) → call t h t' h
  | call_ResetIter t h :
      call t h (HT_ResetIter t) h
  | call_Next t h t' r :
      HT_Next t h = OK (t', r) → call t h t' h
  | call_remove_at_Iter t h t' :
      HT_remove_at_Iter t = OK t' → call t h t' h.

(** The states of a table and of the records of its callers: the
    table is constructed, callers create records at addresses not yet
    in use, and calls complete.  No step writes to a record or
    releases one: these are the states of callers that leave alone
    every record they have given to the table, those a removal has
    handed back included (a removal leaves the node in its slot). *)
Inductive reachable : VgHashTable → heap → Prop :=
  | reach_construct nm t h :
      HT_construct nm = OK t → reachable t h
  | reach_new_node t h a nd :
      reachable t h → h !! a = None → reachable t (<[a := nd]> h)
  | reach_call t h t' h' :
      reachable t h → call t h t' h' → reachable t' h'.

(** The nodes of one chain: what following [next] from the head [p]
    meets, at most [fuel] of them. *)
Fixpoint bucket_nodes (fuel : nat) (h : heap) (p : option addr) : list addr :=
  match fuel, p with
  | S fuel', Some a =>
      a :: match h !! a with
           | Some nd => bucket_nodes fuel' h (next nd)
           | None => []
           end
  | _, _ => []
  end.

(** The nodes of all chains, slot after slot. *)
Definition table_nodes (fuel : nat) (t : VgHashTable) (h : heap) : list addr :=
  concat (map (bucket_nodes fuel h) (take (N.to_nat (max_size t)) (chain t))).

(** The array has [max_size] slots, [max_size] is a size of the growth
    sequence, and every node in a slot is a record whose link is
    NULL. *)
Definition table_ok (t : VgHashTable) (h : heap) : Prop :=
  length (chain t) = N.to_nat (max_size t) ∧
  max_size t ∈ primes ∧
  ∀ i a, chain t !! i = Some (Some a) → ∃ nd, h !! a = Some nd ∧ next nd = None.

(** ** Records and tables of the concrete runs *)

Definition node_A : addr := 1%positive.
Definition node_B : addr := 2%positive.
Definition node_C : addr := 3%positive.
Definition node_D : addr := 4%positive.
Definition node_E : addr := 5%positive.

(** [node_A] and [node_B] share the key 5, [node_C] has key 7;
    [node_D] and [node_E] share the key 768, which hashes to the last
    slot of a new table.  [node_A] comes with a link already set. *)
Definition caller_heap : heap :=
  list_to_map
    [ (node_A, mkNode 5 (Some node_C)); (node_B, mkNode 5 None);
      (node_C, mkNode 7 None);
      (node_D, mkNode 768 None); (node_E, mkNode 768 None) ].

(** [construct("T")] and then [insert] of the nodes of [nodes], in
    that order. *)
Fixpoint add_nodes (nodes : list addr) (t : VgHashTable) (h : heap)
  : result (VgHashTable * heap) :=
  match nodes with
  | [] => OK (t, h)
  | node :: nodes' =>
      '(t', h') ← HT_add_node t h node;
      add_nodes nodes' t' h'
  end.

Definition table_of (nodes : list addr) : result (VgHashTable * heap) :=
  t ← HT_construct (Some "T"%string);
  add_nodes nodes t caller_heap.

(** The table and the records a run ends with; an empty table of no
    slots stands for a run that did not complete. *)
Definition final_state (r : result (VgHashTable * heap)) : VgHashTable * heap :=
  match r with
  | OK s => s
  | _ => (mkTable 0 0 None 0 false [] "", ∅)
  end.

(** The state after the insertion of [node_A], and after those of
    [node_A] and [node_C]. *)
Definition state_A : VgHashTable * heap := final_state (table_of [node_A]).
Definition state_AC : VgHashTable * heap :=
  final_state (table_of [node_A; node_C]).

(** The table of [state_AC] after a reset and one advance, the cursor
    on [node_A]; and that table after the removal of key 7. *)
Definition table_AC_at_A : VgHashTable :=
  set_iterChain 6 (set_iterNode (Some node_A) (HT_ResetIter state_AC.1)).
Definition table_AC_less_C : VgHashTable :=
  set_n_elements 1 (set_iterOK false table_AC_at_A).

(** A table that has reached the last size of the sequence. *)
Definition last_size_table : VgHashTable :=
  mkTable 402653189 0 None 0 true [] "T".

(** * The teardown, and predicates on the slots *)

(** The nodes in the slots, by ascending slot. *)
Definition slot_nodes (t : VgHashTable) : list addr := omap id (chain t).

(** [VG_(HT_destruct)]: the loop [for (i = 0; i < table->max_size; i++)]
    over the slots; [freed] are the nodes handed to [freenode_fn] so
    far.  [i] is a [UInt]. *)
Fixpoint destruct_loop (fuel : nat) (t : VgHashTable) (i : N)
    (freed : list addr) : result (list addr) :=
  if max_size t <=? i then OK freed
  else
    match fuel with
    | O => OutOfFuel
    | S fuel' =>
        node ← chain_at (chain t) i;
        destruct_loop fuel' t (uint_incr i)
          (match node with
           | Some a => freed ++ [a]
           | None => freed
           end)
    end.

(** The nodes [freenode_fn] was called on, in that order; the table
    and its array are released afterwards. *)
Definition HT_destruct (t : VgHashTable) : result (list addr) :=
  destruct_loop (N.to_nat (max_size t)) t 0 [].

(** The iterator is valid, its cursor is [c], and the node it stands
    on, if any, is a record whose link is NULL. *)
Definition cursor_at (t : VgHashTable) (h : heap) (c : N) : Prop :=
  iterOK t = true ∧ iterChain t = c ∧
  ∀ b, iterNode t = Some b → ∃ nd, h !! b = Some nd ∧ next nd = None.
(** Slot [j] of the array holds a node. *)
Definition in_use (arr : list (option addr)) (j : N) : Prop :=
  ∃ b, arr !! N.to_nat j = Some (Some b).

(** The node [a] sits in the first slot that is in use. *)
Definition first_in_use (arr : list (option addr)) (a : addr) : Prop :=
  ∃ p, arr !! p = Some (Some a) ∧ ∀ q, (q < p)%nat → arr !! q = Some None.

(** * The allocators of memcheck

    [mc_main.c], [mc_leakcheck.c] and [mc_machine.c] each carve blocks
    out of a static byte buffer with a stack pointer.  A pointer into
    such a buffer is the offset it points to, NULL is [None];
    [size_t] and [SizeT] are 64-bit.  A buffer is a function from
    offsets to bytes, every access being checked against the size of
    the buffer; static storage starts out as zeros. *)

(** What ends a run: [VG_(tool_panic)] with its message, a failed
    [tl_assert], an access outside the buffer, or, in the leak
    checker, the use as a [Chunk] of bytes that do not start a whole
    number of chunks into the buffer ([Misaligned]: the embedding
    keeps that buffer as an array of [Chunk] and has no account of
    such an access). *)
Inductive stop : Set :=
  | Panic (msg : string)
  | AssertionFailed
  | OutsideBuffer
  | Misaligned.

Inductive outcome (A : Type) : Type :=
  | Done (a : A)
  | Stop (s : stop).

Arguments Done {A} a.
Arguments Stop {A} s.

#[global] Instance outcome_ret : MRet outcome := λ A a, Done a.

#[global] Instance outcome_bind : MBind outcome := λ A B k m,
  match m with
  | Done a => k a
  | Stop s => Stop s
  end.

Definition size_t_modulus : N := 2 ^ 64.
Definition size_t_add (a b : N) : N := (a + b) mod size_t_modulus.
Definition size_t_mul (a b : N) : N := (a * b) mod size_t_modulus.

Definition buffer : Type := N → Byte.byte.

(** Static storage. *)
Definition zeros : buffer := λ _, Byte.x00.

(** [VG_(memset)(&buf[p], c, n)] in a buffer of [size] bytes. *)
Definition buffer_memset (size : N) (buf : buffer) (p : N) (c : Byte.byte) (n : N)
  : outcome buffer :=
  if size <? p + n then Stop OutsideBuffer
  else Done (λ i, if (p <=? i) && (i <? p + n) then c else buf i).

(** [VG_(memcpy)(&buf[p], src, n)], [src] being the bytes of the object
    copied from. *)
Definition buffer_store (size : N) (buf : buffer) (p : N) (src : list Byte.byte)
    (n : N) : outcome buffer :=
  if (size <? p + n) || (N.of_nat (length src) <? n) then Stop OutsideBuffer
  else Done (λ i, if (p <=? i) && (i <? p + n)
                  then nth (N.to_nat (i - p)) src Byte.x00
                  else buf i).

(** [VG_(memcpy)(dst, &buf[p], n)]: the [n] bytes read. *)
Definition buffer_load (size : N) (buf : buffer) (p : N) (n : N)
  : outcome (list Byte.byte) :=
  if size <? p + n then Stop OutsideBuffer
  else Done (map (λ k, buf (p + N.of_nat k)) (seq 0 (N.to_nat n))).

(** ** mc_main.c *)

Definition STACK_SIZE : N := 1048576.

(** The calls [VG_TRACK] makes to the hooks of the tool. *)
Inductive tracked : Set :=
  | new_mem_stack (p : N) (n : N)
  | free_mem_stack (p : N).

Record pool : Type := mkPool {
  stack_buffer : buffer;
  stack_pointer : N;
  track : list tracked
}.

Definition stack_alloc (size : N) (s : pool) : outcome (option N * pool) :=
  if STACK_SIZE <? size_t_add (stack_pointer s) size
  then Stop (Panic "Stack overflow in custom allocator")
  else
    let alloc_ptr := stack_pointer s in
    Done (Some alloc_ptr,
          mkPool (stack_buffer s) (size_t_add (stack_pointer s) size) (track s)).

Definition stack_free (size : N) (s : pool) : outcome pool :=
  if stack_pointer s <? size then Stop AssertionFailed          (* tl_assert *)
  else Done (mkPool (stack_buffer s) (stack_pointer s - size) (track s)).

Definition VG_TRACK (e : tracked) (s : pool) : pool :=
  mkPool (stack_buffer s) (stack_pointer s) (track s ++ [e]).

Definition MC_malloc (n : N) (s : pool) : outcome (N * pool) :=
  '(p, s) ← stack_alloc n s;
  match p with
  | None => Stop (Panic "mc_malloc_wrappers: malloc failed")
  | Some p => Done (p, VG_TRACK (new_mem_stack p n) s)
  end.

Definition MC_calloc (nmemb size : N) (s : pool) : outcome (N * pool) :=
  let total := size_t_mul nmemb size in
  '(p, s) ← stack_alloc total s;
  match p with
  | None => Stop (Panic "mc_malloc_wrappers: calloc failed")
  | Some p =>
      buf ← buffer_memset STACK_SIZE (stack_buffer s) p Byte.x00 total;
      let s := mkPool buf (stack_pointer s) (track s) in
      Done (p, VG_TRACK (new_mem_stack p total) s)
  end.

Definition MC_realloc (ptr : option N) (size : N) (s : pool)
  : outcome (N * pool) :=
  s ← match ptr with
      | Some _ => stack_free size s
      | None => Done s
      end;
  '(p, s) ← stack_alloc size s;
  match p with
  | None => Stop (Panic "mc_malloc_wrappers: realloc failed")
  | Some p => Done (p, VG_TRACK (new_mem_stack p size) s)
  end.

Definition MC_free (ptr : option N) (size : N) (s : pool) : outcome pool :=
  match ptr with
  | Some p =>
      s ← stack_free size s;
      Done (VG_TRACK (free_mem_stack p) s)
  | None => Done s
  end.

(** The client wrappers take the thread id and do not use it. *)
Definition ThreadId : Type := N.

Definition MC_client_malloc (tid : ThreadId) (n : N) (s : pool)
  : outcome (N * pool) :=
  '(p, s) ← stack_alloc n s;
  match p with
  | None => Stop (Panic "mc_malloc_wrappers: client_malloc failed")
  | Some p => Done (p, VG_TRACK (new_mem_stack p n) s)
  end.

Definition MC_client_calloc (tid : ThreadId) (nmemb size : N) (s : pool)
  : outcome (N * pool) :=
  let total := size_t_mul nmemb size in
  '(p, s) ← stack_alloc total s;
  match p with
  | None => Stop (Panic "mc_malloc_wrappers: client_calloc failed")
  | Some p =>
      buf ← buffer_memset STACK_SIZE (stack_buffer s) p Byte.x00 total;
      let s := mkPool buf (stack_pointer s) (track s) in
      Done (p, VG_TRACK (new_mem_stack p total) s)
  end.

Definition MC_client_realloc (tid : ThreadId) (ptr : option N) (size : N)
    (s : pool) : outcome (N * pool) :=
  s ← match ptr with
      | Some _ => stack_free size s
      | None => Done s
      end;
  '(p, s) ← stack_alloc size s;
  match p with
  | None => Stop (Panic "mc_malloc_wrappers: client_realloc failed")
  | Some p => Done (p, VG_TRACK (new_mem_stack p size) s)
  end.

Definition MC_client_free (tid : ThreadId) (ptr : option N) (size : N)
    (s : pool) : outcome pool :=
  match ptr with
  | Some p =>
      s ← stack_free size s;
      Done (VG_TRACK (free_mem_stack p) s)
  | None => Done s
  end.

Definition MC_pool_alloc (n : N) (s : pool) : outcome (N * pool) :=
  '(p, s) ← stack_alloc n s;
  match p with
  | None => Stop (Panic "mc_malloc_wrappers: pool_alloc failed")
  | Some p => Done (p, VG_TRACK (new_mem_stack p n) s)
  end.

Definition MC_pool_free (ptr : option N) (size : N) (s : pool) : outcome pool :=
  match ptr with
  | Some p =>
      s ← stack_free size s;
      Done (VG_TRACK (free_mem_stack p) s)
  | None => Done s
  end.

(** The pool as the program starts. *)
Definition pool_init : pool := mkPool zeros 0 [].

(** A completed call of one of the wrappers of [mc_main.c]. *)
Inductive pool_call : pool → pool → Prop :=
  | call_malloc n s p s' : MC_malloc n s = Done (p, s') → pool_call s s'
  | call_calloc nmemb size s p s' :
      MC_calloc nmemb size s = Done (p, s') → pool_call s s'
  | call_realloc ptr size s p s' :
      MC_realloc ptr size s = Done (p, s') → pool_call s s'
  | call_free ptr size s s' : MC_free ptr size s = Done s' → pool_call s s'
  | call_client_malloc tid n s p s' :
      MC_client_malloc tid n s = Done (p, s') → pool_call s s'
  | call_client_calloc tid nmemb size s p s' :
      MC_client_calloc tid nmemb size s = Done (p, s') → pool_call s s'
  | call_client_realloc tid ptr size s p s' :
      MC_client_realloc tid ptr size s = Done (p, s') → pool_call s s'
  | call_client_free tid ptr size s s' :
      MC_client_free tid ptr size s = Done s' → pool_call s s'
  | call_pool_alloc n s p s' : MC_pool_alloc n s = Done (p, s') → pool_call s s'
  | call_pool_free ptr size s s' :
      MC_pool_free ptr size s = Done s' → pool_call s s'.

(** The states of the pool: what completed calls make of [pool_init]. *)
Inductive pool_reachable : pool → Prop :=
  | pool_reach_init : pool_reachable pool_init
  | pool_reach_call s s' : pool_reachable s → pool_call s s' → pool_reachable s'.

(** ** mc_machine.c

    [VexGuestArchState] is declared outside these files: its size is
    a parameter and a guest state is the list of its bytes.  What
    [VG_(printf)] prints is kept line by line, without the newline that
    ends each line. *)

Definition MACHINE_STACK_SIZE : N := 65536.

Record machine : Type := mkMachine {
  machine_stack_buffer : buffer;
  machine_stack_pointer : N;
  machine_out : list string
}.

Definition machine_printf (line : string) (m : machine) : machine :=
  mkMachine (machine_stack_buffer m) (machine_stack_pointer m)
            (machine_out m ++ [line]).

Definition machine_stack_alloc (size : N) (m : machine) : option N * machine :=
  if MACHINE_STACK_SIZE <? size_t_add (machine_stack_pointer m) size
  then (None, machine_printf "Machine Stack Overflow" m)
  else
    let ptr := machine_stack_pointer m in
    (Some ptr,
     mkMachine (machine_stack_buffer m)
               (size_t_add (machine_stack_pointer m) size) (machine_out m)).

Definition machine_stack_free (size : N) (m : machine) : machine :=
  if machine_stack_pointer m <? size
  then machine_printf "Machine Stack Underflow" m
  else mkMachine (machine_stack_buffer m) (machine_stack_pointer m - size)
                 (machine_out m).

(** The six architectures whose functions differ by their messages
    only. *)
Inductive arch : Set := ppc64 | ppc32 | amd64 | x86 | s390x | arm.

Definition arch_name (a : arch) : string :=
  match a with
  | ppc64 => "ppc64" | ppc32 => "ppc32" | amd64 => "amd64"
  | x86 => "x86" | s390x => "s390x" | arm => "arm"
  end.

Section GuestState.
Variable sizeof_VexGuestArchState : N.

(** [MC_(ppc64_get_state)] and its five likes. *)
Definition MC_get_state (a : arch) (arch_state : list Byte.byte) (m : machine)
  : outcome machine :=
  let '(state, m) := machine_stack_alloc sizeof_VexGuestArchState m in
  match state with
  | None =>
      Stop (Panic ("Machine stack allocation failed for " +:+ arch_name a
                   +:+ " state"))
  | Some state =>
      buf ← buffer_store MACHINE_STACK_SIZE (machine_stack_buffer m) state
              arch_state sizeof_VexGuestArchState;
      let m := mkMachine buf (machine_stack_pointer m) (machine_out m) in
      let m := machine_printf ("Retrieved " +:+ arch_name a +:+ " guest state") m in
      Done (machine_stack_free sizeof_VexGuestArchState m)
  end.

(** [MC_(ppc64_set_state)] and its five likes: the guest state that
    [arch_state] points to afterwards. *)
Definition MC_set_state (a : arch) (m : machine)
  : outcome (list Byte.byte * machine) :=
  let '(state, m) := machine_stack_alloc sizeof_VexGuestArchState m in
  match state with
  | None =>
      Stop (Panic ("Machine stack allocation failed for setting "
                   +:+ arch_name a +:+ " state"))
  | Some state =>
      arch_state ← buffer_load MACHINE_STACK_SIZE (machine_stack_buffer m)
                     state sizeof_VexGuestArchState;
      let m := machine_printf ("Set " +:+ arch_name a +:+ " guest state") m in
      Done (arch_state, machine_stack_free sizeof_VexGuestArchState m)
  end.
End GuestState.

Definition machine_init : machine := mkMachine zeros 0 [].

(** ** mc_leakcheck.c

    [Chunk] and the constants [CHUNK_UNUSED], [CHUNK_IN_USE] and
    [CHUNK_LEAKED] are declared outside these files: the size of a
    chunk and the three constants are parameters.  The code reads and
    writes [leak_check_stack_buffer] as an array of [Chunk] only, and
    so it is kept here, chunk by chunk; its stack pointer counts
    bytes.  An entry of the output is a format of [VG_(printf)],
    less the newline that ends it, with its arguments. *)

Definition LEAK_CHECK_STACK_SIZE : N := 16384.

Record Chunk : Set := mkChunk {
  Chunk_status : N;
  Chunk_addr : N
}.

Record leak_check : Type := mkLeak {
  leak_check_chunks : N → Chunk;
  leak_check_stack_pointer : N;
  leak_out : list (string * list N)
}.

Definition leak_printf (fmt : string) (args : list N) (st : leak_check)
  : leak_check :=
  mkLeak (leak_check_chunks st) (leak_check_stack_pointer st)
         (leak_out st ++ [(fmt, args)]).

Definition leak_check_stack_alloc (size : N) (st : leak_check)
  : option N * leak_check :=
  if LEAK_CHECK_STACK_SIZE <? size_t_add (leak_check_stack_pointer st) size
  then (None, leak_printf "LeakCheck Stack Overflow" [] st)
  else
    let ptr := leak_check_stack_pointer st in
    (Some ptr,
     mkLeak (leak_check_chunks st)
            (size_t_add (leak_check_stack_pointer st) size) (leak_out st)).

Definition leak_check_stack_free (size : N) (st : leak_check) : leak_check :=
  if leak_check_stack_pointer st <? size
  then leak_printf "LeakCheck Stack Underflow" [] st
  else mkLeak (leak_check_chunks st) (leak_check_stack_pointer st - size)
              (leak_out st).

Section LeakCheck.
Variable sizeof_Chunk : N.
Variables CHUNK_UNUSED CHUNK_IN_USE CHUNK_LEAKED : N.

(** The place in the array of the chunk [chunks[i]], for a pointer
    [chunks] that is [p] bytes into the buffer. *)
Definition chunk_index (p : N) (i : N) : outcome N :=
  if negb (p mod sizeof_Chunk =? 0) then Stop Misaligned
  else if LEAK_CHECK_STACK_SIZE <? (p / sizeof_Chunk + i + 1) * sizeof_Chunk
  then Stop OutsideBuffer
  else Done (p / sizeof_Chunk + i).

(** [chunks[i]] read, and written through [f]. *)
Definition chunk_get (p : N) (i : N) (st : leak_check) : outcome Chunk :=
  j ← chunk_index p i; Done (leak_check_chunks st j).

Definition chunk_update (p : N) (i : N) (f : Chunk → Chunk) (st : leak_check)
  : outcome leak_check :=
  j ← chunk_index p i;
  Done (mkLeak (λ k, if k =? j then f (leak_check_chunks st j)
                     else leak_check_chunks st k)
               (leak_check_stack_pointer st) (leak_out st)).

(** [for (int i = 0; i < 100; i++) initial_chunks[i].status = CHUNK_UNUSED;]
    with [n] rounds to go. *)
Fixpoint initial_chunks_loop (n : nat) (initial_chunks : N) (i : N)
    (st : leak_check) : outcome leak_check :=
  match n with
  | O => Done st
  | S n' =>
      st ← chunk_update initial_chunks i
             (λ c, mkChunk CHUNK_UNUSED (Chunk_addr c)) st;
      initial_chunks_loop n' initial_chunks (i + 1) st
  end.

Definition get_initial_chunks (st : leak_check) : outcome leak_check :=
  let '(initial_chunks, st) :=
    leak_check_stack_alloc (size_t_mul sizeof_Chunk 100) st in
  match initial_chunks with
  | None =>
      Stop (Panic "LeakCheck: Unable to allocate initial chunks on stack")
  | Some initial_chunks =>
      st ← initial_chunks_loop 100 initial_chunks 0 st;
      Done (leak_printf "Initialized 100 initial chunks on stack" [] st)
  end.

(** [for (size_t i = 0; i < leak_check_stack_pointer / sizeof(Chunk); i++)]
    with [n] rounds to go. *)
Fixpoint search_loop (n : nat) (i : N) (a : N) (st : leak_check)
  : outcome (option N * leak_check) :=
  match n with
  | O => Done (None, leak_printf "Chunk not found for address %p" [a] st)
  | S n' =>
      c ← chunk_get 0 i st;
      if Chunk_addr c =? a
      then Done (Some (i * sizeof_Chunk),
                 leak_printf "Found chunk at address %p" [a] st)
      else search_loop n' (i + 1) a st
  end.

(** The pointer handed back is the offset of the chunk in the
    buffer. *)
Definition search_chunks (a : N) (st : leak_check)
  : outcome (option N * leak_check) :=
  search_loop (N.to_nat (leak_check_stack_pointer st / sizeof_Chunk)) 0 a st.

(** The first loop of [run_leak_detector]. *)
Fixpoint in_use_loop (n : nat) (chunks_to_check : N) (i : N) (st : leak_check)
  : outcome leak_check :=
  match n with
  | O => Done st
  | S n' =>
      st ← chunk_update chunks_to_check i
             (λ c, mkChunk CHUNK_IN_USE (Chunk_addr c)) st;
      st ← chunk_update chunks_to_check i
             (λ c, mkChunk (Chunk_status c) (i * 1024)) st;
      in_use_loop n' chunks_to_check (i + 1) st
  end.

(** The second loop of [run_leak_detector]. *)
Fixpoint leaked_loop (n : nat) (chunks_to_check : N) (i : N) (st : leak_check)
  : outcome leak_check :=
  match n with
  | O => Done st
  | S n' =>
      st ← (if i mod 10 =? 0
            then
              st ← chunk_update chunks_to_check i
                     (λ c, mkChunk CHUNK_LEAKED (Chunk_addr c)) st;
              c ← chunk_get chunks_to_check i st;
              Done (leak_printf "Detected leak at address %p" [Chunk_addr c] st)
            else Done st);
      leaked_loop n' chunks_to_check (i + 1) st
  end.

Definition run_leak_detector (st : leak_check) : outcome leak_check :=
  let st := leak_printf "Running the leak detector..." [] st in
  let '(chunks_to_check, st) :=
    leak_check_stack_alloc (size_t_mul sizeof_Chunk 200) st in
  match chunks_to_check with
  | None =>
      Stop (Panic
        "LeakCheck: Unable to allocate chunks for leak detection on stack")
  | Some chunks_to_check =>
      st ← in_use_loop 200 chunks_to_check 0 st;
      st ← leaked_loop 200 chunks_to_check 0 st;
      let st := leak_check_stack_free (size_t_mul sizeof_Chunk 200) st in
      Done (leak_printf "Leak detection completed." [] st)
  end.

Definition MC_leak_check_main (st : leak_check) : outcome leak_check :=
  let st := leak_printf "Starting MemCheck Leak Detection..." [] st in
  st ← get_initial_chunks st;
  st ← run_leak_detector st;
  Done (leak_printf "MemCheck Leak Detection finished." [] st).

(** A loop that updates the chunks [chunks[i]], ..., [chunks[i + n - 1]]
    through [f] and leaves the rest of the state alone. *)
Definition updates_chunks (loop : nat → N → N → leak_check → outcome leak_check)
    (keeps : Chunk → Chunk → Prop) : Prop :=
  ∀ (n : nat) (p i : N) (st : leak_check),
    p mod sizeof_Chunk = 0 →
    (p / sizeof_Chunk + i + N.of_nat n) * sizeof_Chunk ≤ LEAK_CHECK_STACK_SIZE →
    ∃ st', loop n p i st = Done st' ∧
           leak_check_stack_pointer st' = leak_check_stack_pointer st ∧
           (∀ k, k < p / sizeof_Chunk + i → leak_check_chunks st' k = leak_check_chunks st k) ∧
           (∀ k, keeps (leak_check_chunks st k) (leak_check_chunks st' k)).

(** [MC_(leak_check_main)] called [n] times in a row. *)
Fixpoint leak_check_runs (n : nat) (st : leak_check) : outcome leak_check :=
  match n with
  | O => Done st
  | S n' => st ← leak_check_runs n' st; MC_leak_check_main st
  end.
End LeakCheck.

Definition leak_check_init : leak_check := mkLeak (λ _, mkChunk 0 0) 0 [].

(** * States of the concrete runs of the further properties *)

(** What [VG_(HT_construct)] hands back for the name "T". *)
Definition new_table : VgHashTable :=
  mkTable 769 0 None 0 true (replicate (N.to_nat 769) None) "T".

(** The state after the insertion of [node_D], whose key hashes to the
    last slot. *)
Definition state_D : VgHashTable * heap := final_state (table_of [node_D]).

(** A comparator that never answers 0. *)
Definition cmp_never : HT_Cmp_t := λ _ _, 1%Z.

(** The pool after [MC_(malloc)(16)]. *)
Definition pool_16 : pool := mkPool zeros 16 [new_mem_stack 0 16].

(** The pool after [MC_(calloc)(2, 4)] in [pool_16]. *)
Definition pool_24 : pool :=
  mkPool (λ i, if (16 <=? i) && (i <? 16 + 8) then Byte.x00 else zeros i)
         24 [new_mem_stack 0 16; new_mem_stack 16 8].

(** A guest state of four bytes. *)
Definition guest_4 : list Byte.byte := [Byte.x01; Byte.x02; Byte.x03; Byte.x04].

(** The machine after [get_state] of [guest_4]. *)
Definition machine_4 : machine :=
  mkMachine (λ i, if (0 <=? i) && (i <? 0 + 4)
                  then nth (N.to_nat (i - 0)) guest_4 Byte.x00
                  else zeros i)
            0 ["Retrieved ppc64 guest state"].

(** * Properties *)

#[global] Arguments chain_at : simpl never.
#[global] Arguments chain_store : simpl never.
#[global] Arguments deref : simpl never.
#[global] Arguments CHAIN_NO : simpl never.
#[global] Arguments resize : simpl never.
#[global] Arguments uint_incr : simpl never.
#[global] Arguments uint_decr : simpl never.

(** ** The outcome monad *)

Lemma bind_OK {A B : Type} (m : result A) (k : A → result B) (b : B) :
  m ≫= k = OK b → ∃ a, m = OK a ∧ k a = OK b.
Proof. destruct m as [a| |]; simpl; intros H; try discriminate. by exists a. Qed.

Lemma OK_inj {A : Type} (a b : A) : OK a = OK b → a = b.
Proof. by intros [= ->]. Qed.

Lemma bind_not_OutOfFuel {A B : Type} (m : result A) (k : A → result B) :
  m ≠ OutOfFuel → (∀ a, m = OK a → k a ≠ OutOfFuel) → m ≫= k ≠ OutOfFuel.
Proof. destruct m as [a| |]; simpl; intros Hm Hk; [by apply Hk | done | done]. Qed.

(** Splits a hypothesis [m ≫= k = OK b] into the two runs it is made of. *)
Ltac bind_inv H :=
  let a := fresh "x" in
  let H1 := fresh H "l" in
  let H2 := fresh in
  destruct (bind_OK _ _ _ H) as (a & H1 & H2); clear H; rename H2 into H.

Lemma chain_at_OK (arr : list (option addr)) (i : N) (c : option addr) :
  chain_at arr i = OK c ↔ arr !! N.to_nat i = Some c.
Proof.
  unfold chain_at. destruct (arr !! N.to_nat i); split; intros H; congruence.
Qed.

Lemma chain_at_not_OutOfFuel (arr : list (option addr)) (i : N) :
  chain_at arr i ≠ OutOfFuel.
Proof. unfold chain_at. by destruct (arr !! N.to_nat i). Qed.

Lemma chain_store_OK (arr arr' : list (option addr)) (i : N) (p : option addr) :
  chain_store arr i p = OK arr' →
  (N.to_nat i < length arr)%nat ∧ arr' = <[N.to_nat i := p]> arr.
Proof. unfold chain_store. case_decide; intros ?; by simplify_eq. Qed.

Lemma deref_OK (h : heap) (p : option addr) (nd : VgHashNode) :
  deref h p = OK nd ↔ ∃ a, p = Some a ∧ h !! a = Some nd.
Proof.
  unfold deref. destruct p as [a|].
  - destruct (h !! a) eqn:E; split.
    + intros [= <-]. eauto.
    + intros (? & [= <-] & ?). congruence.
    + done.
    + intros (? & [= <-] & ?). congruence.
  - split; [done | by intros (? & ? & ?)].
Qed.

Lemma deref_not_OutOfFuel (h : heap) (p : option addr) : deref h p ≠ OutOfFuel.
Proof. unfold deref. destruct p as [a|]; [by destruct (h !! a) | done]. Qed.

Lemma CHAIN_NO_OK (k : N) (t : VgHashTable) (idx : N) :
  CHAIN_NO k t = OK idx → max_size t ≠ 0 ∧ idx = k mod max_size t ∧ idx < max_size t.
Proof.
  unfold CHAIN_NO. destruct (N.eqb_spec (max_size t) 0); [done |].
  intros [= <-]. split_and!; [done | done |]. by apply N.mod_lt.
Qed.

Lemma CHAIN_NO_not_OutOfFuel (k : N) (t : VgHashTable) : CHAIN_NO k t ≠ OutOfFuel.
Proof. unfold CHAIN_NO. by destruct (max_size t =? 0). Qed.

(** ** The growth sequence *)

Lemma prime_at_first : prime_at 0 = 769.
Proof. reflexivity. Qed.

Lemma prime_at_last : prime_at (N_HASH_PRIMES - 1) = 402653189.
Proof. reflexivity. Qed.

Lemma next_size_spec (n : N) :
  n ≤ 402653189 → next_size n ∈ primes ∧ n ≤ next_size n.
Proof.
  intros Hn. unfold next_size.
  assert (In 402653189 primes) as Hin by (unfold primes; simpl; tauto).
  destruct (List.find (λ p, n <? p) primes) as [p|] eqn:E.
  - apply find_some in E as [Hp Hlt]. apply N.ltb_lt in Hlt.
    split; [by apply list_elem_of_In | lia].
  - pose proof (find_none _ _ E _ Hin) as Hf. apply N.ltb_ge in Hf.
    assert (n = 402653189) as -> by lia.
    split; [by apply list_elem_of_In | lia].
Qed.

(** ** resize *)

Section Resize.
Implicit Types (t : VgHashTable) (h : heap) (chains : list (option addr)).

(** On an array without a slot in use the probe of the rehash loop
    runs off the end. *)
Lemma rehash_probe_all_null (room : list (option addr)) (idx : N) :
  Forall (λ c, c = None) room → rehash_probe room idx = Fault OutOfBounds.
Proof.
  intros Hall. revert idx.
  induction Hall as [|c room -> _ IH]; intros idx; simpl; [done | apply IH].
Qed.

Lemma rehash_probe_not_OutOfFuel (room : list (option addr)) (idx : N) :
  rehash_probe room idx ≠ OutOfFuel.
Proof.
  revert idx. induction room as [|[a|] room IH]; intros idx; simpl; done.
Qed.

(** So the rehash loop only gets through old slots that are empty. *)
Lemma rehash_all_null h t (n : nat) (i : N) chains chains' :
  Forall (λ c, c = None) chains →
  rehash h t n i chains = OK chains' →
  chains' = chains ∧
  ∀ j, (j < n)%nat → chain t !! (N.to_nat i + j)%nat = Some None.
Proof.
  intros Hall. revert i.
  induction n as [|n IH]; intros i H; simpl in H.
  - split; [congruence | lia].
  - bind_inv H. apply chain_at_OK in Hl. destruct x as [a|].
    + bind_inv H. bind_inv H. bind_inv H.
      rewrite rehash_probe_all_null in Hl2; [done | by apply Forall_drop].
    + apply IH in H as [-> Hj]. split; [done |].
      intros [|j] Hlt.
      * by rewrite Nat.add_0_r.
      * replace (N.to_nat i + S j)%nat with (N.to_nat (i + 1) + j)%nat by lia.
        apply Hj. lia.
Qed.

Lemma rehash_not_OutOfFuel h t (n : nat) (i : N) chains :
  rehash h t n i chains ≠ OutOfFuel.
Proof.
  revert i chains. induction n as [|n IH]; intros i chains; simpl; [done |].
  apply bind_not_OutOfFuel; [apply chain_at_not_OutOfFuel |].
  intros [a|] _; [| apply IH].
  apply bind_not_OutOfFuel; [apply deref_not_OutOfFuel | intros nd _].
  apply bind_not_OutOfFuel; [apply CHAIN_NO_not_OutOfFuel | intros idx0 _].
  apply bind_not_OutOfFuel; [apply rehash_probe_not_OutOfFuel | intros idx _].
  apply bind_not_OutOfFuel; [| intros ? _; apply IH].
  unfold chain_store. by case_decide.
Qed.

Lemma resize_OK t h t' :
  resize t h = OK t' →
  (max_size t = 402653189 ∧ t' = t) ∨ grown_from t t'.
Proof.
  unfold resize. rewrite prime_at_first, prime_at_last.
  destruct (N.eqb_spec (max_size t) 402653189) as [Hlast|Hlast].
  { intros [= <-]. by left. }
  destruct (N.leb_spec 769 (max_size t)) as [Hlo|]; [| done].
  destruct (N.ltb_spec (max_size t) 402653189) as [Hhi|]; [| done].
  cbn [andb negb].
  destruct (next_size_spec (max_size t + 1)) as [Hin Hle]; [lia |].
  set (m := next_size (max_size t + 1)) in *.
  destruct (N.ltb_spec (max_size t) m) as [Hlt|]; [| done]. cbn [negb].
  destruct (negb _); [done |].
  intros H. bind_inv H. injection H as <-. right.
  apply rehash_all_null in Hl as [-> Hnull].
  - exists m. split_and!; [lia | done | done | ].
    intros j Hj. specialize (Hnull j Hj). by rewrite Nat.add_0_l in Hnull.
  - apply Forall_forall. by intros c [-> _]%elem_of_replicate.
Qed.

Lemma resize_not_OutOfFuel t h : resize t h ≠ OutOfFuel.
Proof.
  unfold resize.
  repeat match goal with |- context [if ?b then _ else _] => destruct b end;
    try done.
  apply bind_not_OutOfFuel; [apply rehash_not_OutOfFuel | done].
Qed.

(** Once the last size is reached, [resize] changes nothing. *)
Lemma resize_at_last t h : max_size t = 402653189 → resize t h = OK t.
Proof. intros H. unfold resize. by rewrite prime_at_last, H. Qed.

Lemma regrown_refl t : regrown t t.
Proof. unfold regrown. naive_solver. Qed.

Lemma regrown_trans t1 t2 t3 : regrown t1 t2 → regrown t2 t3 → regrown t1 t3.
Proof.
  unfold regrown. intros (?&?&?&?&?&?&?&?&?) (?&?&?&?&?&?&?&?&?).
  split_and!; try congruence; [lia | tauto | tauto | auto].
Qed.

Lemma grown_from_regrown t t' : grown_from t t' → regrown t t'.
Proof.
  intros (m & Hlt & Hin & -> & _). unfold regrown; cbn.
  split_and!; try done; [lia | by rewrite length_replicate |].
  by intros a [? _]%elem_of_replicate.
Qed.

Lemma resize_regrown t h t' : resize t h = OK t' → regrown t t'.
Proof.
  intros [[_ ->]|H]%resize_OK; [apply regrown_refl | by apply grown_from_regrown].
Qed.
End Resize.

(** ** VG_(HT_add_node) *)

Section AddNode.
Implicit Types (t : VgHashTable) (h : heap).

(** The fuel of [add_fuel] is enough: the probing loop never ends by
    being cut off. *)
Lemma add_probe_fuel (fuel : nat) t h (idx : N) :
  (length (chain t) - N.to_nat idx + 2 ≤ fuel)%nat →
  add_probe fuel t h idx ≠ OutOfFuel.
Proof.
  revert idx. induction fuel as [|fuel IH]; intros idx Hfuel; [lia |].
  simpl. destruct (chain_at (chain t) idx) as [[b|]| |] eqn:Hc; simpl; try done.
  apply chain_at_OK, lookup_lt_Some in Hc.
  destruct (max_size t - 1 <? idx + 1).
  - apply bind_not_OutOfFuel; [apply resize_not_OutOfFuel |].
    intros t' [[_ ->]|(m & _ & _ & -> & _)]%resize_OK.
    + apply IH. lia.
    + destruct fuel as [|fuel]; [lia |]. simpl.
      unfold chain_at.
      destruct (replicate (N.to_nat m) None !! N.to_nat (idx + 1)) as [c|] eqn:E;
        [| done].
      by apply lookup_replicate in E as [-> _].
  - apply IH. lia.
  - by apply chain_at_not_OutOfFuel in Hc.
Qed.

(** The loop hands back a table that differs from the one it started
    with by calls of [resize] only, and the index of a free slot. *)
Lemma add_probe_OK (fuel : nat) t h (idx : N) t' (idx' : N) :
  add_probe fuel t h idx = OK (t', idx') →
  regrown t t' ∧ chain t' !! N.to_nat idx' = Some None.
Proof.
  revert t idx. induction fuel as [|fuel IH]; intros t idx H; [done |].
  simpl in H. bind_inv H. apply chain_at_OK in Hl. destruct x as [b|].
  - destruct (max_size t - 1 <? idx + 1).
    + bind_inv H. apply IH in H as [Hre Hfree].
      split; [| done]. eapply regrown_trans; [by eapply resize_regrown | done].
    + by apply IH in H.
  - injection H as <- <-. split; [apply regrown_refl | done].
Qed.

(** On a table whose array has [max_size] slots the loop is a linear
    probe: it steps over slots in use up to the first free one, and
    it never comes back from a call of [resize] that grew the
    table. *)
Lemma add_probe_linear (fuel : nat) t h (idx : N) t' (idx' : N) :
  length (chain t) = N.to_nat (max_size t) →
  idx < max_size t →
  add_probe fuel t h idx = OK (t', idx') →
  t' = t ∧ idx ≤ idx' ∧ idx' < max_size t ∧
  chain t !! N.to_nat idx' = Some None ∧
  ∀ j, idx ≤ j → j < idx' → ∃ b, chain t !! N.to_nat j = Some (Some b).
Proof.
  intros Hlen. revert idx.
  induction fuel as [|fuel IH]; intros idx Hidx H; [done |].
  simpl in H. bind_inv H. apply chain_at_OK in Hl. destruct x as [b|].
  - destruct (N.ltb_spec (max_size t - 1) (idx + 1)) as [Hend|Hin].
    + bind_inv H. exfalso.
      apply resize_OK in Hl0 as [[_ ->]|(m & _ & _ & _ & Hnull)].
      * destruct fuel as [|fuel]; [done |]. simpl in H.
        bind_inv H. apply chain_at_OK, lookup_lt_Some in Hl0. lia.
      * rewrite Hnull in Hl; [done | lia].
    + apply IH in H as (-> & Hle & Hlt & Hfree & Hused); [| lia].
      split_and!; [done | lia | done | done |].
      intros j Hj1 Hj2. destruct (decide (j = idx)) as [->|]; [by exists b |].
      apply Hused; lia.
  - injection H as <- <-. split_and!; [done | lia | done | done |].
    intros j ??. lia.
Qed.

Lemma HT_add_node_OK t h (node : addr) t' h' :
  HT_add_node t h node = OK (t', h') →
  ∃ nd t1 idx,
    h !! node = Some nd ∧
    add_probe (add_fuel t) t h (key nd mod max_size t) = OK (t1, idx) ∧
    t' = set_iterOK false
           (set_n_elements (uint_incr (n_elements t1))
              (set_chain (<[N.to_nat idx := Some node]> (chain t1)) t1)) ∧
    h' = <[node := mkNode (key nd) None]> h.
Proof.
  unfold HT_add_node. intros H.
  bind_inv H. apply deref_OK in Hl as (? & [= <-] & Hnd).
  bind_inv H. apply CHAIN_NO_OK in Hl as (_ & -> & _).
  bind_inv H. destruct x0 as [t1 idx]. simpl in H.
  bind_inv H. apply chain_store_OK in Hl0 as [_ ->].
  injection H as <- <-. by exists x, t1, idx.
Qed.

(** [VG_(HT_add_node)] always comes to an end. *)
Lemma HT_add_node_not_OutOfFuel t h (node : addr) :
  HT_add_node t h node ≠ OutOfFuel.
Proof.
  unfold HT_add_node.
  apply bind_not_OutOfFuel; [apply deref_not_OutOfFuel | intros nd _].
  apply bind_not_OutOfFuel; [apply CHAIN_NO_not_OutOfFuel | intros idx0 _].
  apply bind_not_OutOfFuel.
  { apply add_probe_fuel. unfold add_fuel. lia. }
  intros [t1 idx] _. simpl.
  apply bind_not_OutOfFuel; [| done].
  unfold chain_store. by case_decide.
Qed.
End AddNode.

(** ** The operations that leave the slots alone *)

Section Slots.
Implicit Types (t : VgHashTable) (h : heap).

Lemma remove_loop_OK h t (k : N) (n : nat) (j : N) (curr : option addr) t' r :
  remove_loop h t k n j curr = OK (t', r) →
  (t' = t ∧ r = None) ∨
  (t' = set_n_elements (uint_decr (n_elements t)) t ∧
   ∃ a nd, r = Some a ∧ h !! a = Some nd ∧ key nd = k).
Proof.
  revert j curr. induction n as [|n IH]; intros j curr H; simpl in H.
  - injection H as <- <-. by left.
  - bind_inv H. apply deref_OK in Hl as (a & -> & Hnd).
    destruct (N.eqb_spec k (key x)) as [->|_].
    + injection H as <- <-. right. split; [done |]. by exists a, x.
    + bind_inv H. by apply IH in H.
Qed.

Lemma HT_remove_OK t h (k : N) t' r :
  HT_remove t h k = OK (t', r) →
  (t' = set_iterOK false t ∧ r = None) ∨
  (t' = set_n_elements (uint_decr (n_elements t)) (set_iterOK false t) ∧
   ∃ a nd, r = Some a ∧ h !! a = Some nd ∧ key nd = k).
Proof.
  unfold HT_remove. intros H. bind_inv H. bind_inv H.
  by apply remove_loop_OK in H.
Qed.

Lemma gen_remove_loop_OK (fuel : nat) h t (node : addr) (hnode : VgHashNode)
    (cmp : HT_Cmp_t) (idx : N) (curr : option addr) t' r :
  gen_remove_loop fuel h t node hnode cmp idx curr = OK (t', r) →
  (t' = t ∧ r = None) ∨
  (t' = set_n_elements (uint_decr (n_elements t)) t ∧
   ∃ a nd, r = Some a ∧ h !! a = Some nd ∧ key nd = key hnode ∧ cmp node a = 0%Z).
Proof.
  revert curr. induction fuel as [|fuel IH]; intros [a|] H; simpl in H;
    try discriminate; try (injection H as <- <-; by left).
  bind_inv H. apply deref_OK in Hl as (? & [= <-] & Hnd).
  destruct (N.eqb_spec (key hnode) (key x)) as [Hk|_]; simpl in H.
  - destruct (Z.eqb_spec (cmp node a) 0) as [Hc|_].
    + injection H as <- <-. right. split; [done |]. by exists a, x.
    + bind_inv H. by apply IH in H.
  - bind_inv H. by apply IH in H.
Qed.

Lemma HT_gen_remove_OK (fuel : nat) t h (node : addr) (cmp : HT_Cmp_t) t' r :
  HT_gen_remove fuel t h node cmp = OK (t', r) →
  (t' = set_iterOK false t ∧ r = None) ∨
  (t' = set_n_elements (uint_decr (n_elements t)) (set_iterOK false t) ∧
   ∃ a, r = Some a ∧ cmp node a = 0%Z).
Proof.
  unfold HT_gen_remove. intros H. bind_inv H. bind_inv H. bind_inv H.
  apply gen_remove_loop_OK in H as [H|[-> (a & nd & -> & _ & _ & Hc)]];
    [by left | right].
  split; [done | by exists a].
Qed.

Lemma HT_Next_OK t h t' r :
  HT_Next t h = OK (t', r) →
  iterOK t = true ∧ iterOK t' = true ∧
  max_size t' = max_size t ∧ chain t' = chain t ∧
  n_elements t' = n_elements t.
Proof.
  unfold HT_Next. destruct (iterOK t) eqn:Hok; [| done]. cbn [negb].
  intros H. bind_inv H. destruct x as [b|].
  { injection H as <- <-. by rewrite <- Hok. }
  destruct (2 ^ 31 <=? iterChain t).
  { injection H as <- <-. by rewrite Hok. }
  bind_inv H. destruct x as [[i a]|]; injection H as <- <-; by rewrite <- ?Hok.
Qed.

Lemma HT_remove_at_Iter_OK t t' :
  HT_remove_at_Iter t = OK t' →
  iterOK t = true ∧
  t' = set_n_elements (uint_decr (n_elements t)) (set_iterNode None t).
Proof.
  unfold HT_remove_at_Iter. destruct (iterOK t); [| done]. cbn [negb].
  destruct (iterNode t); [| done]. by intros [= <-].
Qed.

(** Only [VG_(HT_add_node)] writes to the array of slots, to the size
    of the table and to the records. *)
Lemma call_slots t h t' h' :
  call t h t' h' →
  (∃ node, HT_add_node t h node = OK (t', h')) ∨
  (max_size t' = max_size t ∧ chain t' = chain t ∧ h' = h).
Proof.
  intros [t0 h0 node t1 h1 H|t0 h0 k t1 r H|fuel t0 h0 node cmp t1 r H
         |t0 h0|t0 h0 t1 r H|t0 h0 t1 H].
  - left. by exists node.
  - right. by apply HT_remove_OK in H as [[-> _]|[-> _]].
  - right. by apply HT_gen_remove_OK in H as [[-> _]|[-> _]].
  - by right.
  - right. by apply HT_Next_OK in H as (_ & _ & ? & ? & _).
  - right. by apply HT_remove_at_Iter_OK in H as [_ ->].
Qed.
End Slots.

(** ** The lookups come to an end *)

Lemma lookup_loop_fuel (hit : addr → VgHashNode → bool) (h : heap)
    (t : VgHashTable) (n : nat) (idx : N) (curr : option addr) :
  (N.to_nat (max_size t) ≤ n + N.to_nat idx + 1)%nat →
  lookup_loop hit h t n idx curr ≠ OutOfFuel.
Proof.
  revert idx curr. induction n as [|n IH]; intros idx [a|] Hn; simpl; try done.
  - apply bind_not_OutOfFuel; [apply deref_not_OutOfFuel | intros nd _].
    destruct (hit a nd); [done |].
    destruct (N.leb_spec (max_size t) (idx + 1)); [done | lia].
  - apply bind_not_OutOfFuel; [apply deref_not_OutOfFuel | intros nd _].
    destruct (hit a nd); [done |].
    destruct (N.leb_spec (max_size t) (idx + 1)); [done |].
    apply bind_not_OutOfFuel; [apply chain_at_not_OutOfFuel | intros c _].
    apply IH. lia.
Qed.

Lemma HT_lookup_not_OutOfFuel (t : VgHashTable) (h : heap) (k : N) :
  HT_lookup t h k ≠ OutOfFuel.
Proof.
  unfold HT_lookup.
  apply bind_not_OutOfFuel; [apply CHAIN_NO_not_OutOfFuel | intros idx _].
  apply bind_not_OutOfFuel; [apply chain_at_not_OutOfFuel | intros c _].
  apply lookup_loop_fuel. lia.
Qed.

Lemma HT_gen_lookup_not_OutOfFuel (t : VgHashTable) (h : heap) (node : addr)
    (cmp : HT_Cmp_t) :
  HT_gen_lookup t h node cmp ≠ OutOfFuel.
Proof.
  unfold HT_gen_lookup. destruct (max_size t =? 0); [done |].
  apply bind_not_OutOfFuel; [apply deref_not_OutOfFuel | intros nd _].
  apply bind_not_OutOfFuel; [apply CHAIN_NO_not_OutOfFuel | intros idx _].
  apply bind_not_OutOfFuel; [apply chain_at_not_OutOfFuel | intros c _].
  apply lookup_loop_fuel. lia.
Qed.

(** A lookup only ever answers with a node of the key it was asked
    for. *)
Lemma lookup_loop_hit (hit : addr → VgHashNode → bool) (h : heap)
    (t : VgHashTable) (n : nat) (idx : N) (curr : option addr) (a : addr) :
  lookup_loop hit h t n idx curr = OK (Some a) →
  ∃ nd, h !! a = Some nd ∧ hit a nd = true.
Proof.
  revert idx curr. induction n as [|n IH]; intros idx [b|] H; simpl in H;
    try discriminate.
  - bind_inv H. apply deref_OK in Hl as (? & [= <-] & Hnd).
    destruct (hit b x) eqn:Hhit; [injection H as <-; by exists x |].
    by destruct (max_size t <=? idx + 1).
  - bind_inv H. apply deref_OK in Hl as (? & [= <-] & Hnd).
    destruct (hit b x) eqn:Hhit; [injection H as <-; by exists x |].
    destruct (max_size t <=? idx + 1); [done |].
    bind_inv H. by apply IH in H.
Qed.

Lemma HT_lookup_key (t : VgHashTable) (h : heap) (k : N) (a : addr) :
  HT_lookup t h k = OK (Some a) → ∃ nd, h !! a = Some nd ∧ key nd = k.
Proof.
  unfold HT_lookup. intros H. bind_inv H. bind_inv H.
  apply lookup_loop_hit in H as (nd & Hnd & Hk). exists nd.
  split; [done |]. symmetry. by apply N.eqb_eq.
Qed.

(** ** The invariant of the slots *)

Section Invariant.
Implicit Types (t : VgHashTable) (h : heap).

Lemma construct_ok (nm : option string) t h :
  HT_construct nm = OK t → table_ok t h.
Proof.
  unfold HT_construct. destruct nm as [s|]; [| done].
  intros <-%OK_inj.
  unfold table_ok; cbn [chain max_size]. split_and!.
  - by rewrite length_replicate.
  - rewrite prime_at_first. unfold primes. set_solver.
  - intros i a [? _]%lookup_replicate. done.
Qed.

Lemma add_node_ok t h (node : addr) t' h' :
  table_ok t h → HT_add_node t h node = OK (t', h') → table_ok t' h'.
Proof.
  intros (Hlen & Hprime & Hlinks) H.
  apply HT_add_node_OK in H as (nd & t1 & idx & Hnd & Hprobe & -> & ->).
  apply add_probe_OK in Hprobe as [(Hle & Hp & Hl & Hsub & _) Hfree].
  unfold table_ok; cbn [chain max_size set_iterOK set_n_elements set_chain].
  split_and!.
  - rewrite length_insert. auto.
  - auto.
  - intros i a [(<- & [= <-] & _)|[_ Hi]]%list_lookup_insert_Some.
    + rewrite lookup_insert_eq. by eexists.
    + destruct (decide (a = node)) as [->|Hne].
      * rewrite lookup_insert_eq. by eexists.
      * rewrite lookup_insert_ne by done.
        assert (Some a ∈ chain t) as [j Hj]%list_elem_of_lookup.
        { apply Hsub, list_elem_of_lookup. by exists i. }
        by eapply Hlinks.
Qed.

Lemma call_ok t h t' h' : table_ok t h → call t h t' h' → table_ok t' h'.
Proof.
  intros Hok [[node H]|(Hm & Hc & ->)]%call_slots.
  - by eapply add_node_ok.
  - destruct Hok as (Hlen & Hprime & Hlinks).
    unfold table_ok. rewrite Hm, Hc. done.
Qed.

Lemma reachable_ok t h : reachable t h → table_ok t h.
Proof.
  induction 1 as [nm t h H|t h a nd _ IH Hfresh|t h t' h' _ IH Hcall].
  - by eapply construct_ok.
  - destruct IH as (Hlen & Hprime & Hlinks). split_and!; [done | done |].
    intros i b Hb. destruct (Hlinks i b Hb) as (nb & Hnb & Hnext).
    exists nb. split; [| done].
    rewrite lookup_insert_ne; [done | congruence].
  - by eapply call_ok.
Qed.

(** No call ever shrinks the table. *)
Lemma call_max_size t h t' h' : call t h t' h' → max_size t ≤ max_size t'.
Proof.
  intros [[node H]|(Hm & _)]%call_slots; [| lia].
  apply HT_add_node_OK in H as (nd & t1 & idx & _ & Hprobe & -> & _).
  by apply add_probe_OK in Hprobe as [(Hle & _) _].
Qed.

(** A call of [VG_(HT_add_node)] that comes back has not grown the
    table: when the probe reaches the end of the array, the slot
    before is in use, and then the rehash loop of [resize] leaves the
    new array. *)
Lemma add_node_keeps_size t h (node : addr) t' h' :
  length (chain t) = N.to_nat (max_size t) →
  HT_add_node t h node = OK (t', h') → max_size t' = max_size t.
Proof.
  intros Hlen H.
  apply HT_add_node_OK in H as (nd & t1 & idx & _ & Hprobe & -> & _).
  apply add_probe_linear in Hprobe as (-> & _); [done | done |].
  apply N.mod_lt. intros Hz. rewrite Hz in Hlen.
  destruct (chain t) eqn:E; [| done]. unfold add_fuel in Hprobe.
  rewrite E in Hprobe. simpl in Hprobe. by rewrite E in Hprobe.
Qed.
End Invariant.

(** ** The loops of the export and of the generic removal *)

Lemma uint_incr_small (x : N) : x + 1 < UInt_modulus → uint_incr x = x + 1.
Proof. intros H. unfold uint_incr. by apply N.mod_small. Qed.

Lemma to_array_chain_not_OutOfFuel (h : heap) (room : nat) (node : option addr)
    (i : N) (arr : list addr) :
  to_array_chain h room node i arr ≠ OutOfFuel.
Proof.
  revert node i arr. induction room as [|room IH]; intros [a|] i arr; simpl;
    try done.
  apply bind_not_OutOfFuel; [apply deref_not_OutOfFuel | intros nd _; apply IH].
Qed.

(** As long as [i] does not wrap around, the inner loop moves [i]
    forward by the number of entries it writes. *)
Lemma to_array_chain_OK (h : heap) (room : nat) (node : option addr) (i : N)
    (arr : list addr) (room' : nat) (i' : N) (arr' : list addr) :
  i + N.of_nat room < UInt_modulus →
  to_array_chain h room node i arr = OK (room', i', arr') →
  i' + N.of_nat room' = i + N.of_nat room ∧ i ≤ i'.
Proof.
  revert node i arr. induction room as [|room IH]; intros [a|] i arr Hi H;
    simpl in H; try discriminate.
  - apply OK_inj in H. simplify_eq. lia.
  - bind_inv H. rewrite uint_incr_small in H by lia.
    apply IH in H; lia.
  - apply OK_inj in H. simplify_eq. lia.
Qed.

Lemma to_array_loop_fuel (fuel : nat) (h : heap) (t : VgHashTable) (room : nat)
    (i : N) (arr : list addr) :
  (N.to_nat (max_size t) ≤ fuel + N.to_nat i)%nat →
  i + N.of_nat room + N.of_nat fuel < UInt_modulus →
  to_array_loop fuel h t room i arr ≠ OutOfFuel.
Proof.
  revert room i arr. induction fuel as [|fuel IH]; intros room i arr Hfuel Hi;
    simpl; destruct (N.leb_spec (max_size t) i) as [Hend|Hin];
    try (by destruct room); [lia |].
  apply bind_not_OutOfFuel; [apply chain_at_not_OutOfFuel | intros node _].
  apply bind_not_OutOfFuel; [apply to_array_chain_not_OutOfFuel |].
  intros [[room' i'] arr'] [Hsum Hle]%to_array_chain_OK; [| lia]. simpl.
  rewrite uint_incr_small by lia. apply IH; lia.
Qed.

(** [VG_(HT_to_array)] comes to an end on every table whose size and
    count are what the code can make them. *)
Lemma HT_to_array_not_OutOfFuel (t : VgHashTable) (h : heap) :
  max_size t + n_elements t < UInt_modulus → HT_to_array t h ≠ OutOfFuel.
Proof.
  intros Hsmall. unfold HT_to_array. destruct (n_elements t =? 0); [done |].
  apply bind_not_OutOfFuel; [| done].
  apply to_array_loop_fuel; lia.
Qed.

(** The loop of [VG_(HT_gen_remove)] does not end when the node it
    holds is not the one looked for and the rescan hands the same node
    back. *)
Lemma gen_remove_loop_forever (fuel : nat) (h : heap) (t : VgHashTable)
    (node : addr) (hnode : VgHashNode) (cmp : HT_Cmp_t) (idx : N) (a : addr)
    (nd : VgHashNode) :
  h !! a = Some nd →
  (key hnode =? key nd) && (cmp node a =? 0)%Z = false →
  remove_rescan (chain t) (N.to_nat (max_size t - idx)) 0 (Some a) = OK (Some a) →
  gen_remove_loop fuel h t node hnode cmp idx (Some a) = OutOfFuel.
Proof.
  intros Hnd Hmiss Hscan. induction fuel as [|fuel IH]; [done |].
  cbn [gen_remove_loop]. unfold deref. rewrite Hnd. cbn [mbind result_bind].
  rewrite Hmiss, Hscan. exact IH.
Qed.

(** ** Reachable states of the concrete runs *)

Lemma add_nodes_reachable (nodes : list addr) (t : VgHashTable) (h : heap)
    (t' : VgHashTable) (h' : heap) :
  reachable t h → add_nodes nodes t h = OK (t', h') → reachable t' h'.
Proof.
  revert t h. induction nodes as [|node nodes IH]; intros t h Hr H; simpl in H.
  - apply OK_inj in H. by simplify_eq.
  - bind_inv H. destruct x as [t1 h1]. simpl in H.
    eapply IH; [| done]. eapply reach_call; [done |]. by eapply call_add_node.
Qed.

Lemma table_of_reachable (nodes : list addr) (t : VgHashTable) (h : heap) :
  table_of nodes = OK (t, h) → reachable t h.
Proof.
  unfold table_of. intros H. bind_inv H.
  eapply add_nodes_reachable; [| done]. by eapply reach_construct.
Qed.

Lemma bucket_nodes_single (fuel : nat) (h : heap) (a : addr) (nd : VgHashNode) :
  h !! a = Some nd → next nd = None → bucket_nodes (S fuel) h (Some a) = [a].
Proof. intros Hnd Hnext. simpl. rewrite Hnd, Hnext. by destruct fuel. Qed.

(** ** Links of records their callers leave alone

    What holds of the links as long as callers only create records:
    in the states of [reachable], where no caller writes to a record
    that the table has been given, a node that sits in a slot has its
    link NULL and the chain of that slot is this one node.  For every
    table, insert sets the link of the node it stores to NULL, no
    other call writes to a record, and the array [resize] builds holds
    nothing but heads of old slots. *)
Lemma links_of_untouched_records :
  (∀ t h, reachable t h →
     ∀ i a, chain t !! i = Some (Some a) →
       (∃ nd, h !! a = Some nd ∧ next nd = None) ∧
       ∀ fuel, bucket_nodes (S fuel) h (Some a) = [a]) ∧
  (∀ t h node t' h', HT_add_node t h node = OK (t', h') →
     ∃ nd, h !! node = Some nd ∧ h' = <[node := mkNode (key nd) None]> h) ∧
  (∀ t h t' h', call t h t' h' →
     (∃ node, HT_add_node t h node = OK (t', h')) ∨ h' = h) ∧
  (∀ t h t', resize t h = OK t' → ∀ a, Some a ∈ chain t' → Some a ∈ chain t).
Proof.
  split_and!.
  - intros t h Hr i a Hi.
    apply reachable_ok in Hr as (_ & _ & Hlinks).
    destruct (Hlinks i a Hi) as (nd & Hnd & Hnext).
    split; [by exists nd |]. intros fuel. by eapply bucket_nodes_single.
  - intros t h node t' h' H.
    apply HT_add_node_OK in H as (nd & t1 & idx & Hnd & _ & _ & ->).
    by exists nd.
  - intros t h t' h' [H|(_ & _ & ->)]%call_slots; [by left | by right].
  - intros t h t' H. by apply resize_regrown in H as (_ & _ & _ & Hsub & _).
Qed.

(** * The claims *)

(** C1: insert is claimed to put the node at the head of the chain of
    slot [key mod capacity], its link taking the old head.  Here two
    nodes of key 5 are inserted into a new table: the first stays the
    head of slot 5, the second goes to slot 6 with its link NULL; the
    count is 2 and the iterator flag is cleared. *)
Lemma add_node_probes_instead_of_prepending :
  ('(t, h) ← table_of [node_A; node_B];
   OK (chain t !! 5%nat, chain t !! 6%nat, next <$> h !! node_B,
       n_elements t, iterOK t))
  = OK (Some (Some node_A), Some (Some node_B), Some None, 2, false).
Proof. vm_compute. reflexivity. Qed.

(** C2: lookup is claimed to answer with the most recently inserted of
    the nodes that share a key.  After [node_A] and then [node_B],
    both of key 5, the lookup of 5 answers [node_A]. *)
Lemma lookup_returns_oldest_duplicate :
  ('(t, h) ← table_of [node_A; node_B]; HT_lookup t h 5)
  = OK (Some node_A).
Proof. vm_compute. reflexivity. Qed.

(** C3: a removal is claimed to unlink the node it returns, so that a
    second removal of a key held by one node answers not-found, and to
    answer not-found for a key that is absent.  With [node_A] (key 5)
    and [node_C] (key 7) in the table, removing 5 twice returns
    [node_A] both times, slot 5 still holding it in between; and
    removing the absent key 6 from a table that holds [node_A] reads
    through NULL. *)
Lemma remove_returns_the_node_twice :
  ('(t, h) ← table_of [node_A; node_C];
   '(t1, r1) ← HT_remove t h 5;
   '(t2, r2) ← HT_remove t1 h 5;
   OK (r1, chain t1 !! 5%nat, r2, n_elements t2))
  = OK (Some node_A, Some (Some node_A), Some node_A, 0)
  ∧ ('(t, h) ← table_of [node_A];
     '(_, r) ← HT_remove t h 6; OK r)
    = Fault NullDeref.
Proof. split; vm_compute; reflexivity. Qed.

(** C4: growth is claimed to move every node to the larger array.
    [node_D] and [node_E] hash to the last slot of a new table; the
    first insertion fills it, the second calls [resize], whose rehash
    loop reads past the end of the new array. *)
Lemma growth_leaves_the_new_array :
  ('(t, h) ← table_of [node_D]; OK (chain t !! 768%nat, max_size t))
  = OK (Some (Some node_D), 769)
  ∧ table_of [node_D; node_E] = Fault OutOfBounds.
Proof. split; vm_compute; reflexivity. Qed.

(** C5: the count is claimed to be the number of nodes in the chains
    and the length of the exported array.  After inserting [node_A]
    and [node_C] and removing key 5 the count is 1 while both nodes
    are in the slots, and the export writes past its array of one
    entry; after inserting [node_A] and [node_B], which sit in
    neighbouring slots, the export skips the second and fails its own
    assertion. *)
Lemma count_differs_from_nodes_in_slots :
  ('(t, h) ← table_of [node_A; node_C];
   '(t1, _) ← HT_remove t h 5;
   OK (HT_count_nodes t1, table_nodes 2 t1 h))
  = OK (1, [node_A; node_C])
  ∧ ('(t, h) ← table_of [node_A; node_C];
     '(t1, _) ← HT_remove t h 5;
     HT_to_array t1 h)
    = Fault OutOfBounds
  ∧ ('(t, h) ← table_of [node_A; node_B]; HT_to_array t h)
    = Fault AssertFailed.
Proof. split_and!; vm_compute; reflexivity. Qed.

(** C7: a full traversal is claimed to visit exactly [count()] nodes.
    After inserting [node_A] and [node_C] and removing key 5 the count
    is 1 and the traversal visits both nodes. *)
Lemma traversal_visits_more_than_count :
  ('(t, h) ← table_of [node_A; node_C];
   '(t1, _) ← HT_remove t h 5;
   '(t2, seen) ← traverse 3 t1 h;
   OK (HT_count_nodes t2, seen))
  = OK (1, [node_A; node_C]).
Proof. vm_compute. reflexivity. Qed.

(** C8: remove-current is claimed to unlink the node under the
    cursor.  With [node_A] and [node_C] in the table, after a reset,
    one advance (to [node_A]) and remove-current, the count is 1 and
    the next advance yields [node_C], but slot 5 still holds [node_A]:
    a lookup of 5 finds it and a new traversal visits it again. *)
Lemma remove_at_Iter_leaves_the_node :
  ('(t, h) ← table_of [node_A; node_C];
   '(t1, a) ← HT_Next (HT_ResetIter t) h;
   t2 ← HT_remove_at_Iter t1;
   found ← HT_lookup t2 h 5;
   '(t3, b) ← HT_Next t2 h;
   '(_, seen) ← traverse 3 t3 h;
   OK (a, n_elements t2, chain t2 !! 5%nat, found, b, seen))
  = OK (Some node_A, 1, Some (Some node_A), Some node_A, Some node_C,
        [node_A; node_C]).
Proof. vm_compute. reflexivity. Qed.

(** C6: in every reachable state the capacity is a value of the growth
    sequence; no call makes it smaller; and once it is the last value
    of the sequence, [resize] hands the table back unchanged. *)
Theorem capacity_stays_in_growth_sequence :
  (∀ t h, reachable t h → max_size t ∈ primes) ∧
  (∀ t h t' h', call t h t' h' → max_size t ≤ max_size t') ∧
  (∀ t h, max_size t = 402653189 → resize t h = OK t).
Proof.
  split_and!.
  - intros t h Hr. by apply reachable_ok in Hr as (_ & Hprime & _).
  - apply call_max_size.
  - apply resize_at_last.
Qed.

Lemma capacity_stays_in_growth_sequence_witness :
  max_size state_A.1 ∈ primes ∧
  max_size state_A.1 ≤ max_size state_AC.1 ∧
  resize last_size_table caller_heap = OK last_size_table.
Proof.
  destruct capacity_stays_in_growth_sequence as (Hin & Hmono & Hlast).
  split_and!.
  - apply (Hin state_A.1 state_A.2), (table_of_reachable [node_A]).
    vm_compute. reflexivity.
  - apply (Hmono state_A.1 state_A.2 state_AC.1 state_AC.2).
    apply (call_add_node _ _ node_C). vm_compute. reflexivity.
  - apply Hlast. reflexivity.
Defined.



(** C10: every node stored in the table is claimed to have its link
    NULL, each occupied slot holding exactly one reachable node.
    [VG_(HT_remove)] hands [node_A] back and leaves it in slot 5; once
    its caller, whose record it is again, has set the link of [node_A]
    to [node_C], slot 5 holds a node whose link is not NULL, its chain
    has two nodes, and a traversal visits [node_C] twice. *)
Lemma removed_node_link_stays_in_table :
  ('(t, h) ← table_of [node_A; node_C];
   '(t1, r) ← HT_remove t h 5;
   let h1 := <[node_A := mkNode 5 (Some node_C)]> h in
   '(_, seen) ← traverse 5 t1 h1;
   OK (r, chain t1 !! 5%nat, next <$> h1 !! node_A,
       bucket_nodes 3 h1 (Some node_A), seen))
  = OK (Some node_A, Some (Some node_A), Some (Some node_C),
        [node_A; node_C], [node_A; node_C; node_C]).
Proof. vm_compute. reflexivity. Qed.

(** * Further facts about the hash table *)

(** ** Slots in use *)

Lemma primes_bounds (p : N) : p ∈ primes → 769 ≤ p ∧ p ≤ 402653189.
Proof.
  unfold primes. rewrite !elem_of_cons, elem_of_nil.
  intros H. repeat destruct H as [->|H]; try lia; done.
Qed.

Lemma omap_all_null (l : list (option addr)) :
  Forall (λ c, c = None) l → omap id l = [].
Proof. induction 1 as [|x l -> _ IH]; [done | exact IH]. Qed.

Lemma omap_drop_all_null (arr : list (option addr)) (c : nat) :
  (∀ q, (c ≤ q)%nat → (q < length arr)%nat → arr !! q = Some None) →
  omap id (drop c arr) = [].
Proof.
  intros H. apply omap_all_null, Forall_lookup. intros i x Hi.
  rewrite lookup_drop in Hi. pose proof (lookup_lt_Some _ _ _ Hi) as Hlt.
  rewrite H in Hi by lia. congruence.
Qed.

Lemma omap_drop_first (arr : list (option addr)) (c j : nat) (a : addr) :
  (c ≤ j)%nat →
  (∀ q, (c ≤ q)%nat → (q < j)%nat → arr !! q = Some None) →
  arr !! j = Some (Some a) →
  omap id (drop c arr) = a :: omap id (drop (S j) arr).
Proof.
  intros Hcj Hnull Hj. remember (j - c)%nat as d eqn:Hd.
  revert c Hcj Hnull Hd. induction d as [|d IH]; intros c Hcj Hnull Hd.
  - assert (c = j) as -> by lia. by rewrite (drop_S _ _ _ Hj).
  - rewrite (drop_S _ None c) by (apply Hnull; lia). simpl.
    apply IH; [lia | | lia]. intros q ??. apply Hnull; lia.
Qed.

(** What the scan of [VG_(HT_Next)] finds: the first slot in use at or
    after [i], if the [n] slots from [i] on hold one. *)
Lemma next_scan_Some (arr : list (option addr)) (n : nat) (i j : N) (a : addr) :
  next_scan arr n i = OK (Some (j, a)) →
  i ≤ j ∧ (N.to_nat j < N.to_nat i + n)%nat ∧
  arr !! N.to_nat j = Some (Some a) ∧
  ∀ q, (N.to_nat i ≤ q)%nat → (q < N.to_nat j)%nat → arr !! q = Some None.
Proof.
  revert i. induction n as [|n IH]; intros i H; simpl in H; [done |].
  bind_inv H. apply chain_at_OK in Hl. destruct x as [b|].
  - apply OK_inj in H. simplify_eq. split_and!; [lia | lia | done | lia].
  - apply IH in H as (Hle & Hlt & Hj & Hnull).
    split_and!; [lia | lia | done |].
    intros q Hq1 Hq2. destruct (decide (q = N.to_nat i)) as [->|]; [done |].
    apply Hnull; lia.
Qed.

Lemma next_scan_None (arr : list (option addr)) (n : nat) (i : N) :
  next_scan arr n i = OK None →
  ∀ q, (N.to_nat i ≤ q)%nat → (q < N.to_nat i + n)%nat → arr !! q = Some None.
Proof.
  revert i. induction n as [|n IH]; intros i H q Hq1 Hq2; simpl in H; [lia |].
  bind_inv H. apply chain_at_OK in Hl. destruct x as [b|]; [done |].
  destruct (decide (q = N.to_nat i)) as [->|]; [done |].
  apply (IH _ H); lia.
Qed.

Lemma next_scan_in_bounds (arr : list (option addr)) (n : nat) (i : N) :
  (N.to_nat i + n ≤ length arr)%nat → ∃ r, next_scan arr n i = OK r.
Proof.
  revert i. induction n as [|n IH]; intros i Hlen; simpl; [by eexists |].
  destruct (lookup_lt_is_Some_2 arr (N.to_nat i)) as [c Hc]; [lia |].
  apply chain_at_OK in Hc. rewrite Hc. simpl.
  destruct c as [a|]; [by eexists |]. apply IH. lia.
Qed.

(** ** The traversal *)

Section Traversal.
Implicit Types (t : VgHashTable) (h : heap).

Lemma table_ok_iter t h (c : N) (p : option addr) :
  table_ok t h → table_ok (set_iterChain c (set_iterNode p t)) h.
Proof. done. Qed.

(** One advance from the cursor [c]: the end-marker when no slot from
    [c] on is in use, otherwise the node of the first such slot [j],
    with the cursor moved to [j + 1]. *)
Lemma HT_Next_from_cursor t h (c : N) :
  table_ok t h → cursor_at t h c → c ≤ max_size t →
  (HT_Next t h = OK (t, None) ∧
   ∀ q, (N.to_nat c ≤ q)%nat → (q < length (chain t))%nat →
        chain t !! q = Some None) ∨
  (∃ j a,
     HT_Next t h
     = OK (set_iterChain (j + 1) (set_iterNode (Some a) t), Some a) ∧
     c ≤ j ∧ j < max_size t ∧ chain t !! N.to_nat j = Some (Some a) ∧
     ∀ q, (N.to_nat c ≤ q)%nat → (q < N.to_nat j)%nat →
          chain t !! q = Some None).
Proof.
  intros (Hlen & Hprime & Hlinks) (Hok & Hc & Hnode) Hle.
  apply primes_bounds in Hprime as [_ Hmax].
  unfold HT_Next. rewrite Hok, Hc. cbn [negb].
  assert ((match iterNode t with
           | Some a => nd ← deref h (Some a); OK (next nd)
           | None => OK None
           end) = OK None) as ->.
  { destruct (iterNode t) as [b|]; [| done].
    destruct (Hnode b eq_refl) as (nd & Hnd & Hnext).
    unfold deref. rewrite Hnd. simpl. by rewrite Hnext. }
  cbn [mbind result_bind].
  destruct (N.leb_spec (2 ^ 31) c) as [Hbig|_]; [lia |].
  destruct (next_scan_in_bounds (chain t) (N.to_nat (max_size t - c)) c)
    as [[[j a]|] Hscan]; [lia | |]; rewrite Hscan; simpl.
  - right. exists j, a.
    apply next_scan_Some in Hscan as (? & ? & ? & ?).
    split_and!; [done | done | lia | done | done].
  - left. split; [done |]. intros q ??.
    apply (next_scan_None _ _ _ Hscan); lia.
Qed.

Lemma next_until_end_from_cursor h (k : nat) :
  ∀ t (c : N) (seen : list addr) (fuel : nat),
    table_ok t h → cursor_at t h c →
    (N.to_nat c + k = length (chain t))%nat → (k < fuel)%nat →
    ∃ t',
      next_until_end fuel t h seen
      = OK (t', seen ++ omap id (drop (N.to_nat c) (chain t))) ∧
      chain t' = chain t ∧ max_size t' = max_size t ∧
      n_elements t' = n_elements t ∧ iterOK t' = true.
Proof.
  induction k as [k IH] using lt_wf_ind.
  intros t c seen [|fuel] Hok Hcur Hk Hfuel; [lia |].
  pose proof Hok as (Hlen & _ & Hlinks).
  destruct (HT_Next_from_cursor t h c Hok Hcur) as
    [[HN Hnull]|(j & a & HN & Hcj & Hjm & Hj & Hnull)]; [lia | |].
  - exists t. simpl. rewrite HN. simpl.
    rewrite omap_drop_all_null by done. rewrite app_nil_r.
    by destruct Hcur as (? & _).
  - simpl. rewrite HN. simpl.
    destruct (Hlinks _ _ Hj) as (nd & Hnd & Hnext).
    destruct (IH (k - S (N.to_nat j - N.to_nat c))%nat ltac:(lia)
                (set_iterChain (j + 1) (set_iterNode (Some a) t)) (j + 1)
                (seen ++ [a]) fuel) as (t' & Hrun & ? & ? & ? & ?).
    + done.
    + destruct Hcur as (? & _). split_and!; [done | done |].
      intros b [= <-]. by exists nd.
    + cbn [chain set_iterChain set_iterNode]. lia.
    + lia.
    + exists t'. split; [| done]. rewrite Hrun.
      cbn [chain set_iterChain set_iterNode].
      rewrite (omap_drop_first (chain t) (N.to_nat c) (N.to_nat j) a)
        by (done || lia).
      rewrite <- app_assoc. simpl.
      by replace (N.to_nat (j + 1)) with (S (N.to_nat j)) by lia.
Qed.

(** A traversal of a table in a reachable state answers the nodes in
    the slots, by ascending slot, and leaves the slots and the count as
    they were. *)
Lemma traverse_slot_nodes t h (fuel : nat) :
  table_ok t h → (length (chain t) < fuel)%nat →
  ∃ t',
    traverse fuel t h = OK (t', slot_nodes t) ∧
    chain t' = chain t ∧ max_size t' = max_size t ∧
    n_elements t' = n_elements t ∧ iterOK t' = true.
Proof.
  intros Hok Hfuel. unfold traverse.
  destruct (next_until_end_from_cursor h (length (chain t))
              (HT_ResetIter t) 0 [] fuel) as (t' & Hrun & ?); try done.
  by exists t'.
Qed.
End Traversal.

(** ** VG_(HT_destruct) *)

Lemma destruct_loop_slots (t : VgHashTable) (fuel : nat) (i : N)
    (freed : list addr) :
  length (chain t) = N.to_nat (max_size t) → max_size t < UInt_modulus →
  i ≤ max_size t → (N.to_nat (max_size t) ≤ N.to_nat i + fuel)%nat →
  destruct_loop fuel t i freed
  = OK (freed ++ omap id (drop (N.to_nat i) (chain t))).
Proof.
  intros Hlen Hmax. revert i freed.
  induction fuel as [|fuel IH]; intros i freed Hi Hfuel; simpl;
    destruct (N.leb_spec (max_size t) i) as [Hend|Hin].
  - rewrite drop_ge by lia. by rewrite app_nil_r.
  - lia.
  - rewrite drop_ge by lia. by rewrite app_nil_r.
  - destruct (lookup_lt_is_Some_2 (chain t) (N.to_nat i)) as [c Hc]; [lia |].
    rewrite (proj2 (chain_at_OK _ _ _) Hc). simpl.
    rewrite uint_incr_small by (unfold UInt_modulus in *; lia).
    rewrite IH by lia. rewrite (drop_S _ _ _ Hc).
    replace (N.to_nat (i + 1)) with (S (N.to_nat i)) by lia.
    destruct c as [a|]; simpl; [by rewrite <- app_assoc | done].
Qed.

Lemma HT_destruct_slot_nodes (t : VgHashTable) (h : heap) :
  table_ok t h → HT_destruct t = OK (slot_nodes t).
Proof.
  intros (Hlen & Hprime & _). apply primes_bounds in Hprime as [_ Hmax].
  unfold HT_destruct. rewrite destruct_loop_slots; try done; try lia.
  unfold UInt_modulus. lia.
Qed.

(** ** Insertion as a linear probe *)

Section Probe.
Implicit Types (t : VgHashTable) (h : heap).

Lemma add_probe_finds (fuel : nat) t h (idx idx' : N) :
  idx ≤ idx' → idx' < max_size t →
  (∀ j, idx ≤ j → j < idx' → in_use (chain t) j) →
  chain t !! N.to_nat idx' = Some None →
  (N.to_nat idx' - N.to_nat idx < fuel)%nat →
  add_probe fuel t h idx = OK (t, idx').
Proof.
  revert idx. induction fuel as [|fuel IH]; intros idx Hle Hlt Hused Hfree Hfuel;
    [lia |].
  simpl. destruct (decide (idx = idx')) as [->|Hne].
  - by rewrite (proj2 (chain_at_OK _ _ _) Hfree).
  - destruct (Hused idx) as [b Hb]; [lia | lia |].
    rewrite (proj2 (chain_at_OK _ _ _) Hb). simpl.
    destruct (N.ltb_spec (max_size t - 1) (idx + 1)); [lia |].
    apply IH; try done; try lia. intros j ??. apply Hused; lia.
Qed.
End Probe.

(** ** resize on tables with and without nodes *)

Section ResizeCases.
Implicit Types (t : VgHashTable) (h : heap).

Lemma rehash_empty h t (n : nat) (i : N) (chains : list (option addr)) :
  (∀ q, (N.to_nat i ≤ q)%nat → (q < N.to_nat i + n)%nat →
        chain t !! q = Some None) →
  rehash h t n i chains = OK chains.
Proof.
  revert i. induction n as [|n IH]; intros i Hnull; simpl; [done |].
  rewrite (proj2 (chain_at_OK _ _ _) (Hnull (N.to_nat i) ltac:(lia) ltac:(lia))).
  simpl. apply IH. intros q ??. apply Hnull; lia.
Qed.

Lemma rehash_in_use h t (n : nat) (i : N) (chains : list (option addr)) (p : nat) :
  max_size t ≠ 0 →
  (∀ q a, chain t !! q = Some (Some a) → is_Some (h !! a)) →
  (N.to_nat i + n ≤ length (chain t))%nat →
  Forall (λ c, c = None) chains →
  (N.to_nat i ≤ p)%nat → (p < N.to_nat i + n)%nat → is_Some (chain t !! p ≫= id) →
  rehash h t n i chains = Fault OutOfBounds.
Proof.
  intros Hmax Hheap. revert i.
  induction n as [|n IH]; intros i Hlen Hall Hp1 Hp2 Hp; simpl; [lia |].
  destruct (lookup_lt_is_Some_2 (chain t) (N.to_nat i)) as [c Hc]; [lia |].
  rewrite (proj2 (chain_at_OK _ _ _) Hc). simpl. destruct c as [a|].
  - destruct (Hheap _ _ Hc) as [nd Hnd]. unfold deref. rewrite Hnd. simpl.
    unfold CHAIN_NO. destruct (N.eqb_spec (max_size t) 0); [done |]. simpl.
    rewrite rehash_probe_all_null; [done | by apply Forall_drop].
  - apply IH; try done; try lia.
    destruct (decide (p = N.to_nat i)) as [->|]; [| lia].
    rewrite Hc in Hp. simpl in Hp. by destruct Hp.
Qed.

(** Below the last size, [resize] grows a table that holds no node to
    the next size of the sequence, with a new array of empty slots. *)
Lemma resize_empty t h :
  769 ≤ max_size t → max_size t < 402653189 →
  (∀ q, (q < N.to_nat (max_size t))%nat → chain t !! q = Some None) →
  resize t h
  = OK (set_chain (replicate (N.to_nat (next_size (max_size t + 1))) None)
          (set_max_size (next_size (max_size t + 1)) t)) ∧
  max_size t < next_size (max_size t + 1) ∧
  next_size (max_size t + 1) ∈ primes.
Proof.
  intros Hlo Hhi Hnull.
  destruct (next_size_spec (max_size t + 1)) as [Hin Hle]; [lia |].
  pose proof Hin as [_ Hhi']%primes_bounds.
  split; [| split; [lia | done]].
  unfold resize. rewrite prime_at_first, prime_at_last.
  destruct (N.eqb_spec (max_size t) 402653189); [lia |].
  destruct (N.leb_spec 769 (max_size t)); [| lia].
  destruct (N.ltb_spec (max_size t) 402653189); [| lia]. cbn [andb negb].
  destruct (N.ltb_spec (max_size t) (next_size (max_size t + 1))); [| lia].
  destruct (N.ltb_spec 769 (next_size (max_size t + 1))); [| lia].
  destruct (N.leb_spec (next_size (max_size t + 1)) 402653189); [| lia].
  cbn [andb negb]. rewrite rehash_empty; [done |].
  intros q _ Hq. apply Hnull. simpl. lia.
Qed.

(** Below the last size, [resize] of a table that holds a node ends
    outside the new array. *)
Lemma resize_in_use t h (p : nat) (a : addr) :
  table_ok t h → max_size t ≠ 402653189 →
  chain t !! p = Some (Some a) →
  resize t h = Fault OutOfBounds.
Proof.
  intros (Hlen & Hprime & Hlinks) Hlast Hp.
  pose proof Hprime as [Hlo Hhi]%primes_bounds.
  destruct (next_size_spec (max_size t + 1)) as [Hin Hle]; [lia |].
  pose proof Hin as [_ Hhi']%primes_bounds.
  unfold resize. rewrite prime_at_first, prime_at_last.
  destruct (N.eqb_spec (max_size t) 402653189); [done |].
  destruct (N.leb_spec 769 (max_size t)); [| lia].
  destruct (N.ltb_spec (max_size t) 402653189); [| lia]. cbn [andb negb].
  destruct (N.ltb_spec (max_size t) (next_size (max_size t + 1))); [| lia].
  destruct (N.ltb_spec 769 (next_size (max_size t + 1))); [| lia].
  destruct (N.leb_spec (next_size (max_size t + 1)) 402653189); [| lia].
  cbn [andb negb].
  rewrite (rehash_in_use _ _ _ _ _ p); [done | simpl; lia | | | | | |].
  - intros q b Hq. destruct (Hlinks q b Hq) as (nd & -> & _). by eexists.
  - simpl. lia.
  - apply Forall_forall. by intros c [-> _]%elem_of_replicate.
  - lia.
  - apply lookup_lt_Some in Hp. simpl. lia.
  - simpl. rewrite Hp. by eexists.
Qed.
End ResizeCases.

(** ** What an insertion does *)

Section Insertion.
Implicit Types (t : VgHashTable) (h : heap).

(** When the probe meets no free slot up to the end of the array, the
    insertion ends out of bounds: inside [resize] below the last size,
    at [chain[max_size]] once the last size is reached. *)
Lemma add_probe_full (fuel : nat) t h (idx : N) :
  table_ok t h → idx < max_size t →
  (∀ j, idx ≤ j → j < max_size t → in_use (chain t) j) →
  (N.to_nat (max_size t) - N.to_nat idx < fuel)%nat →
  add_probe fuel t h idx = Fault OutOfBounds.
Proof.
  intros Hok. pose proof Hok as (Hlen & _ & _). revert idx.
  induction fuel as [|fuel IH]; intros idx Hidx Hused Hfuel; [lia |].
  simpl. destruct (Hused idx) as [b Hb]; [lia | lia |].
  rewrite (proj2 (chain_at_OK _ _ _) Hb). simpl.
  destruct (N.ltb_spec (max_size t - 1) (idx + 1)) as [Hend|Hin].
  - destruct (decide (max_size t = 402653189)) as [Hlast|Hlast].
    + rewrite resize_at_last by done. simpl.
      destruct fuel as [|fuel]; [lia |]. simpl.
      unfold chain_at. rewrite lookup_ge_None_2 by lia. done.
    + by rewrite (resize_in_use t h _ b Hok Hlast Hb).
  - apply IH; [lia | | lia]. intros j ??. apply Hused; lia.
Qed.

Lemma HT_add_node_first_free t h (node : addr) (nd : VgHashNode) (idx' : N) :
  length (chain t) = N.to_nat (max_size t) → max_size t ≠ 0 →
  h !! node = Some nd →
  key nd mod max_size t ≤ idx' → idx' < max_size t →
  (∀ j, key nd mod max_size t ≤ j → j < idx' → in_use (chain t) j) →
  chain t !! N.to_nat idx' = Some None →
  HT_add_node t h node
  = OK (set_iterOK false
          (set_n_elements (uint_incr (n_elements t))
             (set_chain (<[N.to_nat idx' := Some node]> (chain t)) t)),
        <[node := mkNode (key nd) None]> h).
Proof.
  intros Hlen Hmax Hnd Hle Hlt Hused Hfree.
  unfold HT_add_node, deref, CHAIN_NO. rewrite Hnd. cbn [mbind result_bind].
  destruct (N.eqb_spec (max_size t) 0); [done |]. cbn [mbind result_bind].
  rewrite (add_probe_finds _ t h _ idx'); try done.
  - cbn [mbind result_bind]. unfold chain_store.
    rewrite decide_True by lia. done.
  - unfold add_fuel. clear Hle Hused.
    generalize (key nd mod max_size t). intros. lia.
Qed.

Lemma HT_add_node_full t h (node : addr) (nd : VgHashNode) :
  table_ok t h → h !! node = Some nd →
  (∀ j, key nd mod max_size t ≤ j → j < max_size t → in_use (chain t) j) →
  HT_add_node t h node = Fault OutOfBounds.
Proof.
  intros Hok Hnd Hused. pose proof Hok as (Hlen & [Hlo _]%primes_bounds & _).
  unfold HT_add_node, deref, CHAIN_NO. rewrite Hnd. cbn [mbind result_bind].
  destruct (N.eqb_spec (max_size t) 0); [lia |]. cbn [mbind result_bind].
  rewrite add_probe_full; try done.
  - apply N.mod_lt. lia.
  - unfold add_fuel. clear Hused.
    generalize (key nd mod max_size t). intros. lia.
Qed.

Lemma omap_insert_free (l : list (option addr)) (i : nat) (a : addr) :
  l !! i = Some None → omap id (<[i := Some a]> l) ≡ₚ a :: omap id l.
Proof.
  revert i. induction l as [|x l IH]; intros [|i] Hi; simpl in *; try done.
  - by simplify_eq.
  - destruct x as [b|]; simpl.
    + rewrite (IH i Hi). apply Permutation_swap.
    + by apply IH.
Qed.

(** A completed insertion adds the node to the slots and nothing
    else. *)
Lemma add_node_slot_nodes t h (node : addr) t' h' :
  length (chain t) = N.to_nat (max_size t) →
  HT_add_node t h node = OK (t', h') →
  slot_nodes t' ≡ₚ node :: slot_nodes t ∧
  n_elements t' = uint_incr (n_elements t).
Proof.
  intros Hlen H.
  apply HT_add_node_OK in H as (nd & t1 & idx & Hnd & Hprobe & -> & _).
  assert (max_size t ≠ 0) as Hmax.
  { intros Hz. rewrite Hz in Hlen. destruct (chain t) eqn:E; [| done].
    unfold add_fuel in Hprobe. rewrite E in Hprobe. simpl in Hprobe.
    by rewrite E in Hprobe. }
  apply add_probe_linear in Hprobe as (-> & _ & _ & Hfree & _);
    [| done | by apply N.mod_lt].
  split; [| done]. unfold slot_nodes. cbn [chain set_iterOK set_n_elements set_chain].
  by apply omap_insert_free.
Qed.
End Insertion.

(** ** What a lookup answers *)

Section Lookup.
Implicit Types (t : VgHashTable) (h : heap).

(** The loop reads nothing of the table but its size and its slots. *)
Lemma lookup_loop_congr (hit hit' : addr → VgHashNode → bool) h t t'
    (n : nat) (idx : N) (curr : option addr) :
  max_size t' = max_size t → chain t' = chain t →
  (∀ a nd, hit a nd = hit' a nd) →
  lookup_loop hit h t n idx curr = lookup_loop hit' h t' n idx curr.
Proof.
  intros Hm Hc Hhit. revert idx curr.
  induction n as [|n IH]; intros idx [a|]; simpl; try done.
  - destruct (deref h (Some a)) as [nd| |]; simpl; try done.
    by rewrite Hhit, Hm.
  - destruct (deref h (Some a)) as [nd| |]; simpl; try done.
    rewrite Hhit, Hm, Hc. destruct (hit' a nd); [done |].
    destruct (max_size t <=? idx + 1); [done |].
    destruct (chain_at (chain t) (idx + 1)) as [c| |]; simpl; try done.
Qed.

(** A node the loop answers with sits in a slot at or after the one
    the loop started from, and passes the test. *)
Lemma lookup_loop_stored (hit : addr → VgHashNode → bool) h t (n : nat)
    (idx : N) (curr : option addr) (a : addr) :
  idx < max_size t →
  (∀ b, curr = Some b → chain t !! N.to_nat idx = Some (Some b)) →
  lookup_loop hit h t n idx curr = OK (Some a) →
  ∃ j nd, idx ≤ j ∧ j < max_size t ∧ chain t !! N.to_nat j = Some (Some a) ∧
          h !! a = Some nd ∧ hit a nd = true.
Proof.
  revert idx curr.
  induction n as [|n IH]; intros idx [b|] Hidx Hcurr H; simpl in H;
    try discriminate.
  - bind_inv H. apply deref_OK in Hl as (? & [= <-] & Hnd).
    destruct (hit b x) eqn:Hhit.
    + injection H as <-. exists idx, x.
      split_and!; [lia | done | by apply Hcurr | done | done].
    + by destruct (max_size t <=? idx + 1).
  - bind_inv H. apply deref_OK in Hl as (? & [= <-] & Hnd).
    destruct (hit b x) eqn:Hhit.
    + injection H as <-. exists idx, x.
      split_and!; [lia | done | by apply Hcurr | done | done].
    + destruct (N.leb_spec (max_size t) (idx + 1)); [done |].
      bind_inv H. apply chain_at_OK in Hl.
      apply IH in H as (j & nd & ? & ? & ? & ? & ?); [| lia |].
      * exists j, nd. split_and!; try done. lia.
      * by intros c ->.
Qed.

(** The loop finds a node when the slots from where it starts up to
    one that passes the test are all in use, by records of the heap. *)
Lemma lookup_loop_finds (hit : addr → VgHashNode → bool) h t (n : nat)
    (idx idx' : N) (b a : addr) (nda : VgHashNode) :
  (∀ j, idx ≤ j → j ≤ idx' →
        ∃ c, chain t !! N.to_nat j = Some (Some c) ∧ is_Some (h !! c)) →
  chain t !! N.to_nat idx = Some (Some b) →
  chain t !! N.to_nat idx' = Some (Some a) →
  h !! a = Some nda → hit a nda = true →
  idx ≤ idx' → idx' < max_size t →
  (N.to_nat idx' - N.to_nat idx ≤ n)%nat →
  ∃ a', lookup_loop hit h t n idx (Some b) = OK (Some a').
Proof.
  intros Hrun Hb Ha Hnda Hhit. revert idx b Hrun Hb.
  assert (∀ n idx b,
            (∀ j, idx ≤ j → j ≤ idx' →
               ∃ c, chain t !! N.to_nat j = Some (Some c) ∧ is_Some (h !! c)) →
            chain t !! N.to_nat idx = Some (Some b) →
            idx ≤ idx' → idx' < max_size t →
            (N.to_nat idx' - N.to_nat idx ≤ n)%nat →
            ∃ a', lookup_loop hit h t n idx (Some b) = OK (Some a')) as Hgen;
    [| intros; by eapply Hgen].
  clear n. intros n. induction n as [|n IH]; intros idx b Hrun Hb Hle Hlt Hn.
  - assert (idx = idx') as -> by lia. simplify_eq. simpl.
    unfold deref. rewrite Hnda. simpl. rewrite Hhit. by eexists.
  - destruct (Hrun idx) as (c & Hc & [nd Hnd]); [lia | lia |]. simplify_eq.
    simpl. unfold deref. rewrite Hnd. simpl.
    destruct (hit b nd) eqn:Hhitb; [by eexists |].
    assert (idx ≠ idx') as Hne by (intros ->; congruence).
    destruct (N.leb_spec (max_size t) (idx + 1)); [lia |].
    destruct (Hrun (idx + 1)) as (c & Hc' & _); [lia | lia |].
    rewrite (proj2 (chain_at_OK _ _ _) Hc'). simpl.
    apply IH; try done; try lia. intros j ??. apply Hrun; lia.
Qed.

(** A lookup by key answers only with a node that sits in a slot at or
    after slot [k mod max_size] and has the key [k]. *)
Lemma HT_lookup_stored t h (k : N) (a : addr) :
  HT_lookup t h k = OK (Some a) →
  ∃ j nd, k mod max_size t ≤ j ∧ j < max_size t ∧
          chain t !! N.to_nat j = Some (Some a) ∧
          h !! a = Some nd ∧ key nd = k.
Proof.
  unfold HT_lookup. intros H. bind_inv H. bind_inv H.
  apply CHAIN_NO_OK in Hl as (Hmax & -> & Hlt). apply chain_at_OK in Hl0.
  apply lookup_loop_stored in H as (j & nd & ? & ? & ? & ? & Hk%N.eqb_eq);
    [| done | by intros b ->].
  by exists j, nd.
Qed.
End Lookup.

Section LookupAfterAdd.
Implicit Types (t : VgHashTable) (h : heap).

Lemma lookup_after_add t h (node : addr) t' h' :
  table_ok t h → HT_add_node t h node = OK (t', h') →
  ∃ nd a nd',
    h !! node = Some nd ∧
    HT_lookup t' h' (key nd) = OK (Some a) ∧
    h' !! a = Some nd' ∧ key nd' = key nd ∧
    ((∀ j b nb, chain t !! j = Some (Some b) → h !! b = Some nb →
                key nb ≠ key nd) → a = node).
Proof.
  intros Hok H. pose proof (add_node_ok _ _ _ _ _ Hok H) as Hok'.
  pose proof Hok as (Hlen & [Hlo _]%primes_bounds & Hlinks).
  pose proof Hok' as (_ & _ & Hlinks').
  apply HT_add_node_OK in H as (nd & t1 & idx' & Hnd & Hprobe & -> & ->).
  apply add_probe_linear in Hprobe as (-> & Hle & Hlt & Hfree & Hused);
    [| done | apply N.mod_lt; lia].
  set (t' := set_iterOK false _) in *.
  set (h' := <[node := _]> h) in *.
  set (idx0 := key nd mod max_size t) in *.
  assert (chain t' !! N.to_nat idx' = Some (Some node)) as Hnode.
  { cbn. apply list_lookup_insert_eq. lia. }
  assert (∀ j, idx0 ≤ j → j ≤ idx' →
            ∃ c, chain t' !! N.to_nat j = Some (Some c) ∧ is_Some (h' !! c))
    as Hrun.
  { intros j Hj1 Hj2. destruct (decide (j = idx')) as [->|Hne].
    - exists node. split; [done |]. unfold h'. rewrite lookup_insert_eq.
      by eexists.
    - destruct (Hused j) as [c Hc]; [lia | lia |]. exists c.
      assert (chain t' !! N.to_nat j = Some (Some c)) as Hc'.
      { cbn. rewrite list_lookup_insert_ne by lia. done. }
      split; [done |]. destruct (Hlinks' _ _ Hc') as (? & -> & _). by eexists. }
  destruct (Hrun idx0) as (b & Hb & _); [lia | lia |].
  destruct (lookup_loop_finds (λ _ nd0, key nd =? key nd0) h' t'
              (N.to_nat (max_size t')) idx0 idx' b node (mkNode (key nd) None))
    as [a Ha]; try done.
  { unfold h'. by rewrite lookup_insert_eq. }
  { simpl. apply N.eqb_refl. }
  { cbn. lia. }
  assert (HT_lookup t' h' (key nd) = OK (Some a)) as Hlookup.
  { unfold HT_lookup, CHAIN_NO. cbn [max_size t' set_iterOK set_n_elements set_chain].
    destruct (N.eqb_spec (max_size t) 0); [lia |]. cbn [mbind result_bind].
    fold idx0. rewrite (proj2 (chain_at_OK _ _ _) Hb). exact Ha. }
  apply lookup_loop_stored in Ha as (j & nda & Hj1 & Hj2 & Hj & Hnda & Hk%N.eqb_eq);
    [| cbn; apply N.mod_lt; lia | by intros c [= <-]].
  exists nd, a, nda. split_and!; try done.
  intros Hfresh. destruct (decide (a = node)) as [|Hne]; [done |]. exfalso.
  assert (N.to_nat j ≠ N.to_nat idx') as Hji.
  { intros Heq. rewrite Heq in Hj. congruence. }
  cbn in Hj. rewrite list_lookup_insert_ne in Hj by done.
  unfold h' in Hnda. rewrite lookup_insert_ne in Hnda by done.
  by apply (Hfresh _ _ _ Hj Hnda).
Qed.
End LookupAfterAdd.

(** ** What a removal does and does not do *)

Section Removal.
Implicit Types (t : VgHashTable) (h : heap).

Lemma remove_rescan_Some (arr : list (option addr)) (n : nat) (i : N)
    (curr : option addr) (a : addr) :
  remove_rescan arr n i curr = OK (Some a) →
  (n = 0%nat ∧ curr = Some a) ∨
  ∃ p, (N.to_nat i ≤ p)%nat ∧ arr !! p = Some (Some a) ∧
       ∀ q, (N.to_nat i ≤ q)%nat → (q < p)%nat → arr !! q = Some None.
Proof.
  revert i curr. induction n as [|n IH]; intros i curr H; simpl in H.
  - left. split; [done | congruence].
  - right. bind_inv H. apply chain_at_OK in Hl. destruct x as [b|].
    + injection H as <-. exists (N.to_nat i). split_and!; [lia | done | lia].
    + apply IH in H as [[_ [=]]|(p & Hp & Ha & Hnull)].
      exists p. split_and!; [lia | done |].
      intros q ??. destruct (decide (q = N.to_nat i)) as [->|]; [done |].
      apply Hnull; lia.
Qed.

Lemma remove_loop_first h t (k : N) (n : nat) (j : N) (curr : option addr)
    t' (a : addr) :
  remove_loop h t k n j curr = OK (t', Some a) →
  curr = Some a ∨ first_in_use (chain t) a.
Proof.
  revert j curr. induction n as [|n IH]; intros j curr H; simpl in H;
    [done |].
  bind_inv H. destruct (k =? key x).
  - injection H as <- <-. by left.
  - bind_inv H. apply IH in H as [->|H]; [| by right].
    apply remove_rescan_Some in Hl0 as [[_ ->]|(p & _ & Hp & Hnull)];
      [by left | right].
    exists p. split; [done |]. intros q Hq. apply Hnull; lia.
Qed.

(** A removal by key only ever answers with the node in slot
    [k mod max_size] or with the node in the first slot in use. *)
Lemma HT_remove_which t h (k : N) t' (a : addr) :
  HT_remove t h k = OK (t', Some a) →
  chain t !! N.to_nat (k mod max_size t) = Some (Some a) ∨
  first_in_use (chain t) a.
Proof.
  unfold HT_remove. intros H. bind_inv H. bind_inv H.
  apply CHAIN_NO_OK in Hl as (_ & -> & _). apply chain_at_OK in Hl0.
  apply remove_loop_first in H as [->|H]; [by left | by right].
Qed.

(** The home slot of the key is empty: not-found if the count is 0, a
    read through NULL otherwise. *)
Lemma HT_remove_home_empty t h (k : N) :
  max_size t ≠ 0 →
  chain t !! N.to_nat (k mod max_size t) = Some None →
  HT_remove t h k
  = if n_elements t =? 0 then OK (set_iterOK false t, None)
    else Fault NullDeref.
Proof.
  intros Hmax Hhome. unfold HT_remove, CHAIN_NO.
  destruct (N.eqb_spec (max_size t) 0); [done |]. cbn [mbind result_bind].
  rewrite (proj2 (chain_at_OK _ _ _) Hhome). cbn [mbind result_bind].
  cbn [n_elements set_iterOK].
  destruct (N.eqb_spec (n_elements t) 0) as [->|Hn]; [done |].
  destruct (N.to_nat (n_elements t)) eqn:E; [lia | done].
Qed.

(** No removal changes what a lookup answers. *)
Lemma HT_lookup_same_slots t t' h (k : N) :
  max_size t' = max_size t → chain t' = chain t →
  HT_lookup t' h k = HT_lookup t h k.
Proof.
  intros Hm Hc. unfold HT_lookup, CHAIN_NO. rewrite Hm, Hc.
  destruct (max_size t =? 0); [done |]. cbn [mbind result_bind].
  destruct (chain_at (chain t) (k mod max_size t)) as [c| |]; try done.
  cbn [mbind result_bind]. by apply lookup_loop_congr.
Qed.
End Removal.

(** ** The generic lookup *)

Section GenLookup.
Implicit Types (t : VgHashTable) (h : heap).

Lemma HT_gen_lookup_stored t h (node : addr) (cmp : HT_Cmp_t) (a : addr) :
  HT_gen_lookup t h node cmp = OK (Some a) →
  ∃ hnode j nd,
    h !! node = Some hnode ∧
    key hnode mod max_size t ≤ j ∧ j < max_size t ∧
    chain t !! N.to_nat j = Some (Some a) ∧
    h !! a = Some nd ∧ key nd = key hnode ∧ cmp node a = 0%Z.
Proof.
  unfold HT_gen_lookup. destruct (max_size t =? 0); [done |].
  intros H. bind_inv H. apply deref_OK in Hl as (? & [= <-] & Hnode).
  bind_inv H. apply CHAIN_NO_OK in Hl as (Hmax & -> & Hlt).
  bind_inv H. apply chain_at_OK in Hl.
  apply lookup_loop_stored in H
    as (j & nd & ? & ? & ? & ? & [Hk%N.eqb_eq Hc%Z.eqb_eq]%andb_true_iff);
    [| done | by intros b ->].
  by exists x, j, nd.
Qed.

Lemma HT_gen_lookup_accept_all t h (node : addr) (hnode : VgHashNode) :
  h !! node = Some hnode → max_size t ≠ 0 →
  HT_gen_lookup t h node (λ _ _, 0%Z) = HT_lookup t h (key hnode).
Proof.
  intros Hnode Hmax. unfold HT_gen_lookup, HT_lookup, deref.
  destruct (N.eqb_spec (max_size t) 0); [done |].
  rewrite Hnode. cbn [mbind result_bind].
  destruct (CHAIN_NO (key hnode) t) as [idx| |]; try done.
  cbn [mbind result_bind].
  destruct (chain_at (chain t) idx) as [c| |]; try done.
  cbn [mbind result_bind]. apply lookup_loop_congr; try done.
  intros a nd. simpl. apply andb_true_r.
Qed.
End GenLookup.

(** ** The length of the exported array *)

Section ToArray.
Implicit Types (t : VgHashTable) (h : heap).

Lemma to_array_chain_length h (room : nat) (node : option addr) (i : N)
    (arr : list addr) (room' : nat) (i' : N) (arr' : list addr) :
  to_array_chain h room node i arr = OK (room', i', arr') →
  (length arr' + room' = length arr + room)%nat.
Proof.
  revert node i arr. induction room as [|room IH]; intros [a|] i arr H;
    simpl in H; try discriminate.
  - apply OK_inj in H. by simplify_eq.
  - bind_inv H. apply IH in H. rewrite length_app in H. simpl in H. lia.
  - apply OK_inj in H. by simplify_eq.
Qed.

Lemma to_array_loop_length (fuel : nat) h t (room : nat) (i : N)
    (arr arr' : list addr) :
  to_array_loop fuel h t room i arr = OK arr' →
  (length arr' = length arr + room)%nat.
Proof.
  revert room i arr. induction fuel as [|fuel IH]; intros room i arr H;
    simpl in H; destruct (max_size t <=? i).
  - destruct room; [| done]. apply OK_inj in H. subst. lia.
  - done.
  - destruct room; [| done]. apply OK_inj in H. subst. lia.
  - bind_inv H. bind_inv H. destruct x0 as [[room' i'] arr1]. simpl in H.
    apply to_array_chain_length in Hl0. apply IH in H. lia.
Qed.

(** When the export hands back an array, the array has [count()]
    entries; it hands back NULL exactly for a count of 0. *)
Lemma HT_to_array_length t h (arr : option (list addr)) (n : N) :
  HT_to_array t h = OK (arr, n) →
  n = HT_count_nodes t ∧
  match arr with
  | Some l => N.of_nat (length l) = n ∧ n ≠ 0
  | None => n = 0
  end.
Proof.
  unfold HT_to_array, HT_count_nodes.
  destruct (N.eqb_spec (n_elements t) 0) as [Hz|Hnz].
  - intros H. apply OK_inj in H. by simplify_eq.
  - intros H. bind_inv H. apply OK_inj in H. simplify_eq.
    apply to_array_loop_length in Hl. simpl in Hl. split; [done |].
    split; [lia | done].
Qed.
End ToArray.

(** ** The cursor in reachable states *)

Section Cursor.
Implicit Types (t : VgHashTable) (h : heap).

(** In the states of [reachable] the node under the cursor has no
    successor and the cursor is within the array. *)
Lemma reachable_cursor t h :
  reachable t h →
  (∀ b, iterNode t = Some b → ∃ nd, h !! b = Some nd ∧ next nd = None) ∧
  iterChain t ≤ max_size t.
Proof.
  induction 1 as [nm t h H|t h a nd Hr IH Hfresh|t h t' h' Hr IH Hcall].
  - unfold HT_construct in H. destruct nm as [s|]; [| done].
    apply OK_inj in H. subst t. cbn. split; [done | lia].
  - destruct IH as [Hnode Hc]. split; [| done].
    intros b Hb. destruct (Hnode b Hb) as (nb & Hnb & ?). exists nb.
    split; [| done]. rewrite lookup_insert_ne; [done | congruence].
  - destruct IH as [Hnode Hc]. pose proof (reachable_ok _ _ Hr) as Hok.
    destruct Hcall as [t h node t' h' H|t h k t' r H|fuel t h node cmp t' r H
                      |t h|t h t' r H|t h t' H].
    + apply HT_add_node_OK in H as (nd & t1 & idx & Hnd & Hprobe & -> & ->).
      apply add_probe_OK in Hprobe as [(Hle & _ & _ & _ & _ & HiN & HiC & _) _].
      cbn. rewrite HiN, HiC. split; [| lia].
      intros b Hb. destruct (decide (b = node)) as [->|Hne].
      * rewrite lookup_insert_eq. by eexists.
      * rewrite lookup_insert_ne by done. by apply Hnode.
    + by apply HT_remove_OK in H as [[-> _]|[-> _]].
    + by apply HT_gen_remove_OK in H as [[-> _]|[-> _]].
    + cbn. split; [done | lia].
    + destruct Hok as (Hlen & Hprime & Hlinks).
      unfold HT_Next in H. destruct (iterOK t); [| done]. cbn [negb] in H.
      bind_inv H. destruct x as [b|].
      { destruct (iterNode t) as [c|] eqn:Ec; [| done].
        bind_inv Hl. apply deref_OK in Hll as (? & [= <-] & Hx).
        destruct (Hnode c eq_refl) as (nc & Hnc & Hnext). congruence. }
      destruct (2 ^ 31 <=? iterChain t).
      { apply OK_inj in H. by simplify_eq. }
      bind_inv H. destruct x as [[j a]|].
      * apply OK_inj in H. simplify_eq. cbn.
        apply next_scan_Some in Hl0 as (? & ? & Hj & _).
        split; [| lia]. intros b [= <-]. by eapply Hlinks.
      * apply OK_inj in H. by simplify_eq.
    + apply HT_remove_at_Iter_OK in H as [_ ->]. cbn. split; [done | lia].
Qed.

(** After remove-current the next advance answers what it would have
    answered without the removal, and leaves the cursor where it would
    have been, provided the node under the cursor has no successor in
    its chain. *)
Lemma Next_after_remove_at_Iter t h t1 :
  table_ok t h →
  (∀ b, iterNode t = Some b → ∃ nd, h !! b = Some nd ∧ next nd = None) →
  iterChain t ≤ max_size t →
  HT_remove_at_Iter t = OK t1 →
  ∃ r t2 t3,
    HT_Next t h = OK (t2, r) ∧ HT_Next t1 h = OK (t3, r) ∧
    iterChain t3 = iterChain t2 ∧ chain t3 = chain t ∧
    n_elements t3 = uint_decr (n_elements t).
Proof.
  intros Hok Hnode Hc H.
  apply HT_remove_at_Iter_OK in H as [Hiter ->].
  set (t1 := set_n_elements _ _).
  assert (table_ok t1 h) as Hok1 by done.
  assert (cursor_at t h (iterChain t)) as Hcur by done.
  assert (cursor_at t1 h (iterChain t)) as Hcur1 by done.
  destruct (HT_Next_from_cursor t h _ Hok Hcur Hc)
    as [[HN Hnull]|(j & a & HN & Hcj & Hjm & Hj & Hnull)];
    destruct (HT_Next_from_cursor t1 h _ Hok1 Hcur1 Hc)
      as [[HN1 Hnull1]|(j1 & a1 & HN1 & Hcj1 & Hjm1 & Hj1 & Hnull1)].
  - exists None, t, t1. by rewrite HN, HN1.
  - cbn in Hj1. rewrite Hnull in Hj1; [done | lia |].
    apply lookup_lt_Some in Hj1. done.
  - cbn in Hnull1. rewrite Hnull1 in Hj; [done | lia |].
    by apply lookup_lt_Some in Hj.
  - cbn in Hj1, Hnull1.
    assert (j1 = j) as ->.
    { destruct (N.lt_trichotomy j1 j) as [Hlt|[->|Hlt]]; [| done |].
      - rewrite Hnull in Hj1; [done | lia | lia].
      - rewrite Hnull1 in Hj; [done | lia | lia]. }
    assert (a1 = a) as -> by congruence.
    eexists (Some a), _, _. by rewrite HN, HN1.
Qed.
End Cursor.

(** ** A new table *)

Section Construct.
Implicit Types (t : VgHashTable) (h : heap).

Lemma HT_construct_OK (nm : option string) t :
  HT_construct nm = OK t →
  ∃ s, nm = Some s ∧
       t = mkTable 769 0 None 0 true (replicate (N.to_nat 769) None) s.
Proof.
  unfold HT_construct. destruct nm as [s|]; [| done].
  intros <-%OK_inj. by exists s.
Qed.

Lemma construct_slots_empty (nm : option string) t (q : nat) :
  HT_construct nm = OK t → (q < 769)%nat → chain t !! q = Some None.
Proof.
  intros (s & _ & ->)%HT_construct_OK Hq. cbn [chain].
  apply lookup_replicate_2. lia.
Qed.

Lemma construct_empty (nm : option string) t h :
  HT_construct nm = OK t →
  HT_count_nodes t = 0 ∧
  (∀ k, HT_lookup t h k = OK None) ∧
  (∀ k, HT_remove t h k = OK (set_iterOK false t, None)) ∧
  HT_to_array t h = OK (None, 0) ∧
  HT_Next t h = OK (t, None) ∧
  HT_destruct t = OK [].
Proof.
  intros H. pose proof (construct_ok _ _ h H) as Hok.
  pose proof (λ q, construct_slots_empty nm t q H) as Hnull.
  pose proof H as (s & _ & Ht)%HT_construct_OK.
  assert (max_size t = 769) as Hm by (by subst).
  assert (n_elements t = 0) as Hn by (by subst).
  assert (∀ k, chain t !! N.to_nat (k mod max_size t) = Some None) as Hhome.
  { intros k. apply Hnull. rewrite Hm.
    pose proof (N.mod_lt k 769 ltac:(lia)). lia. }
  split_and!.
  - done.
  - intros k. unfold HT_lookup, CHAIN_NO. rewrite Hm. cbn [N.eqb mbind result_bind].
    rewrite <- Hm at 1. rewrite (proj2 (chain_at_OK _ _ _) (Hhome k)).
    cbn [mbind result_bind]. by destruct (N.to_nat 769).
  - intros k. rewrite HT_remove_home_empty by (done || lia). by rewrite Hn.
  - unfold HT_to_array. by rewrite Hn.
  - assert (cursor_at t h 0) as Hcur by (by subst).
    destruct (HT_Next_from_cursor t h 0 Hok Hcur ltac:(lia))
      as [[HN _]|(j & a & _ & _ & Hj & Ha & _)]; [done |].
    rewrite Hnull in Ha; [done | lia].
  - rewrite (HT_destruct_slot_nodes t h Hok). unfold slot_nodes.
    rewrite omap_all_null; [done |]. apply Forall_lookup. intros i x Hi.
    pose proof (lookup_lt_Some _ _ _ Hi) as Hlt.
    destruct Hok as (Hlen & _). rewrite Hnull in Hi by lia. congruence.
Qed.
End Construct.

(** ** Tables built by insertions alone *)

Section InsertsOnly.
Implicit Types (t : VgHashTable) (h : heap).

Lemma length_slot_nodes t : (length (slot_nodes t) ≤ length (chain t))%nat.
Proof.
  unfold slot_nodes. induction (chain t) as [|[a|] l IH]; cbn in *; lia.
Qed.

Lemma add_nodes_slot_nodes (nodes : list addr) t h t' h' :
  table_ok t h → n_elements t = N.of_nat (length (slot_nodes t)) →
  add_nodes nodes t h = OK (t', h') →
  table_ok t' h' ∧ max_size t' = max_size t ∧
  slot_nodes t' ≡ₚ nodes ++ slot_nodes t ∧
  n_elements t' = N.of_nat (length (slot_nodes t')).
Proof.
  revert t h. induction nodes as [|node nodes IH]; intros t h Hok Hn H;
    simpl in H.
  - apply OK_inj in H. by simplify_eq.
  - bind_inv H. destruct x as [t1 h1]. simpl in H.
    pose proof (add_node_ok _ _ _ _ _ Hok Hl) as Hok1.
    pose proof Hok as (Hlen & _). pose proof Hok1 as (Hlen1 & Hprime1 & _).
    pose proof (add_node_keeps_size _ _ _ _ _ Hlen Hl) as Hm.
    destruct (add_node_slot_nodes _ _ _ _ _ Hlen Hl) as [Hperm Hn1].
    apply primes_bounds in Hprime1 as [_ Hhi].
    assert (n_elements t1 = N.of_nat (length (slot_nodes t1))) as Hn1'.
    { rewrite Hn1, Hn. pose proof (length_slot_nodes t1) as Hle.
      rewrite Hperm in Hle |- *. simpl in *.
      rewrite uint_incr_small; [lia |]. unfold UInt_modulus. lia. }
    destruct (IH _ _ Hok1 Hn1' H) as (? & ? & Hperm' & ?).
    split_and!; [done | congruence | | done].
    rewrite Hperm', Hperm. simpl. by rewrite <- Permutation_middle.
Qed.

(** After insertions into a new table, the slots hold the inserted
    nodes and nothing else, [count()] is their number, and a traversal
    visits exactly them. *)
Lemma inserted_nodes (nm : option string) (nodes : list addr) t0 h0 t h
    (fuel : nat) :
  HT_construct nm = OK t0 → add_nodes nodes t0 h0 = OK (t, h) →
  (769 < fuel)%nat →
  HT_count_nodes t = N.of_nat (length nodes) ∧
  ∃ t' seen, traverse fuel t h = OK (t', seen) ∧ seen ≡ₚ nodes.
Proof.
  intros Hc Hadd Hfuel. pose proof (construct_ok _ _ h0 Hc) as Hok0.
  assert (slot_nodes t0 = []) as Hempty.
  { unfold slot_nodes. apply omap_all_null, Forall_lookup. intros i x Hi.
    pose proof (lookup_lt_Some _ _ _ Hi) as Hlt.
    apply HT_construct_OK in Hc as (s & _ & ->). cbn in *.
    by apply lookup_replicate in Hi as [-> _]. }
  assert (max_size t0 = 769) as Hm0.
  { by apply HT_construct_OK in Hc as (s & _ & ->). }
  destruct (add_nodes_slot_nodes nodes t0 h0 t h) as (Hok & Hm & Hperm & Hn);
    [done | | done |].
  { rewrite Hempty. by apply HT_construct_OK in Hc as (s & _ & ->). }
  rewrite Hempty, app_nil_r in Hperm. split.
  - unfold HT_count_nodes. by rewrite Hn, Hperm.
  - destruct (traverse_slot_nodes t h fuel Hok) as (t' & Hrun & _).
    { destruct Hok as (-> & _). lia. }
    by exists t', (slot_nodes t).
Qed.
End InsertsOnly.

(** ** What stays after a removal *)

Section AfterRemoval.
Implicit Types (t : VgHashTable) (h : heap).

Lemma first_in_use_stored (arr : list (option addr)) (a : addr) :
  first_in_use arr a → a ∈ omap id arr.
Proof.
  intros (p & Hp & _). apply list_elem_of_omap. exists (Some a).
  split; [| done]. apply list_elem_of_lookup. by exists p.
Qed.

(** A node that a removal by key has answered with is still in its
    slot: every lookup answers as before, a traversal still visits it,
    and the teardown still hands it to the finalizer. *)
Lemma removed_node_stays t h (k : N) t' (a : addr) :
  table_ok t h → HT_remove t h k = OK (t', Some a) →
  chain t' = chain t ∧ a ∈ slot_nodes t' ∧
  (∀ k', HT_lookup t' h k' = HT_lookup t h k') ∧
  HT_destruct t' = OK (slot_nodes t') ∧
  HT_count_nodes t' = uint_decr (HT_count_nodes t).
Proof.
  intros Hok H. pose proof (HT_remove_which _ _ _ _ _ H) as Hwhich.
  apply HT_remove_OK in H as [[_ [=]]|[-> _]].
  split_and!.
  - done.
  - unfold slot_nodes. cbn. destruct Hwhich as [Hhome|Hfirst].
    + apply list_elem_of_omap. exists (Some a). split; [| done].
      apply list_elem_of_lookup. by eexists.
    + by apply first_in_use_stored.
  - intros k'. by apply HT_lookup_same_slots.
  - by apply (HT_destruct_slot_nodes _ h).
  - done.
Qed.

(** No call but an insertion changes what a lookup answers. *)
Lemma call_keeps_lookups t h t' h' :
  call t h t' h' →
  (∃ node, HT_add_node t h node = OK (t', h')) ∨
  (slot_nodes t' = slot_nodes t ∧
   ∀ k, HT_lookup t' h' k = HT_lookup t h k).
Proof.
  intros [H|(Hm & Hc & ->)]%call_slots; [by left | right].
  split; [unfold slot_nodes; by rewrite Hc |].
  intros k. by apply HT_lookup_same_slots.
Qed.
End AfterRemoval.

(** ** Further facts about reachable states *)

Lemma reachable_max_size (t : VgHashTable) (h : heap) :
  reachable t h → max_size t = 769.
Proof.
  induction 1 as [nm t h H|t h a nd _ IH _|t h t' h' Hr IH Hcall]; [| done |].
  - by apply HT_construct_OK in H as (s & _ & ->).
  - pose proof (reachable_ok _ _ Hr) as (Hlen & _).
    apply call_slots in Hcall as [[node H]|(-> & _)]; [| done].
    by rewrite (add_node_keeps_size _ _ _ _ _ Hlen H).
Qed.

Lemma remove_rescan_first (arr : list (option addr)) (n : nat) (i : N)
    (curr : option addr) (p : nat) (b : addr) :
  (N.to_nat i ≤ p)%nat → (p < N.to_nat i + n)%nat →
  (∀ q, (N.to_nat i ≤ q)%nat → (q < p)%nat → arr !! q = Some None) →
  arr !! p = Some (Some b) →
  remove_rescan arr n i curr = OK (Some b).
Proof.
  revert i curr. induction n as [|n IH]; intros i curr Hp1 Hp2 Hnull Hp; [lia |].
  simpl. destruct (decide (p = N.to_nat i)) as [->|Hne].
  - by rewrite (proj2 (chain_at_OK _ _ _) Hp).
  - rewrite (proj2 (chain_at_OK _ _ _) (Hnull (N.to_nat i) ltac:(lia) ltac:(lia))).
    simpl. apply IH; try done; try lia. intros q ??. apply Hnull; lia.
Qed.

Lemma state_A_reachable : reachable state_A.1 state_A.2.
Proof. apply (table_of_reachable [node_A]). vm_compute. reflexivity. Qed.

Lemma state_AC_reachable : reachable state_AC.1 state_AC.2.
Proof. apply (table_of_reachable [node_A; node_C]). vm_compute. reflexivity. Qed.

Lemma state_D_reachable : reachable state_D.1 state_D.2.
Proof. apply (table_of_reachable [node_D]). vm_compute. reflexivity. Qed.

(** * Facts about the allocators of memcheck *)

(** ** mc_main.c: the stack pointer *)

Lemma bind_Done {A B : Type} (m : outcome A) (k : A → outcome B) (b : B) :
  m ≫= k = Done b → ∃ a, m = Done a ∧ k a = Done b.
Proof. destruct m as [a|]; simpl; intros H; [by exists a | done]. Qed.

Lemma Done_inj {A : Type} (a b : A) : Done a = Done b → a = b.
Proof. by intros [= ->]. Qed.

Ltac done_inv H :=
  let a := fresh "x" in
  let H1 := fresh H "l" in
  let H2 := fresh in
  destruct (bind_Done _ _ _ H) as (a & H1 & H2); clear H; rename H2 into H.

Lemma size_t_add_small (a b : N) :
  a + b < size_t_modulus → size_t_add a b = a + b.
Proof. intros H. unfold size_t_add. by apply N.mod_small. Qed.

Lemma size_t_add_wrap (a b : N) :
  a < size_t_modulus → b < size_t_modulus → size_t_modulus ≤ a + b →
  size_t_add a b = a + b - size_t_modulus.
Proof.
  intros Ha Hb Hab. unfold size_t_add.
  symmetry. apply (N.mod_unique _ _ 1); lia.
Qed.

(** What [stack_alloc] does with a request, by the size of the
    request: it fits; it does not fit; it is so large that the sum
    with the stack pointer wraps around, and then the test lets it
    pass and the stack pointer goes down. *)
Lemma stack_alloc_cases (size : N) (s : pool) :
  stack_pointer s ≤ STACK_SIZE → size < size_t_modulus →
  stack_alloc size s
  = if size <=? STACK_SIZE - stack_pointer s
    then Done (Some (stack_pointer s),
               mkPool (stack_buffer s) (stack_pointer s + size) (track s))
    else if stack_pointer s + size <? size_t_modulus
    then Stop (Panic "Stack overflow in custom allocator")
    else Done (Some (stack_pointer s),
               mkPool (stack_buffer s)
                 (stack_pointer s + size - size_t_modulus) (track s)).
Proof.
  intros Hsp Hsize. unfold stack_alloc.
  assert (STACK_SIZE < size_t_modulus) as Hbig by (vm_compute; done).
  destruct (N.leb_spec size (STACK_SIZE - stack_pointer s)) as [Hfit|Hnofit].
  - rewrite size_t_add_small by lia.
    destruct (N.ltb_spec STACK_SIZE (stack_pointer s + size)); [lia | done].
  - destruct (N.ltb_spec (stack_pointer s + size) size_t_modulus) as [Hlt|Hge].
    + rewrite size_t_add_small by lia.
      destruct (N.ltb_spec STACK_SIZE (stack_pointer s + size)); [done | lia].
    + rewrite size_t_add_wrap by lia.
      destruct (N.ltb_spec STACK_SIZE (stack_pointer s + size - size_t_modulus));
        [lia | done].
Qed.

Lemma stack_alloc_Done (size : N) (s : pool) (p : option N) (s' : pool) :
  stack_alloc size s = Done (p, s') →
  p = Some (stack_pointer s) ∧ stack_pointer s' ≤ STACK_SIZE ∧
  stack_pointer s' = size_t_add (stack_pointer s) size ∧
  stack_buffer s' = stack_buffer s ∧ track s' = track s.
Proof.
  unfold stack_alloc.
  destruct (N.ltb_spec STACK_SIZE (size_t_add (stack_pointer s) size))
    as [Hlt|Hge]; [done |].
  intros H. apply Done_inj in H. by simplify_eq.
Qed.

Lemma stack_alloc_Stop (size : N) (s : pool) (st : stop) :
  stack_alloc size s = Stop st → st = Panic "Stack overflow in custom allocator".
Proof.
  unfold stack_alloc. destruct (_ <? _); [| done]. by intros [= <-].
Qed.

Lemma stack_free_Done (size : N) (s s' : pool) :
  stack_free size s = Done s' →
  size ≤ stack_pointer s ∧ stack_pointer s' = stack_pointer s - size ∧
  stack_buffer s' = stack_buffer s ∧ track s' = track s.
Proof.
  unfold stack_free.
  destruct (N.ltb_spec (stack_pointer s) size) as [Hlt|Hge]; [done |].
  intros H. apply Done_inj in H. by simplify_eq.
Qed.

Lemma buffer_memset_Done (size : N) (buf buf' : buffer) (p : N) (c : Byte.byte)
    (n : N) :
  buffer_memset size buf p c n = Done buf' →
  p + n ≤ size ∧
  ∀ i, buf' i = if (p <=? i) && (i <? p + n) then c else buf i.
Proof.
  unfold buffer_memset. destruct (N.ltb_spec size (p + n)) as [Hlt|Hge]; [done |].
  intros H. apply Done_inj in H. by subst.
Qed.

(** Every completed call leaves the stack pointer inside the buffer. *)
Lemma pool_call_stack_pointer (s s' : pool) :
  stack_pointer s ≤ STACK_SIZE → pool_call s s' →
  stack_pointer s' ≤ STACK_SIZE.
Proof.
  assert (∀ n s p s' msg,
      ('(p, s) ← stack_alloc n s;
       match p with
       | None => Stop (Panic msg)
       | Some p => Done (p, VG_TRACK (new_mem_stack p n) s)
       end) = Done (p, s') → stack_pointer s' ≤ STACK_SIZE) as Halloc'.
  { intros n s0 p s0' msg H. done_inv H. destruct x as [q s1]. simpl in H.
    apply stack_alloc_Done in Hl as (-> & Hle & _).
    apply Done_inj in H. by simplify_eq. }
  assert (∀ n s p s' msg,
      ('(p, s) ← stack_alloc n s;
       match p with
       | None => Stop (Panic msg)
       | Some p =>
           buf ← buffer_memset STACK_SIZE (stack_buffer s) p Byte.x00 n;
           let s := mkPool buf (stack_pointer s) (track s) in
           Done (p, VG_TRACK (new_mem_stack p n) s)
       end) = Done (p, s') → stack_pointer s' ≤ STACK_SIZE) as Hcalloc.
  { intros n s0 p s0' msg H. done_inv H. destruct x as [q s1]. simpl in H.
    apply stack_alloc_Done in Hl as (-> & Hle & _).
    done_inv H. apply Done_inj in H. by simplify_eq. }
  assert (∀ (ptr : option N) size s s',
      (match ptr with
       | Some _ => stack_free size s
       | None => Done s
       end) = Done s' → stack_pointer s ≤ STACK_SIZE →
      stack_pointer s' ≤ STACK_SIZE) as Hfree.
  { intros [q|] size s0 s0' H Hle.
    - apply stack_free_Done in H as (? & -> & _). lia.
    - apply Done_inj in H. by subst. }
  assert (∀ (ptr : option N) size s s',
      (match ptr with
       | Some p => s ← stack_free size s; Done (VG_TRACK (free_mem_stack p) s)
       | None => Done s
       end) = Done s' → stack_pointer s ≤ STACK_SIZE →
      stack_pointer s' ≤ STACK_SIZE) as Hfree'.
  { intros [q|] size s0 s0' H Hle.
    - done_inv H. apply stack_free_Done in Hl as (? & Hsp & _).
      apply Done_inj in H. subst. simpl. lia.
    - apply Done_inj in H. by subst. }
  intros Hsp Hcall.
  destruct Hcall as [n s p s' H|nmemb size s p s' H|ptr size s p s' H
                    |ptr size s s' H|tid n s p s' H|tid nmemb size s p s' H
                    |tid ptr size s p s' H|tid ptr size s s' H|n s p s' H
                    |ptr size s s' H].
  - by eapply Halloc'.
  - by eapply Hcalloc.
  - unfold MC_realloc in H. done_inv H. by eapply Halloc'.
  - eapply Hfree'; [exact H | done].
  - by eapply Halloc'.
  - by eapply Hcalloc.
  - unfold MC_client_realloc in H. done_inv H. by eapply Halloc'.
  - eapply Hfree'; [exact H | done].
  - by eapply Halloc'.
  - eapply Hfree'; [exact H | done].
Qed.

Lemma pool_reachable_stack_pointer (s : pool) :
  pool_reachable s → stack_pointer s ≤ STACK_SIZE.
Proof.
  induction 1 as [|s s' _ IH Hcall].
  - vm_compute. done.
  - by eapply pool_call_stack_pointer.
Qed.

(** ** mc_main.c: the wrappers *)

(** [MC_(malloc)] by the size of the request, wrap-around included;
    its own panic is never reached. *)
Lemma MC_malloc_cases (n : N) (s : pool) :
  stack_pointer s ≤ STACK_SIZE → n < size_t_modulus →
  MC_malloc n s
  = if n <=? STACK_SIZE - stack_pointer s
    then Done (stack_pointer s,
               mkPool (stack_buffer s) (stack_pointer s + n)
                 (track s ++ [new_mem_stack (stack_pointer s) n]))
    else if stack_pointer s + n <? size_t_modulus
    then Stop (Panic "Stack overflow in custom allocator")
    else Done (stack_pointer s,
               mkPool (stack_buffer s) (stack_pointer s + n - size_t_modulus)
                 (track s ++ [new_mem_stack (stack_pointer s) n])).
Proof.
  intros Hsp Hn. unfold MC_malloc. rewrite stack_alloc_cases by done.
  destruct (n <=? STACK_SIZE - stack_pointer s); [done |].
  by destruct (stack_pointer s + n <? size_t_modulus).
Qed.

(** A block that was allocated and is freed with its size gives the
    stack pointer back; the bytes of the buffer are not touched. *)
Lemma malloc_then_free (n : N) (s : pool) (p : N) (s1 : pool) :
  stack_pointer s ≤ STACK_SIZE → n ≤ STACK_SIZE →
  MC_malloc n s = Done (p, s1) →
  ∃ s2, MC_free (Some p) n s1 = Done s2 ∧
        stack_pointer s2 = stack_pointer s ∧
        stack_buffer s2 = stack_buffer s ∧
        track s2 = track s ++ [new_mem_stack p n; free_mem_stack p].
Proof.
  intros Hsp Hn H.
  assert (STACK_SIZE + STACK_SIZE < size_t_modulus) as Hbig by (vm_compute; done).
  rewrite MC_malloc_cases in H by lia.
  destruct (N.leb_spec n (STACK_SIZE - stack_pointer s)) as [Hfit|Hnofit].
  - apply Done_inj in H. simplify_eq. unfold MC_free, stack_free. cbn.
    destruct (N.ltb_spec (stack_pointer s + n) n); [lia |]. cbn.
    eexists. split; [done |]. cbn. split_and!; [lia | done |].
    by rewrite <- app_assoc.
  - destruct (N.ltb_spec (stack_pointer s + n) size_t_modulus); [done | lia].
Qed.

(** [MC_(realloc)] of a pointer that is not NULL frees [size] bytes
    and allocates them again: the stack pointer stays where it was and
    the block handed back is the top [size] bytes already in use.  It
    fails the assertion of [stack_free] when fewer than [size] bytes
    are in use. *)
Lemma MC_realloc_in_place (q : N) (size : N) (s : pool) :
  stack_pointer s ≤ STACK_SIZE →
  MC_realloc (Some q) size s
  = if stack_pointer s <? size then Stop AssertionFailed
    else Done (stack_pointer s - size,
               mkPool (stack_buffer s) (stack_pointer s)
                 (track s ++ [new_mem_stack (stack_pointer s - size) size])).
Proof.
  intros Hsp.
  assert (STACK_SIZE < size_t_modulus) as Hbig by (vm_compute; done).
  unfold MC_realloc, stack_free.
  destruct (N.ltb_spec (stack_pointer s) size) as [Hlt|Hge]; [done |].
  cbn [mbind outcome_bind]. unfold stack_alloc. cbn [stack_pointer].
  rewrite size_t_add_small by lia.
  replace (stack_pointer s - size + size) with (stack_pointer s) by lia.
  destruct (N.ltb_spec STACK_SIZE (stack_pointer s)); [lia | done].
Qed.

(** [MC_(calloc)] allocates the product of its arguments modulo 2^64
    and fills these bytes with zeros, leaving the others alone. *)
Lemma MC_calloc_zeroes (nmemb size : N) (s : pool) (p : N) (s' : pool) :
  stack_pointer s ≤ STACK_SIZE →
  MC_calloc nmemb size s = Done (p, s') →
  p = stack_pointer s ∧
  stack_pointer s' = p + size_t_mul nmemb size ∧
  stack_pointer s' ≤ STACK_SIZE ∧
  ∀ i, stack_buffer s' i
       = if (p <=? i) && (i <? stack_pointer s') then Byte.x00
         else stack_buffer s i.
Proof.
  intros Hsp H. unfold MC_calloc in H. cbn zeta in H.
  set (total := size_t_mul nmemb size) in *.
  done_inv H. destruct x as [q s1]. simpl in H.
  apply stack_alloc_Done in Hl as (-> & Hle & Hsp1 & Hbuf & Htr).
  done_inv H. apply buffer_memset_Done in Hl as [Hin Hset].
  apply Done_inj in H. simplify_eq. cbn.
  assert (STACK_SIZE < size_t_modulus) as Hbig by (vm_compute; done).
  assert (stack_pointer s1 = stack_pointer s + total) as ->.
  { rewrite Hsp1. apply size_t_add_small. lia. }
  split_and!; [done | done | done |].
  intros i. by rewrite Hset, Hbuf.
Qed.

(** The client and pool wrappers are the plain ones: the thread id is
    not used. *)
Lemma client_wrappers (tid : ThreadId) (s : pool) :
  (∀ n, MC_client_malloc tid n s = MC_malloc n s) ∧
  (∀ n, MC_pool_alloc n s = MC_malloc n s) ∧
  (∀ nmemb size, MC_client_calloc tid nmemb size s = MC_calloc nmemb size s) ∧
  (∀ ptr size, MC_client_realloc tid ptr size s = MC_realloc ptr size s) ∧
  (∀ ptr size, MC_client_free tid ptr size s = MC_free ptr size s) ∧
  (∀ ptr size, MC_pool_free ptr size s = MC_free ptr size s).
Proof.
  assert (∀ n s0 msg msg',
      ('(p, s) ← stack_alloc n s0;
       match p with
       | None => Stop (Panic msg)
       | Some p => Done (p, VG_TRACK (new_mem_stack p n) s)
       end)
      = ('(p, s) ← stack_alloc n s0;
         match p with
         | None => Stop (Panic msg')
         | Some p => Done (p, VG_TRACK (new_mem_stack p n) s)
         end)) as Halloc.
  { intros n s0 msg msg'. unfold stack_alloc. by destruct (_ <? _). }
  split_and!.
  - intros n. apply Halloc.
  - intros n. apply Halloc.
  - intros nmemb size. unfold MC_client_calloc, MC_calloc, stack_alloc.
    by destruct (_ <? _).
  - intros ptr size. unfold MC_client_realloc, MC_realloc.
    destruct (match ptr with Some _ => stack_free size s | None => Done s end);
      [apply Halloc | done].
  - done.
  - done.
Qed.

(** ** mc_machine.c *)

Section GuestStateFacts.
Variable sz : N.

Lemma load_after_store (size : N) (buf buf' : buffer) (p : N)
    (g : list Byte.byte) :
  N.of_nat (length g) = sz →
  buffer_store size buf p g sz = Done buf' →
  buffer_load size buf' p sz = Done g ∧ p + sz ≤ size.
Proof.
  intros Hlen. unfold buffer_store, buffer_load.
  destruct (N.ltb_spec size (p + sz)) as [Hlt|Hge]; [done |].
  destruct (N.ltb_spec (N.of_nat (length g)) sz) as [Hlt'|Hge']; [done |].
  cbn [orb]. intros H. apply Done_inj in H. subst buf'.
  split; [| done]. f_equal. apply list_eq. intros k.
  rewrite list_lookup_fmap.
  destruct (decide (k < length g)%nat) as [Hk|Hk].
  - rewrite lookup_seq_lt by lia. cbn.
    destruct (N.leb_spec p (p + N.of_nat k)); [| lia].
    destruct (N.ltb_spec (p + N.of_nat k) (p + sz)); [| lia]. cbn.
    replace (N.to_nat (p + N.of_nat k - p)) with k by lia.
    destruct (lookup_lt_is_Some_2 g k Hk) as [x Hx].
    by rewrite (nth_lookup_Some _ _ Byte.x00 _ Hx).
  - rewrite lookup_seq_ge by lia. cbn. symmetry. apply lookup_ge_None. lia.
Qed.

(** [get_state] keeps the guest state in the buffer above the stack
    pointer and gives the block back; a [set_state] that follows,
    whatever the architecture it is called for, reads that block: it
    hands back the state that was saved. *)
Lemma set_state_after_get_state (a a' : arch) (g : list Byte.byte)
    (m m1 : machine) :
  N.of_nat (length g) = sz →
  MC_get_state sz a g m = Done m1 →
  machine_stack_pointer m1 = machine_stack_pointer m ∧
  ∃ m2, MC_set_state sz a' m1 = Done (g, m2) ∧
        machine_stack_pointer m2 = machine_stack_pointer m ∧
        machine_stack_buffer m2 = machine_stack_buffer m1.
Proof.
  intros Hlen. unfold MC_get_state, MC_set_state, machine_stack_alloc.
  destruct (N.ltb_spec MACHINE_STACK_SIZE
              (size_t_add (machine_stack_pointer m) sz)) as [Hlt|Hge]; [done |].
  intros H. done_inv H. apply Done_inj in H. subst m1.
  destruct (load_after_store _ _ _ _ _ Hlen Hl) as [Hload Hfit].
  assert (MACHINE_STACK_SIZE < size_t_modulus) as Hbig by (vm_compute; done).
  rewrite size_t_add_small in * by lia.
  unfold machine_stack_free, machine_printf. cbn.
  destruct (N.ltb_spec (machine_stack_pointer m + sz) sz) as [?|_]; [lia |].
  cbn. replace (machine_stack_pointer m + sz - sz)
    with (machine_stack_pointer m) by lia.
  split; [done |].
  rewrite size_t_add_small by lia.
  destruct (N.ltb_spec MACHINE_STACK_SIZE (machine_stack_pointer m + sz))
    as [?|_]; [lia |].
  cbn. rewrite Hload. cbn.
  destruct (N.ltb_spec (machine_stack_pointer m + sz) sz) as [?|_]; [lia |].
  eexists. split; [done |]. cbn. split; [lia | done].
Qed.

(** Whether [get_state] and [set_state] complete is a matter of room
    above the stack pointer; on completion the stack pointer is where
    it was. *)
Lemma get_state_cases (a : arch) (g : list Byte.byte) (m : machine) :
  N.of_nat (length g) = sz →
  machine_stack_pointer m ≤ MACHINE_STACK_SIZE → sz ≤ MACHINE_STACK_SIZE →
  if sz <=? MACHINE_STACK_SIZE - machine_stack_pointer m
  then ∃ m1, MC_get_state sz a g m = Done m1 ∧
             machine_stack_pointer m1 = machine_stack_pointer m ∧
             machine_out m1
             = machine_out m ++ ["Retrieved " +:+ arch_name a +:+ " guest state"]
  else MC_get_state sz a g m
       = Stop (Panic ("Machine stack allocation failed for " +:+ arch_name a
                      +:+ " state")).
Proof.
  intros Hlen Hsp Hsz.
  assert (MACHINE_STACK_SIZE + MACHINE_STACK_SIZE < size_t_modulus) as Hbig
    by (vm_compute; done).
  unfold MC_get_state, machine_stack_alloc.
  rewrite size_t_add_small by lia.
  destruct (N.leb_spec sz (MACHINE_STACK_SIZE - machine_stack_pointer m))
    as [Hfit|Hnofit];
    destruct (N.ltb_spec MACHINE_STACK_SIZE (machine_stack_pointer m + sz))
      as [Hlt|Hge]; try lia; [| done].
  unfold buffer_store.
  destruct (N.ltb_spec MACHINE_STACK_SIZE (machine_stack_pointer m + sz));
    [lia |].
  destruct (N.ltb_spec (N.of_nat (length g)) sz); [lia |]. cbn.
  unfold machine_stack_free. cbn.
  destruct (N.ltb_spec (machine_stack_pointer m + sz) sz); [lia |].
  eexists. split; [done |]. cbn. split; [lia | done].
Qed.

(** Before any [get_state], [set_state] reads static storage: the
    guest state becomes all zeros. *)
Lemma set_state_first (a : arch) :
  sz ≤ MACHINE_STACK_SIZE →
  ∃ m, MC_set_state sz a machine_init
       = Done (replicate (N.to_nat sz) Byte.x00, m) ∧
       machine_stack_pointer m = 0.
Proof.
  intros Hsz.
  assert (MACHINE_STACK_SIZE < size_t_modulus) as Hbig by (vm_compute; done).
  assert (∀ (n k : nat), map (λ _ : nat, Byte.x00) (seq k n) = replicate n Byte.x00)
    as Hzeros.
  { induction n as [|n IH]; intros k; [done |]. simpl. f_equal. apply IH. }
  unfold MC_set_state, machine_stack_alloc, machine_init.
  cbn [machine_stack_pointer machine_stack_buffer machine_out].
  rewrite size_t_add_small by lia. rewrite N.add_0_l.
  destruct (N.ltb_spec MACHINE_STACK_SIZE sz) as [?|_]; [lia |].
  unfold buffer_load. rewrite N.add_0_l.
  destruct (N.ltb_spec MACHINE_STACK_SIZE sz) as [?|_]; [lia |].
  cbn [mbind outcome_bind machine_stack_buffer]. unfold zeros.
  rewrite Hzeros. eexists. split; [done |].
  unfold machine_stack_free, machine_printf.
  cbn [machine_stack_pointer].
  destruct (N.ltb_spec sz sz) as [?|_]; [lia |].
  cbn [machine_stack_pointer]. lia.
Qed.
End GuestStateFacts.

(** ** mc_leakcheck.c *)

Section LeakCheckFacts.
Variable sz : N.
Variables UNUSED IN_USE LEAKED : N.
Hypothesis sz_pos : 0 < sz.
Hypothesis sz_small : sz ≤ LEAK_CHECK_STACK_SIZE.

Lemma size_t_mul_small (a b : N) :
  a * b < size_t_modulus → size_t_mul a b = a * b.
Proof. intros H. unfold size_t_mul. by apply N.mod_small. Qed.

Lemma leak_size_bound : LEAK_CHECK_STACK_SIZE = 16384.
Proof. reflexivity. Qed.

Lemma leak_modulus : size_t_modulus = 18446744073709551616.
Proof. reflexivity. Qed.

Lemma chunk_index_Done (p i : N) :
  p mod sz = 0 → (p / sz + i + 1) * sz ≤ LEAK_CHECK_STACK_SIZE →
  chunk_index sz p i = Done (p / sz + i).
Proof.
  intros Hal Hin. unfold chunk_index. rewrite Hal. cbn.
  destruct (N.ltb_spec LEAK_CHECK_STACK_SIZE ((p / sz + i + 1) * sz));
    [lia | done].
Qed.

Lemma initial_chunks_loop_updates :
  updates_chunks sz (initial_chunks_loop sz UNUSED)
    (λ c c', Chunk_addr c' = Chunk_addr c).
Proof.
  intros n. induction n as [|n IH]; intros p i st Hal Hin; simpl.
  - by exists st.
  - unfold chunk_update. rewrite chunk_index_Done by (done || nia).
    cbn [mbind outcome_bind].
    destruct (IH p (i + 1)
      (mkLeak (λ k, if k =? p / sz + i
                    then mkChunk UNUSED (Chunk_addr (leak_check_chunks st (p / sz + i)))
                    else leak_check_chunks st k)
         (leak_check_stack_pointer st) (leak_out st)) Hal)
      as (st' & -> & Hsp & Hbelow & Hkeep); [nia |].
    exists st'. split_and!; [done | done | |].
    + intros k Hk. rewrite Hbelow by lia. cbn.
      destruct (N.eqb_spec k (p / sz + i)); [lia | done].
    + intros k. rewrite Hkeep. cbn.
      destruct (N.eqb_spec k (p / sz + i)) as [->|]; done.
Qed.

Lemma in_use_loop_updates :
  updates_chunks sz (in_use_loop sz IN_USE) (λ _ _, True).
Proof.
  intros n. induction n as [|n IH]; intros p i st Hal Hin; simpl.
  - by exists st.
  - unfold chunk_update. rewrite chunk_index_Done by (done || nia).
    cbn [mbind outcome_bind].
    match goal with |- ∃ st', in_use_loop _ _ n p (i + 1) ?s = _ ∧ _ =>
      destruct (IH p (i + 1) s Hal) as (st' & -> & Hsp & Hbelow & _); [nia |]
    end.
    exists st'. split_and!; [done | done | | done].
    intros k Hk. rewrite Hbelow by lia. cbn.
    destruct (N.eqb_spec k (p / sz + i)); [lia | done].
Qed.

Lemma leaked_loop_updates :
  updates_chunks sz (leaked_loop sz LEAKED) (λ _ _, True).
Proof.
  intros n. induction n as [|n IH]; intros p i st Hal Hin; simpl.
  - by exists st.
  - destruct (i mod 10 =? 0).
    + unfold chunk_update, chunk_get. rewrite chunk_index_Done by (done || nia).
      cbn [mbind outcome_bind].
      match goal with |- ∃ st', leaked_loop _ _ n p (i + 1) ?s = _ ∧ _ =>
        destruct (IH p (i + 1) s Hal) as (st' & -> & Hsp & Hbelow & _); [nia |]
      end.
      exists st'. split_and!; [done | done | | done].
      intros k Hk. rewrite Hbelow by lia. cbn.
      destruct (N.eqb_spec k (p / sz + i)); [lia | done].
    + cbn [mbind outcome_bind].
      destruct (IH p (i + 1) st Hal) as (st' & -> & Hsp & Hbelow & _); [nia |].
      exists st'. split_and!; [done | done | | done].
      intros k Hk. apply Hbelow. lia.
Qed.
Lemma aligned_div (p : N) : p mod sz = 0 → p / sz * sz = p.
Proof.
  intros Hal. pose proof (N.div_mod p sz ltac:(lia)) as H. rewrite Hal in H. lia.
Qed.

Lemma aligned_add (p n : N) : p mod sz = 0 → (p + sz * n) mod sz = 0.
Proof.
  intros Hal. rewrite (N.mul_comm sz n), N.Div0.mod_add. done.
Qed.

Lemma leak_check_stack_alloc_cases (size : N) (st : leak_check) :
  leak_check_stack_pointer st ≤ LEAK_CHECK_STACK_SIZE →
  size ≤ 400 * LEAK_CHECK_STACK_SIZE →
  leak_check_stack_alloc size st
  = if size <=? LEAK_CHECK_STACK_SIZE - leak_check_stack_pointer st
    then (Some (leak_check_stack_pointer st),
          mkLeak (leak_check_chunks st) (leak_check_stack_pointer st + size)
                 (leak_out st))
    else (None, leak_printf "LeakCheck Stack Overflow" [] st).
Proof.
  intros Hsp Hsize. unfold leak_check_stack_alloc.
  pose proof leak_size_bound. pose proof leak_modulus.
  rewrite size_t_add_small by lia.
  destruct (N.leb_spec size (LEAK_CHECK_STACK_SIZE - leak_check_stack_pointer st));
    destruct (N.ltb_spec LEAK_CHECK_STACK_SIZE (leak_check_stack_pointer st + size));
    (done || lia).
Qed.

Lemma get_initial_chunks_cases (st : leak_check) :
  leak_check_stack_pointer st ≤ LEAK_CHECK_STACK_SIZE →
  leak_check_stack_pointer st mod sz = 0 →
  if sz * 100 <=? LEAK_CHECK_STACK_SIZE - leak_check_stack_pointer st
  then ∃ st', get_initial_chunks sz UNUSED st = Done st' ∧
              leak_check_stack_pointer st'
              = leak_check_stack_pointer st + sz * 100 ∧
              (∀ k, k < leak_check_stack_pointer st / sz →
                    leak_check_chunks st' k = leak_check_chunks st k) ∧
              (∀ k, Chunk_addr (leak_check_chunks st' k)
                    = Chunk_addr (leak_check_chunks st k))
  else get_initial_chunks sz UNUSED st
       = Stop (Panic "LeakCheck: Unable to allocate initial chunks on stack").
Proof.
  intros Hsp Hal. pose proof leak_size_bound. pose proof leak_modulus.
  unfold get_initial_chunks. rewrite size_t_mul_small by lia.
  rewrite leak_check_stack_alloc_cases by lia.
  destruct (N.leb_spec (sz * 100)
              (LEAK_CHECK_STACK_SIZE - leak_check_stack_pointer st)); [| done].
  pose proof (aligned_div _ Hal).
  match goal with |- context [initial_chunks_loop _ _ _ ?p ?i ?s] =>
    destruct (initial_chunks_loop_updates 100%nat p i s Hal)
      as (st' & -> & Hsp' & Hbelow & Hkeep); [nia |]
  end.
  cbn [mbind outcome_bind]. eexists. split; [done |]. cbn.
  split_and!; [by rewrite Hsp' | | done].
  intros k Hk. apply Hbelow. lia.
Qed.

Lemma run_leak_detector_cases (st : leak_check) :
  leak_check_stack_pointer st ≤ LEAK_CHECK_STACK_SIZE →
  leak_check_stack_pointer st mod sz = 0 →
  if sz * 200 <=? LEAK_CHECK_STACK_SIZE - leak_check_stack_pointer st
  then ∃ st', run_leak_detector sz IN_USE LEAKED st = Done st' ∧
              leak_check_stack_pointer st' = leak_check_stack_pointer st ∧
              (∀ k, k < leak_check_stack_pointer st / sz →
                    leak_check_chunks st' k = leak_check_chunks st k)
  else run_leak_detector sz IN_USE LEAKED st
       = Stop (Panic
           "LeakCheck: Unable to allocate chunks for leak detection on stack").
Proof.
  intros Hsp Hal. pose proof leak_size_bound. pose proof leak_modulus.
  unfold run_leak_detector. rewrite size_t_mul_small by lia.
  rewrite leak_check_stack_alloc_cases by (cbn; lia).
  cbn [leak_printf leak_check_stack_pointer leak_check_chunks leak_out].
  destruct (N.leb_spec (sz * 200)
              (LEAK_CHECK_STACK_SIZE - leak_check_stack_pointer st)); [| done].
  pose proof (aligned_div _ Hal).
  match goal with |- context [in_use_loop _ _ _ ?p ?i ?s] =>
    destruct (in_use_loop_updates 200%nat p i s Hal)
      as (st1 & -> & Hsp1 & Hbelow1 & _); [nia |]
  end.
  cbn [mbind outcome_bind].
  destruct (leaked_loop_updates 200%nat (leak_check_stack_pointer st) 0 st1 Hal)
    as (st2 & -> & Hsp2 & Hbelow2 & _); [nia |].
  cbn [mbind outcome_bind]. eexists. split; [done |].
  unfold leak_check_stack_free. rewrite Hsp2, Hsp1. cbn.
  destruct (N.ltb_spec (leak_check_stack_pointer st + sz * 200) (sz * 200));
    [lia |].
  cbn. split; [lia |].
  intros k Hk. rewrite Hbelow2, Hbelow1 by lia. done.
Qed.

(** One run of the leak check: it completes when 300 chunks fit above
    the stack pointer, and then keeps 100 of them; otherwise it
    panics, in [get_initial_chunks] when not even 100 fit. *)
Lemma MC_leak_check_main_cases (st : leak_check) :
  leak_check_stack_pointer st ≤ LEAK_CHECK_STACK_SIZE →
  leak_check_stack_pointer st mod sz = 0 →
  if sz * 300 <=? LEAK_CHECK_STACK_SIZE - leak_check_stack_pointer st
  then ∃ st', MC_leak_check_main sz UNUSED IN_USE LEAKED st = Done st' ∧
              leak_check_stack_pointer st'
              = leak_check_stack_pointer st + sz * 100 ∧
              (∀ k, k < leak_check_stack_pointer st / sz + 100 →
                    Chunk_addr (leak_check_chunks st' k)
                    = Chunk_addr (leak_check_chunks st k))
  else MC_leak_check_main sz UNUSED IN_USE LEAKED st
       = Stop (Panic
           (if sz * 100 <=? LEAK_CHECK_STACK_SIZE - leak_check_stack_pointer st
            then "LeakCheck: Unable to allocate chunks for leak detection on stack"
            else "LeakCheck: Unable to allocate initial chunks on stack")).
Proof.
  intros Hsp Hal. pose proof leak_size_bound.
  unfold MC_leak_check_main.
  pose proof (get_initial_chunks_cases
                (leak_printf "Starting MemCheck Leak Detection..." [] st)
                Hsp Hal) as Hget.
  cbn [leak_printf leak_check_stack_pointer leak_check_chunks] in Hget.
  destruct (N.leb_spec (sz * 100)
              (LEAK_CHECK_STACK_SIZE - leak_check_stack_pointer st))
    as [Hfit1|Hnofit1].
  - destruct Hget as (st1 & -> & Hsp1 & Hbelow1 & Haddr1).
    cbn [mbind outcome_bind].
    assert (leak_check_stack_pointer st1 mod sz = 0) as Hal1
      by (rewrite Hsp1; by apply aligned_add).
    pose proof (run_leak_detector_cases st1 ltac:(lia) Hal1) as Hrun.
    rewrite Hsp1 in Hrun.
    destruct (N.leb_spec (sz * 300)
                (LEAK_CHECK_STACK_SIZE - leak_check_stack_pointer st));
      destruct (N.leb_spec (sz * 200)
                  (LEAK_CHECK_STACK_SIZE - (leak_check_stack_pointer st + sz * 100)));
      try lia.
    + destruct Hrun as (st2 & -> & Hsp2 & Hbelow2).
      cbn [mbind outcome_bind]. eexists. split; [done |]. cbn.
      split; [lia |]. intros k Hk. rewrite Hbelow2.
      * apply Haddr1.
      * rewrite <- (aligned_div _ Hal) at 1.
        replace (leak_check_stack_pointer st / sz * sz + sz * 100)
          with ((leak_check_stack_pointer st / sz + 100) * sz) by lia.
        rewrite N.div_mul by lia. done.
    + by rewrite Hrun.
  - rewrite Hget. cbn [mbind outcome_bind].
    destruct (N.leb_spec (sz * 300)
                (LEAK_CHECK_STACK_SIZE - leak_check_stack_pointer st));
      [lia | done].
Qed.
(** Called again and again from the start of the program, the leak
    check keeps 100 more chunks each time, and panics as soon as 300
    chunks no longer fit. *)
Lemma leak_check_runs_cases (n : nat) :
  if bool_decide (n = 0%nat)
     || (sz * (100 * N.of_nat n + 200) <=? LEAK_CHECK_STACK_SIZE)
  then ∃ st, leak_check_runs sz UNUSED IN_USE LEAKED n leak_check_init = Done st ∧
             leak_check_stack_pointer st = sz * 100 * N.of_nat n
  else ∃ msg, leak_check_runs sz UNUSED IN_USE LEAKED n leak_check_init
              = Stop (Panic msg).
Proof.
  pose proof leak_size_bound.
  induction n as [|n IH].
  - cbn. exists leak_check_init. split; [done | cbn; lia].
  - rewrite bool_decide_false by done. cbn [orb].
    cbn [leak_check_runs].
    destruct (N.leb_spec (sz * (100 * N.of_nat (S n) + 200)) LEAK_CHECK_STACK_SIZE)
      as [Hfit|Hnofit].
    + assert (bool_decide (n = 0%nat)
              || (sz * (100 * N.of_nat n + 200) <=? LEAK_CHECK_STACK_SIZE) = true)
        as Hn.
      { apply orb_true_iff. right. apply N.leb_le. nia. }
      rewrite Hn in IH. destruct IH as (st & -> & Hsp).
      cbn [mbind outcome_bind].
      pose proof (MC_leak_check_main_cases st) as Hmain.
      rewrite Hsp in Hmain.
      destruct (N.leb_spec (sz * 300)
                  (LEAK_CHECK_STACK_SIZE - sz * 100 * N.of_nat n)); [| nia].
      destruct Hmain as (st' & -> & Hsp' & _); [nia | |].
      { rewrite <- (N.add_0_l (sz * 100 * N.of_nat n)).
        replace (0 + sz * 100 * N.of_nat n) with (0 + sz * (100 * N.of_nat n))
          by lia.
        apply aligned_add. by apply N.Div0.mod_0_l. }
      exists st'. split; [done | lia].
    + destruct (bool_decide (n = 0%nat)
                || (sz * (100 * N.of_nat n + 200) <=? LEAK_CHECK_STACK_SIZE))
        eqn:Hn.
      * destruct IH as (st & -> & Hsp). cbn [mbind outcome_bind].
        pose proof (MC_leak_check_main_cases st) as Hmain.
        rewrite Hsp in Hmain.
        assert (sz * 100 * N.of_nat n ≤ LEAK_CHECK_STACK_SIZE) as Hle.
        { apply orb_true_iff in Hn as [Hz%bool_decide_eq_true|Hle%N.leb_le];
            [subst; lia | nia]. }
        destruct (N.leb_spec (sz * 300)
                    (LEAK_CHECK_STACK_SIZE - sz * 100 * N.of_nat n)); [nia |].
        rewrite Hmain; [by eexists | done |].
        replace (sz * 100 * N.of_nat n) with (0 + sz * (100 * N.of_nat n)) by lia.
        apply aligned_add. by apply N.Div0.mod_0_l.
      * destruct IH as (msg & ->). by exists msg.
Qed.

(** [search_chunks] answers with the first chunk below the stack
    pointer that has the address, with NULL when there is none, and
    changes nothing but the output. *)
Lemma search_loop_first (n : nat) (i a : N) (st : leak_check) :
  (i + N.of_nat n) * sz ≤ LEAK_CHECK_STACK_SIZE →
  ∃ r st',
    search_loop sz n i a st = Done (r, st') ∧
    leak_check_chunks st' = leak_check_chunks st ∧
    leak_check_stack_pointer st' = leak_check_stack_pointer st ∧
    match r with
    | Some p =>
        ∃ j, p = j * sz ∧ i ≤ j ∧ j < i + N.of_nat n ∧
             Chunk_addr (leak_check_chunks st j) = a ∧
             ∀ k, i ≤ k → k < j → Chunk_addr (leak_check_chunks st k) ≠ a
    | None =>
        ∀ k, i ≤ k → k < i + N.of_nat n →
             Chunk_addr (leak_check_chunks st k) ≠ a
    end.
Proof.
  revert i. induction n as [|n IH]; intros i Hin; simpl.
  - eexists None, _. split_and!; [done | done | done |]. intros k ??. lia.
  - unfold chunk_get. rewrite chunk_index_Done;
      [| by apply N.Div0.mod_0_l | rewrite N.Div0.div_0_l; nia].
    rewrite N.Div0.div_0_l, N.add_0_l. cbn [mbind outcome_bind].
    destruct (N.eqb_spec (Chunk_addr (leak_check_chunks st i)) a) as [Ha|Ha].
    + eexists (Some _), _. split_and!; [done | done | done |].
      exists i. split_and!; [done | lia | lia | done |]. intros k ??. lia.
    + destruct (IH (i + 1)) as (r & st' & -> & Hc & Hsp & Hr); [nia |].
      exists r, st'. split_and!; [done | done | done |].
      destruct r as [p|].
      * destruct Hr as (j & -> & ? & ? & ? & Hfirst).
        exists j. split_and!; [done | lia | lia | done |].
        intros k ??. destruct (decide (k = i)) as [->|]; [done |].
        apply Hfirst; lia.
      * intros k ??. destruct (decide (k = i)) as [->|]; [done |].
        apply Hr; lia.
Qed.

Lemma search_chunks_first (a : N) (st : leak_check) :
  leak_check_stack_pointer st ≤ LEAK_CHECK_STACK_SIZE →
  ∃ r st',
    search_chunks sz a st = Done (r, st') ∧
    leak_check_chunks st' = leak_check_chunks st ∧
    leak_check_stack_pointer st' = leak_check_stack_pointer st ∧
    match r with
    | Some p =>
        ∃ j, p = j * sz ∧ (j + 1) * sz ≤ leak_check_stack_pointer st ∧
             Chunk_addr (leak_check_chunks st j) = a ∧
             ∀ k, k < j → Chunk_addr (leak_check_chunks st k) ≠ a
    | None =>
        ∀ k, (k + 1) * sz ≤ leak_check_stack_pointer st →
             Chunk_addr (leak_check_chunks st k) ≠ a
    end.
Proof.
  intros Hsp. unfold search_chunks.
  pose proof (N.Div0.mul_div_le (leak_check_stack_pointer st) sz) as Hdiv.
  destruct (search_loop_first
              (N.to_nat (leak_check_stack_pointer st / sz)) 0 a st)
    as (r & st' & Hrun & Hc & Hsp' & Hr); [lia |].
  exists r, st'. split_and!; [done | done | done |].
  destruct r as [p|].
  - destruct Hr as (j & -> & _ & Hj & Ha & Hfirst).
    exists j. split_and!; [done | nia | done |]. intros k ?. apply Hfirst; lia.
  - intros k Hk. apply Hr; [lia |].
    assert (k + 1 ≤ leak_check_stack_pointer st / sz); [| lia].
    apply N.div_le_lower_bound; lia.
Qed.

(** After the first run of the leak check, the chunks below the stack
    pointer are the 100 initial ones, whose address is the 0 of static
    storage: only the address 0 is found, and none of the addresses
    the detector has just reported as leaked but 0. *)
Lemma search_after_first_run :
  sz * 300 ≤ LEAK_CHECK_STACK_SIZE →
  ∃ st, MC_leak_check_main sz UNUSED IN_USE LEAKED leak_check_init = Done st ∧
        ∀ a, ∃ st', search_chunks sz a st
                    = Done (if a =? 0 then Some 0 else None, st').
Proof.
  intros Hfit. pose proof leak_size_bound.
  pose proof (MC_leak_check_main_cases leak_check_init) as Hmain.
  cbn [leak_check_init leak_check_stack_pointer] in Hmain.
  rewrite N.sub_0_r in Hmain.
  destruct (N.leb_spec (sz * 300) LEAK_CHECK_STACK_SIZE); [| lia].
  destruct Hmain as (st & Hrun & Hsp & Haddr);
    [lia | by apply N.Div0.mod_0_l |].
  exists st. split; [done |]. intros a.
  rewrite N.Div0.div_0_l in Haddr. cbn in Haddr.
  destruct (search_chunks_first a st) as (r & st' & -> & _ & _ & Hr); [lia |].
  exists st'. f_equal. f_equal.
  destruct r as [p|].
  - destruct Hr as (j & -> & Hj & Ha & Hfirst).
    rewrite Haddr in Ha by nia. subst a. cbn.
    destruct (decide (j = 0)) as [->|Hne]; [done |].
    exfalso. apply (Hfirst 0); [lia |]. apply Haddr. lia.
  - destruct (N.eqb_spec a 0) as [->|]; [| done].
    exfalso. apply (Hr 0); [lia |]. apply Haddr. lia.
Qed.
End LeakCheckFacts.

(** * Further properties of the hash table *)

(** X1: a table that has just been constructed is empty: the count is
    0, every lookup and every removal by key answers not-found, the
    export is NULL, the first advance answers the end-marker, and the
    teardown finds no node to finalize. *)
Theorem new_table_is_empty (nm : option string) (t : VgHashTable) (h : heap) :
  HT_construct nm = OK t →
  HT_count_nodes t = 0 ∧
  (∀ k, HT_lookup t h k = OK None) ∧
  (∀ k, HT_remove t h k = OK (set_iterOK false t, None)) ∧
  HT_to_array t h = OK (None, 0) ∧
  HT_Next t h = OK (t, None) ∧
  HT_destruct t = OK [].
Proof. apply construct_empty. Qed.

Lemma new_table_is_empty_witness :
  HT_count_nodes new_table = 0 ∧
  (∀ k, HT_lookup new_table caller_heap k = OK None) ∧
  (∀ k, HT_remove new_table caller_heap k = OK (set_iterOK false new_table, None)) ∧
  HT_to_array new_table caller_heap = OK (None, 0) ∧
  HT_Next new_table caller_heap = OK (new_table, None) ∧
  HT_destruct new_table = OK [].
Proof. apply (new_table_is_empty (Some "T")). reflexivity. Defined.

(** X2: an insertion stores the node in the first free slot at or
    after slot [key mod max_size], sets its link to NULL, adds one to
    the count and clears the iterator flag; nothing else changes. *)
Theorem insert_takes_first_free_slot (t : VgHashTable) (h : heap)
    (node : addr) (nd : VgHashNode) (idx' : N) :
  length (chain t) = N.to_nat (max_size t) → max_size t ≠ 0 →
  h !! node = Some nd →
  key nd mod max_size t ≤ idx' → idx' < max_size t →
  (∀ j, key nd mod max_size t ≤ j → j < idx' → in_use (chain t) j) →
  chain t !! N.to_nat idx' = Some None →
  HT_add_node t h node
  = OK (set_iterOK false
          (set_n_elements (uint_incr (n_elements t))
             (set_chain (<[N.to_nat idx' := Some node]> (chain t)) t)),
        <[node := mkNode (key nd) None]> h).
Proof. apply HT_add_node_first_free. Qed.

Lemma insert_takes_first_free_slot_witness :
  HT_add_node state_A.1 state_A.2 node_B
  = OK (set_iterOK false
          (set_n_elements (uint_incr (n_elements state_A.1))
             (set_chain (<[6%nat := Some node_B]> (chain state_A.1)) state_A.1)),
        <[node_B := mkNode 5 None]> state_A.2).
Proof.
  apply (insert_takes_first_free_slot state_A.1 state_A.2 node_B
           (mkNode 5 None) 6).
  - vm_compute. reflexivity.
  - discriminate.
  - vm_compute. reflexivity.
  - vm_compute. discriminate.
  - reflexivity.
  - intros j Hj1 Hj2. exists node_A.
    assert (j = 5) as -> by (change (5 ≤ j) in Hj1; lia).
    vm_compute. reflexivity.
  - vm_compute. reflexivity.
Defined.

(** X3: when every slot from [key mod max_size] to the end of the
    array is in use, the insertion ends out of bounds, whatever the
    size of the table. *)
Theorem insert_without_free_slot (t : VgHashTable) (h : heap) (node : addr)
    (nd : VgHashNode) :
  table_ok t h → h !! node = Some nd →
  (∀ j, key nd mod max_size t ≤ j → j < max_size t → in_use (chain t) j) →
  HT_add_node t h node = Fault OutOfBounds.
Proof. apply HT_add_node_full. Qed.

Lemma insert_without_free_slot_witness :
  HT_add_node state_D.1 state_D.2 node_E = Fault OutOfBounds.
Proof.
  apply (insert_without_free_slot state_D.1 state_D.2 node_E (mkNode 768 None)).
  - apply reachable_ok, state_D_reachable.
  - vm_compute. reflexivity.
  - intros j Hj1 Hj2. exists node_D.
    assert (j = 768) as ->.
    { change (768 ≤ j) in Hj1. change (j < 769) in Hj2. lia. }
    vm_compute. reflexivity.
Defined.

(** X4: after a completed insertion a lookup of the key of the node
    finds a node of that key; it finds the inserted node itself when
    no node of that key was in a slot before. *)
Theorem inserted_key_is_found (t : VgHashTable) (h : heap) (node : addr)
    (t' : VgHashTable) (h' : heap) :
  table_ok t h → HT_add_node t h node = OK (t', h') →
  ∃ nd a nd',
    h !! node = Some nd ∧
    HT_lookup t' h' (key nd) = OK (Some a) ∧
    h' !! a = Some nd' ∧ key nd' = key nd ∧
    ((∀ j b nb, chain t !! j = Some (Some b) → h !! b = Some nb →
                key nb ≠ key nd) → a = node).
Proof. apply lookup_after_add. Qed.

Lemma inserted_key_is_found_witness :
  ∃ nd a nd',
    state_A.2 !! node_C = Some nd ∧
    HT_lookup state_AC.1 state_AC.2 (key nd) = OK (Some a) ∧
    state_AC.2 !! a = Some nd' ∧ key nd' = key nd ∧
    ((∀ j b nb, chain state_A.1 !! j = Some (Some b) →
                state_A.2 !! b = Some nb → key nb ≠ key nd) → a = node_C).
Proof.
  apply (inserted_key_is_found state_A.1 state_A.2 node_C state_AC.1 state_AC.2).
  - apply reachable_ok, state_A_reachable.
  - vm_compute. reflexivity.
Defined.

(** X5: a lookup by key answers only with a node that has the key and
    sits in a slot at or after slot [key mod max_size]. *)
Theorem lookup_answers_stored_node (t : VgHashTable) (h : heap) (k : N)
    (a : addr) :
  HT_lookup t h k = OK (Some a) →
  ∃ j nd, k mod max_size t ≤ j ∧ j < max_size t ∧
          chain t !! N.to_nat j = Some (Some a) ∧
          h !! a = Some nd ∧ key nd = k.
Proof. apply HT_lookup_stored. Qed.

Lemma lookup_answers_stored_node_witness :
  ∃ j nd, 7 mod max_size state_AC.1 ≤ j ∧ j < max_size state_AC.1 ∧
          chain state_AC.1 !! N.to_nat j = Some (Some node_C) ∧
          state_AC.2 !! node_C = Some nd ∧ key nd = 7.
Proof.
  apply (lookup_answers_stored_node state_AC.1 state_AC.2 7 node_C).
  vm_compute. reflexivity.
Defined.

(** X6: the generic lookup answers only with a node that sits in a
    slot, has the key of the probe and is accepted by the comparator;
    with a comparator that accepts everything it is the lookup by the
    key of the probe. *)
Theorem gen_lookup_answers (t : VgHashTable) (h : heap) (node : addr)
    (hnode : VgHashNode) :
  h !! node = Some hnode → max_size t ≠ 0 →
  HT_gen_lookup t h node (λ _ _, 0%Z) = HT_lookup t h (key hnode) ∧
  ∀ cmp a, HT_gen_lookup t h node cmp = OK (Some a) →
    ∃ j nd, key hnode mod max_size t ≤ j ∧ j < max_size t ∧
            chain t !! N.to_nat j = Some (Some a) ∧
            h !! a = Some nd ∧ key nd = key hnode ∧ cmp node a = 0%Z.
Proof.
  intros Hnode Hmax. split; [by apply HT_gen_lookup_accept_all |].
  intros cmp a H.
  apply HT_gen_lookup_stored in H as (hn & j & nd & Hn & ? & ? & ? & ? & ? & ?).
  assert (hn = hnode) as -> by congruence. by exists j, nd.
Qed.

Lemma gen_lookup_answers_witness :
  HT_gen_lookup state_AC.1 state_AC.2 node_B (λ _ _, 0%Z)
  = HT_lookup state_AC.1 state_AC.2 5 ∧
  ∀ cmp a, HT_gen_lookup state_AC.1 state_AC.2 node_B cmp = OK (Some a) →
    ∃ j nd, 5 mod max_size state_AC.1 ≤ j ∧ j < max_size state_AC.1 ∧
            chain state_AC.1 !! N.to_nat j = Some (Some a) ∧
            state_AC.2 !! a = Some nd ∧ key nd = 5 ∧ cmp node_B a = 0%Z.
Proof.
  apply (gen_lookup_answers state_AC.1 state_AC.2 node_B (mkNode 5 None)).
  - vm_compute. reflexivity.
  - discriminate.
Defined.

(** X7: a removal by key answers only with a node of that key, and
    only with the node in slot [key mod max_size] or the node in the
    first slot in use; it takes one from the count and clears the
    iterator flag, and leaves the slots as they are. *)
Theorem remove_answers_home_or_first (t : VgHashTable) (h : heap) (k : N)
    (t' : VgHashTable) (a : addr) :
  HT_remove t h k = OK (t', Some a) →
  (chain t !! N.to_nat (k mod max_size t) = Some (Some a) ∨
   first_in_use (chain t) a) ∧
  (∃ nd, h !! a = Some nd ∧ key nd = k) ∧
  t' = set_n_elements (uint_decr (n_elements t)) (set_iterOK false t).
Proof.
  intros H. split; [by eapply HT_remove_which |].
  apply HT_remove_OK in H as [[_ [=]]|[-> (b & nd & [= <-] & ? & ?)]].
  split; [by exists nd | done].
Qed.

Lemma remove_answers_home_or_first_witness :
  (chain state_AC.1 !! N.to_nat (7 mod max_size state_AC.1) = Some (Some node_C) ∨
   first_in_use (chain state_AC.1) node_C) ∧
  (∃ nd, state_AC.2 !! node_C = Some nd ∧ key nd = 7) ∧
  set_n_elements 1 (set_iterOK false state_AC.1)
  = set_n_elements (uint_decr (n_elements state_AC.1))
      (set_iterOK false state_AC.1).
Proof.
  apply (remove_answers_home_or_first state_AC.1 state_AC.2 7
           (set_n_elements 1 (set_iterOK false state_AC.1)) node_C).
  vm_compute. reflexivity.
Defined.

(** X8: a removal by key whose home slot [key mod max_size] is empty
    answers not-found when the count is 0, and reads through NULL
    otherwise. *)
Theorem remove_with_empty_home_slot (t : VgHashTable) (h : heap) (k : N) :
  max_size t ≠ 0 →
  chain t !! N.to_nat (k mod max_size t) = Some None →
  HT_remove t h k
  = if n_elements t =? 0 then OK (set_iterOK false t, None)
    else Fault NullDeref.
Proof. apply HT_remove_home_empty. Qed.

Lemma remove_with_empty_home_slot_witness :
  HT_remove state_AC.1 state_AC.2 6 = Fault NullDeref.
Proof.
  apply (remove_with_empty_home_slot state_AC.1 state_AC.2 6).
  - discriminate.
  - vm_compute. reflexivity.
Defined.

(** X9: a node that a removal by key has answered with is still in
    its slot: the slots are unchanged, and the teardown still hands
    the node to the finalizer. *)
Theorem removed_node_stays_in_slot (t : VgHashTable) (h : heap) (k : N)
    (t' : VgHashTable) (a : addr) :
  table_ok t h → HT_remove t h k = OK (t', Some a) →
  chain t' = chain t ∧ a ∈ slot_nodes t' ∧
  HT_destruct t' = OK (slot_nodes t') ∧
  HT_count_nodes t' = uint_decr (HT_count_nodes t).
Proof.
  intros Hok H.
  destruct (removed_node_stays _ _ _ _ _ Hok H) as (? & ? & _ & ? & ?). done.
Qed.

Lemma removed_node_stays_in_slot_witness :
  chain (set_n_elements 1 (set_iterOK false state_AC.1)) = chain state_AC.1 ∧
  node_A ∈ slot_nodes (set_n_elements 1 (set_iterOK false state_AC.1)) ∧
  HT_destruct (set_n_elements 1 (set_iterOK false state_AC.1))
  = OK (slot_nodes (set_n_elements 1 (set_iterOK false state_AC.1))) ∧
  HT_count_nodes (set_n_elements 1 (set_iterOK false state_AC.1))
  = uint_decr (HT_count_nodes state_AC.1).
Proof.
  apply (removed_node_stays_in_slot state_AC.1 state_AC.2 5).
  - apply reachable_ok, state_AC_reachable.
  - vm_compute. reflexivity.
Defined.

(** X10: no completed call but an insertion changes the nodes in the
    slots or the answer of any lookup by key. *)
Theorem calls_keep_lookups (t : VgHashTable) (h : heap) (t' : VgHashTable)
    (h' : heap) :
  call t h t' h' →
  (∃ node, HT_add_node t h node = OK (t', h')) ∨
  (slot_nodes t' = slot_nodes t ∧
   ∀ k, HT_lookup t' h' k = HT_lookup t h k).
Proof. apply call_keeps_lookups. Qed.

Lemma calls_keep_lookups_witness :
  (∃ node, HT_add_node table_AC_at_A state_AC.2 node
           = OK (table_AC_less_C, state_AC.2)) ∨
  (slot_nodes table_AC_less_C = slot_nodes table_AC_at_A ∧
   ∀ k, HT_lookup table_AC_less_C state_AC.2 k
        = HT_lookup table_AC_at_A state_AC.2 k).
Proof.
  apply calls_keep_lookups. apply (call_remove _ _ 7 _ (Some node_C)).
  vm_compute. reflexivity.
Defined.

(** X11: in a well-formed table (the array has [max_size] slots,
    [max_size] is a size of the growth sequence, every node in a slot
    is a record whose link is NULL) a traversal (reset, then advance
    until the end) is given one node for each slot in use, the node of
    that slot, in slot order, whatever the count says; it leaves the
    slots and the count alone. *)
Theorem traversal_yields_slot_nodes (t : VgHashTable) (h : heap) (fuel : nat) :
  table_ok t h → (length (chain t) < fuel)%nat →
  ∃ t', traverse fuel t h = OK (t', slot_nodes t) ∧
        chain t' = chain t ∧ n_elements t' = n_elements t.
Proof.
  intros Hok Hfuel.
  destruct (traverse_slot_nodes t h fuel Hok Hfuel) as (t' & ? & ? & _ & ? & _).
  by exists t'.
Qed.

Lemma traversal_yields_slot_nodes_witness :
  ∃ t', traverse 770 table_AC_less_C state_AC.2
        = OK (t', slot_nodes table_AC_less_C) ∧
        chain t' = chain table_AC_less_C ∧
        n_elements t' = n_elements table_AC_less_C.
Proof.
  apply (traversal_yields_slot_nodes table_AC_less_C state_AC.2 770).
  - split; [reflexivity |]. split.
    + vm_compute. left.
    + intros i a Hi.
      apply (proj2 (proj2 (reachable_ok _ _ state_AC_reachable)) i a). exact Hi.
  - vm_compute. lia.
Defined.

(** X12: after insertions alone into a new table the count is the
    number of insertions, and a traversal is given exactly the
    inserted nodes, each as often as it was inserted. *)
Theorem insertions_are_counted_and_traversed (nm : option string)
    (nodes : list addr) (t0 : VgHashTable) (h0 : heap) (t : VgHashTable)
    (h : heap) (fuel : nat) :
  HT_construct nm = OK t0 → add_nodes nodes t0 h0 = OK (t, h) →
  (769 < fuel)%nat →
  HT_count_nodes t = N.of_nat (length nodes) ∧
  ∃ t' seen, traverse fuel t h = OK (t', seen) ∧ seen ≡ₚ nodes.
Proof. apply inserted_nodes. Qed.

Lemma insertions_are_counted_and_traversed_witness :
  HT_count_nodes state_AC.1 = N.of_nat (length [node_A; node_C]) ∧
  ∃ t' seen, traverse 770 state_AC.1 state_AC.2 = OK (t', seen) ∧
             seen ≡ₚ [node_A; node_C].
Proof.
  apply (insertions_are_counted_and_traversed (Some "T") [node_A; node_C]
           new_table caller_heap state_AC.1 state_AC.2 770).
  - reflexivity.
  - vm_compute. reflexivity.
  - lia.
Defined.

(** X13: in a well-formed table (the array has [max_size] slots,
    [max_size] is a size of the growth sequence, every node in a slot
    is a record whose link is NULL), when the node the iterator stands
    on is a record whose link is NULL and the cursor is within the
    array, removing the node the iterator stands on does not disturb
    the traversal: the next advance gives
    the node it would have given without the removal and moves the
    cursor as far; the slots are unchanged and the count has gone
    through [uint_decr], the decrement of a [UInt] (from 0 to
    4294967295). *)
Theorem advance_after_remove_at_Iter (t : VgHashTable) (h : heap)
    (t1 : VgHashTable) :
  table_ok t h →
  (∀ b, iterNode t = Some b → ∃ nd, h !! b = Some nd ∧ next nd = None) →
  iterChain t ≤ max_size t →
  HT_remove_at_Iter t = OK t1 →
  ∃ r t2 t3,
    HT_Next t h = OK (t2, r) ∧ HT_Next t1 h = OK (t3, r) ∧
    iterChain t3 = iterChain t2 ∧ chain t3 = chain t ∧
    n_elements t3 = uint_decr (n_elements t).
Proof. apply Next_after_remove_at_Iter. Qed.

Lemma advance_after_remove_at_Iter_witness :
  ∃ r t2 t3,
    HT_Next table_AC_at_A state_AC.2 = OK (t2, r) ∧
    HT_Next (set_n_elements 1 (set_iterNode None table_AC_at_A)) state_AC.2
    = OK (t3, r) ∧
    iterChain t3 = iterChain t2 ∧ chain t3 = chain table_AC_at_A ∧
    n_elements t3 = uint_decr (n_elements table_AC_at_A).
Proof.
  apply (advance_after_remove_at_Iter table_AC_at_A state_AC.2
           (set_n_elements 1 (set_iterNode None table_AC_at_A))).
  - split; [reflexivity |]. split.
    + vm_compute. left.
    + intros i a Hi.
      apply (proj2 (proj2 (reachable_ok _ _ state_AC_reachable)) i a). exact Hi.
  - intros b Hb. exists (mkNode 5 None).
    change (Some node_A = Some b) in Hb. injection Hb as <-.
    split; [vm_compute |]; reflexivity.
  - vm_compute. discriminate.
  - vm_compute. reflexivity.
Defined.

(** X14: the teardown hands the finalizer each node in a slot once, in
    slot order, whatever the count says. *)
Theorem destruct_finalizes_slot_nodes (t : VgHashTable) (h : heap) :
  table_ok t h → HT_destruct t = OK (slot_nodes t).
Proof. apply HT_destruct_slot_nodes. Qed.

Lemma destruct_finalizes_slot_nodes_witness :
  HT_destruct table_AC_less_C = OK (slot_nodes table_AC_less_C).
Proof.
  apply (destruct_finalizes_slot_nodes table_AC_less_C state_AC.2).
  split; [reflexivity |]. split.
  - vm_compute. left.
  - intros i a Hi. apply (proj2 (proj2 (reachable_ok _ _ state_AC_reachable)) i a).
    exact Hi.
Defined.

(** X15: when the export to an array completes, the number it reports
    is the count, and an array is handed back (of that length) exactly
    when the count is not 0. *)
Theorem to_array_length_is_count (t : VgHashTable) (h : heap)
    (arr : option (list addr)) (n : N) :
  HT_to_array t h = OK (arr, n) →
  n = HT_count_nodes t ∧
  match arr with
  | Some l => N.of_nat (length l) = n ∧ n ≠ 0
  | None => n = 0
  end.
Proof. apply HT_to_array_length. Qed.

Lemma to_array_length_is_count_witness :
  2 = HT_count_nodes state_AC.1 ∧
  N.of_nat (length [node_A; node_C]) = 2 ∧ 2 ≠ 0.
Proof.
  apply (to_array_length_is_count state_AC.1 state_AC.2
           (Some [node_A; node_C]) 2).
  vm_compute. reflexivity.
Defined.

(** X16: [resize] of a table below the last size grows exactly the
    tables with no node: with every slot empty it installs an empty
    array of the next size of the sequence; with a node in any slot
    the re-insertion runs off the end of the new array. *)
Theorem resize_grows_only_empty_tables (t : VgHashTable) (h : heap) :
  table_ok t h → max_size t ≠ 402653189 →
  (slot_nodes t = [] →
   resize t h
   = OK (set_chain (replicate (N.to_nat (next_size (max_size t + 1))) None)
           (set_max_size (next_size (max_size t + 1)) t)) ∧
   max_size t < next_size (max_size t + 1) ∧
   next_size (max_size t + 1) ∈ primes) ∧
  (slot_nodes t ≠ [] → resize t h = Fault OutOfBounds).
Proof.
  intros Hok Hlast. pose proof Hok as (Hlen & Hprime & _).
  pose proof (primes_bounds _ Hprime) as [Hlo Hhi]. split.
  - intros Hnil. apply resize_empty; [done | lia |].
    intros q Hq. rewrite <- Hlen in Hq.
    apply lookup_lt_is_Some_2 in Hq as [[a|] Hq]; [| done].
    assert (a ∈ slot_nodes t) as Hin.
    { apply list_elem_of_omap. exists (Some a). split; [| done].
      by eapply list_elem_of_lookup_2. }
    rewrite Hnil in Hin. by apply elem_of_nil in Hin.
  - intros Hne. destruct (slot_nodes t) as [|a l] eqn:Hs; [done |].
    assert (a ∈ slot_nodes t) as Hin by (rewrite Hs; left).
    apply list_elem_of_omap in Hin as (x & Hx & Hxa).
    destruct x as [b|]; [| done]. simpl in Hxa. injection Hxa as ->.
    apply list_elem_of_lookup_1 in Hx as [p Hp].
    by eapply resize_in_use.
Qed.

Lemma resize_grows_only_empty_tables_witness :
  (slot_nodes state_A.1 = [] →
   resize state_A.1 state_A.2
   = OK (set_chain (replicate (N.to_nat (next_size (max_size state_A.1 + 1))) None)
           (set_max_size (next_size (max_size state_A.1 + 1)) state_A.1)) ∧
   max_size state_A.1 < next_size (max_size state_A.1 + 1) ∧
   next_size (max_size state_A.1 + 1) ∈ primes) ∧
  (slot_nodes state_A.1 ≠ [] → resize state_A.1 state_A.2 = Fault OutOfBounds).
Proof.
  apply (resize_grows_only_empty_tables state_A.1 state_A.2).
  - apply reachable_ok, state_A_reachable.
  - discriminate.
Defined.

(** X17: in every reachable state the table still has the 769 slots it
    was constructed with: no completed call grows it. *)
Theorem reachable_capacity_is_initial (t : VgHashTable) (h : heap) :
  reachable t h → max_size t = 769 ∧ length (chain t) = 769%nat.
Proof.
  intros Hr. pose proof (reachable_max_size _ _ Hr) as Hm.
  split; [done |]. destruct (reachable_ok _ _ Hr) as [-> _]. by rewrite Hm.
Qed.

Lemma reachable_capacity_is_initial_witness :
  max_size state_AC.1 = 769 ∧ length (chain state_AC.1) = 769%nat.
Proof. apply (reachable_capacity_is_initial state_AC.1 state_AC.2), state_AC_reachable. Defined.

(** X18: the generic removal does not return when neither the node in
    the home slot of the probe nor the node in the first slot in use
    passes the test (same key and comparator 0): each round reloads
    that first node. *)
Theorem gen_remove_never_returns (t : VgHashTable) (h : heap) (node : addr)
    (hnode : VgHashNode) (cmp : HT_Cmp_t) (a b : addr) (na nb : VgHashNode)
    (p : nat) :
  h !! node = Some hnode → max_size t ≠ 0 →
  chain t !! N.to_nat (key hnode mod max_size t) = Some (Some a) →
  h !! a = Some na →
  (key hnode =? key na) && (cmp node a =? 0)%Z = false →
  chain t !! p = Some (Some b) →
  (∀ q, (q < p)%nat → chain t !! q = Some None) →
  (p < N.to_nat (max_size t - key hnode mod max_size t))%nat →
  h !! b = Some nb →
  (key hnode =? key nb) && (cmp node b =? 0)%Z = false →
  ∀ fuel, HT_gen_remove fuel t h node cmp = OutOfFuel.
Proof.
  intros Hnode Hmax Ha Hna Hmiss_a Hb Hnull Hp Hnb Hmiss_b fuel.
  assert (∀ c, remove_rescan (chain t)
                 (N.to_nat (max_size t - key hnode mod max_size t)) 0 c
               = OK (Some b)) as Hscan.
  { intros c. apply (remove_rescan_first _ _ _ _ p); try done; try lia.
    intros q _ Hq. by apply Hnull. }
  unfold HT_gen_remove, deref, CHAIN_NO. rewrite Hnode. cbn [mbind result_bind].
  destruct (N.eqb_spec (max_size t) 0) as [|_]; [done |]. cbn [mbind result_bind].
  rewrite (proj2 (chain_at_OK _ _ _) Ha). cbn [mbind result_bind].
  destruct fuel as [|fuel]; [done |].
  cbn [gen_remove_loop]. unfold deref. rewrite Hna.
  cbn [mbind result_bind]. rewrite Hmiss_a.
  change (max_size (set_iterOK false t)) with (max_size t).
  change (chain (set_iterOK false t)) with (chain t).
  rewrite Hscan. cbn [mbind result_bind].
  by apply (gen_remove_loop_forever _ _ _ _ _ _ _ _ nb).
Qed.

Lemma gen_remove_never_returns_witness :
  HT_gen_remove 1000 state_A.1 state_A.2 node_B cmp_never = OutOfFuel.
Proof.
  apply (gen_remove_never_returns state_A.1 state_A.2 node_B (mkNode 5 None)
           cmp_never node_A node_A (mkNode 5 None) (mkNode 5 None) 5).
  - vm_compute. reflexivity.
  - discriminate.
  - vm_compute. reflexivity.
  - vm_compute. reflexivity.
  - reflexivity.
  - vm_compute. reflexivity.
  - intros q Hq. do 5 (destruct q as [|q]; [vm_compute; reflexivity |]). lia.
  - vm_compute. lia.
  - vm_compute. reflexivity.
  - reflexivity.
Defined.

(** * Properties of the allocators of memcheck *)

(** X19: [MC_(malloc)] of [n] bytes hands back the old stack pointer
    and moves it up by [n] when [n] bytes are left; when they are not
    it panics with the message of [stack_alloc], unless the sum wraps
    round [size_t], in which case it hands back the old stack pointer
    and moves it down.  Its own panic, malloc failed, is never
    raised. *)
Theorem malloc_by_size (n : N) (s : pool) :
  stack_pointer s ≤ STACK_SIZE → n < size_t_modulus →
  MC_malloc n s
  = if n <=? STACK_SIZE - stack_pointer s
    then Done (stack_pointer s,
               mkPool (stack_buffer s) (stack_pointer s + n)
                 (track s ++ [new_mem_stack (stack_pointer s) n]))
    else if stack_pointer s + n <? size_t_modulus
    then Stop (Panic "Stack overflow in custom allocator")
    else Done (stack_pointer s,
               mkPool (stack_buffer s) (stack_pointer s + n - size_t_modulus)
                 (track s ++ [new_mem_stack (stack_pointer s) n])).
Proof. apply MC_malloc_cases. Qed.

Lemma malloc_by_size_witness :
  MC_malloc (size_t_modulus - 8) pool_16
  = Done (16, mkPool zeros 8 [new_mem_stack 0 16;
                              new_mem_stack 16 (size_t_modulus - 8)]).
Proof.
  apply (malloc_by_size (size_t_modulus - 8) pool_16).
  - vm_compute. discriminate.
  - vm_compute. reflexivity.
Defined.

(** X20: whatever calls of the wrappers of [mc_main.c] have completed,
    the stack pointer is within the buffer. *)
Theorem stack_pointer_stays_in_buffer (s : pool) :
  pool_reachable s → stack_pointer s ≤ STACK_SIZE.
Proof. apply pool_reachable_stack_pointer. Qed.

Lemma stack_pointer_stays_in_buffer_witness : stack_pointer pool_16 ≤ STACK_SIZE.
Proof.
  apply stack_pointer_stays_in_buffer.
  apply (pool_reach_call pool_init); [apply pool_reach_init |].
  apply (call_malloc 16 _ 0). reflexivity.
Defined.

(** X21: [MC_(free)] of a block just handed out by [MC_(malloc)], with
    the size it was asked for, puts the stack pointer back; the bytes
    of the buffer are untouched and the two hooks have been called. *)
Theorem free_undoes_malloc (n : N) (s : pool) (p : N) (s1 : pool) :
  stack_pointer s ≤ STACK_SIZE → n ≤ STACK_SIZE →
  MC_malloc n s = Done (p, s1) →
  ∃ s2, MC_free (Some p) n s1 = Done s2 ∧
        stack_pointer s2 = stack_pointer s ∧
        stack_buffer s2 = stack_buffer s ∧
        track s2 = track s ++ [new_mem_stack p n; free_mem_stack p].
Proof. apply malloc_then_free. Qed.

Lemma free_undoes_malloc_witness :
  ∃ s2, MC_free (Some 0) 16 pool_16 = Done s2 ∧
        stack_pointer s2 = stack_pointer pool_init ∧
        stack_buffer s2 = stack_buffer pool_init ∧
        track s2 = track pool_init ++ [new_mem_stack 0 16; free_mem_stack 0].
Proof.
  apply (free_undoes_malloc 16 pool_init 0 pool_16).
  - vm_compute. discriminate.
  - vm_compute. discriminate.
  - reflexivity.
Defined.

(** X22: [MC_(realloc)] of a pointer that is not NULL takes no notice
    of the pointer: it hands back the top [size] bytes of the stack,
    leaves the stack pointer and every byte where they are, and fails
    its assertion when fewer than [size] bytes are in use. *)
Theorem realloc_hands_back_the_top (q : N) (size : N) (s : pool) :
  stack_pointer s ≤ STACK_SIZE →
  MC_realloc (Some q) size s
  = if stack_pointer s <? size then Stop AssertionFailed
    else Done (stack_pointer s - size,
               mkPool (stack_buffer s) (stack_pointer s)
                 (track s ++ [new_mem_stack (stack_pointer s - size) size])).
Proof. apply MC_realloc_in_place. Qed.

Lemma realloc_hands_back_the_top_witness :
  MC_realloc (Some 0) 4 pool_16
  = Done (12, mkPool zeros 16 [new_mem_stack 0 16; new_mem_stack 12 4]).
Proof.
  apply (realloc_hands_back_the_top 0 4 pool_16).
  vm_compute. discriminate.
Defined.

(** X23: when [MC_(calloc)] completes, the block starts at the old
    stack pointer, has [nmemb * size] bytes (the product taken in
    [SizeT]), lies within the buffer and holds zeros; the bytes
    outside it are unchanged. *)
Theorem calloc_block_is_zeroed (nmemb size : N) (s : pool) (p : N) (s' : pool) :
  stack_pointer s ≤ STACK_SIZE →
  MC_calloc nmemb size s = Done (p, s') →
  p = stack_pointer s ∧
  stack_pointer s' = p + size_t_mul nmemb size ∧
  stack_pointer s' ≤ STACK_SIZE ∧
  ∀ i, stack_buffer s' i
       = if (p <=? i) && (i <? stack_pointer s') then Byte.x00
         else stack_buffer s i.
Proof. apply MC_calloc_zeroes. Qed.

Lemma calloc_block_is_zeroed_witness :
  16 = stack_pointer pool_16 ∧
  stack_pointer pool_24 = 16 + size_t_mul 2 4 ∧
  stack_pointer pool_24 ≤ STACK_SIZE ∧
  ∀ i, stack_buffer pool_24 i
       = if (16 <=? i) && (i <? stack_pointer pool_24) then Byte.x00
         else stack_buffer pool_16 i.
Proof.
  apply (calloc_block_is_zeroed 2 4 pool_16 16 pool_24).
  - vm_compute. discriminate.
  - vm_compute. reflexivity.
Defined.

(** X24: the client wrappers and the pool wrappers do what
    [MC_(malloc)], [MC_(calloc)], [MC_(realloc)] and [MC_(free)] do:
    the thread id is not used, and the panics that tell them apart are
    never raised. *)
Theorem client_and_pool_wrappers_agree (tid : ThreadId) (s : pool) :
  (∀ n, MC_client_malloc tid n s = MC_malloc n s) ∧
  (∀ n, MC_pool_alloc n s = MC_malloc n s) ∧
  (∀ nmemb size, MC_client_calloc tid nmemb size s = MC_calloc nmemb size s) ∧
  (∀ ptr size, MC_client_realloc tid ptr size s = MC_realloc ptr size s) ∧
  (∀ ptr size, MC_client_free tid ptr size s = MC_free ptr size s) ∧
  (∀ ptr size, MC_pool_free ptr size s = MC_free ptr size s).
Proof. apply client_wrappers. Qed.

(** X25: a [get_state] leaves the bytes of the guest state just above
    the stack pointer, which it puts back; a [set_state] that follows,
    of whatever architecture, hands those bytes back as the guest
    state. *)
Theorem set_state_reads_last_get_state (sz : N) (a a' : arch)
    (g : list Byte.byte) (m m1 : machine) :
  N.of_nat (length g) = sz →
  MC_get_state sz a g m = Done m1 →
  machine_stack_pointer m1 = machine_stack_pointer m ∧
  ∃ m2, MC_set_state sz a' m1 = Done (g, m2) ∧
        machine_stack_pointer m2 = machine_stack_pointer m ∧
        machine_stack_buffer m2 = machine_stack_buffer m1.
Proof. apply set_state_after_get_state. Qed.

Lemma set_state_reads_last_get_state_witness :
  machine_stack_pointer machine_4 = machine_stack_pointer machine_init ∧
  ∃ m2, MC_set_state 4 arm machine_4 = Done (guest_4, m2) ∧
        machine_stack_pointer m2 = machine_stack_pointer machine_init ∧
        machine_stack_buffer m2 = machine_stack_buffer machine_4.
Proof.
  apply (set_state_reads_last_get_state 4 ppc64 arm guest_4 machine_init machine_4).
  - reflexivity.
  - vm_compute. reflexivity.
Defined.

(** X26: a [get_state] completes, with the stack pointer where it was
    and one line printed, when the guest state fits above the stack
    pointer; when it does not, it panics with the message of its
    architecture. *)
Theorem get_state_by_room (sz : N) (a : arch) (g : list Byte.byte) (m : machine) :
  N.of_nat (length g) = sz →
  machine_stack_pointer m ≤ MACHINE_STACK_SIZE → sz ≤ MACHINE_STACK_SIZE →
  if sz <=? MACHINE_STACK_SIZE - machine_stack_pointer m
  then ∃ m1, MC_get_state sz a g m = Done m1 ∧
             machine_stack_pointer m1 = machine_stack_pointer m ∧
             machine_out m1
             = machine_out m ++ ["Retrieved " +:+ arch_name a +:+ " guest state"]
  else MC_get_state sz a g m
       = Stop (Panic ("Machine stack allocation failed for " +:+ arch_name a
                      +:+ " state")).
Proof. apply get_state_cases. Qed.

Lemma get_state_by_room_witness :
  MC_get_state 4 x86 guest_4 (mkMachine zeros 65534 [])
  = Stop (Panic "Machine stack allocation failed for x86 state").
Proof.
  apply (get_state_by_room 4 x86 guest_4 (mkMachine zeros 65534 [])).
  - reflexivity.
  - vm_compute. discriminate.
  - vm_compute. discriminate.
Defined.

(** X27: [MC_(leak_check_main)] completes when 300 chunks fit above
    the stack pointer, and then leaves the stack pointer 100 chunks
    higher: the initial chunks are never released.  The addresses
    recorded in the chunks below the new stack pointer are unchanged.
    When 300 chunks do not fit it panics, in [get_initial_chunks] or
    in [run_leak_detector]. *)
Theorem leak_check_main_by_room (sz UNUSED IN_USE LEAKED : N) (st : leak_check) :
  0 < sz → sz ≤ LEAK_CHECK_STACK_SIZE →
  leak_check_stack_pointer st ≤ LEAK_CHECK_STACK_SIZE →
  leak_check_stack_pointer st mod sz = 0 →
  if sz * 300 <=? LEAK_CHECK_STACK_SIZE - leak_check_stack_pointer st
  then ∃ st', MC_leak_check_main sz UNUSED IN_USE LEAKED st = Done st' ∧
              leak_check_stack_pointer st'
              = leak_check_stack_pointer st + sz * 100 ∧
              (∀ k, k < leak_check_stack_pointer st / sz + 100 →
                    Chunk_addr (leak_check_chunks st' k)
                    = Chunk_addr (leak_check_chunks st k))
  else MC_leak_check_main sz UNUSED IN_USE LEAKED st
       = Stop (Panic
           (if sz * 100 <=? LEAK_CHECK_STACK_SIZE - leak_check_stack_pointer st
            then "LeakCheck: Unable to allocate chunks for leak detection on stack"
            else "LeakCheck: Unable to allocate initial chunks on stack")).
Proof. intros. by apply MC_leak_check_main_cases. Qed.

Lemma leak_check_main_by_room_witness :
  MC_leak_check_main 64 0 1 2 leak_check_init
  = Stop (Panic "LeakCheck: Unable to allocate chunks for leak detection on stack").
Proof.
  apply (leak_check_main_by_room 64 0 1 2 leak_check_init).
  - lia.
  - vm_compute. discriminate.
  - vm_compute. discriminate.
  - reflexivity.
Defined.

(** X28: of [n] calls of [MC_(leak_check_main)] in a row, each takes
    100 chunks of the buffer for good: all complete when the buffer
    holds 100 chunks for each call and 100 more, and otherwise one of
    them panics. *)
Theorem leak_check_runs_exhaust_the_buffer (sz UNUSED IN_USE LEAKED : N)
    (n : nat) :
  0 < sz → sz ≤ LEAK_CHECK_STACK_SIZE →
  if bool_decide (n = 0%nat)
     || (sz * (100 * N.of_nat n + 200) <=? LEAK_CHECK_STACK_SIZE)
  then ∃ st, leak_check_runs sz UNUSED IN_USE LEAKED n leak_check_init = Done st ∧
             leak_check_stack_pointer st = sz * 100 * N.of_nat n
  else ∃ msg, leak_check_runs sz UNUSED IN_USE LEAKED n leak_check_init
              = Stop (Panic msg).
Proof. intros. by apply leak_check_runs_cases. Qed.

Lemma leak_check_runs_exhaust_the_buffer_witness :
  ∃ msg, leak_check_runs 16 0 1 2 9 leak_check_init = Stop (Panic msg).
Proof.
  apply (leak_check_runs_exhaust_the_buffer 16 0 1 2 9).
  - lia.
  - vm_compute. discriminate.
Defined.

(** X29: [search_chunks] changes neither the chunks nor the stack
    pointer, and answers with the first chunk below the stack pointer
    whose address is the one looked for, or with NULL when no whole
    chunk below the stack pointer has it. *)
Theorem search_answers_first_chunk (sz : N) (a : N) (st : leak_check) :
  0 < sz → sz ≤ LEAK_CHECK_STACK_SIZE →
  leak_check_stack_pointer st ≤ LEAK_CHECK_STACK_SIZE →
  ∃ r st',
    search_chunks sz a st = Done (r, st') ∧
    leak_check_chunks st' = leak_check_chunks st ∧
    leak_check_stack_pointer st' = leak_check_stack_pointer st ∧
    match r with
    | Some p =>
        ∃ j, p = j * sz ∧ (j + 1) * sz ≤ leak_check_stack_pointer st ∧
             Chunk_addr (leak_check_chunks st j) = a ∧
             ∀ k, k < j → Chunk_addr (leak_check_chunks st k) ≠ a
    | None =>
        ∀ k, (k + 1) * sz ≤ leak_check_stack_pointer st →
             Chunk_addr (leak_check_chunks st k) ≠ a
    end.
Proof. intros. by apply search_chunks_first. Qed.

Lemma search_answers_first_chunk_witness :
  ∃ r st',
    search_chunks 16 1024 (mkLeak (λ k, mkChunk 1 (k * 1024)) 48 [])
    = Done (r, st') ∧
    leak_check_chunks st' = (λ k, mkChunk 1 (k * 1024)) ∧
    leak_check_stack_pointer st' = 48 ∧
    match r with
    | Some p =>
        ∃ j, p = j * 16 ∧ (j + 1) * 16 ≤ 48 ∧
             Chunk_addr (mkChunk 1 (j * 1024)) = 1024 ∧
             ∀ k, k < j → Chunk_addr (mkChunk 1 (k * 1024)) ≠ 1024
    | None =>
        ∀ k, (k + 1) * 16 ≤ 48 → Chunk_addr (mkChunk 1 (k * 1024)) ≠ 1024
    end.
Proof.
  apply (search_answers_first_chunk 16 1024
           (mkLeak (λ k, mkChunk 1 (k * 1024)) 48 [])).
  - lia.
  - vm_compute. discriminate.
  - vm_compute. discriminate.
Defined.

(** X30: after the first [MC_(leak_check_main)] the chunks below the
    stack pointer are the 100 initial chunks, whose addresses were
    never written: [search_chunks] finds the first of them for address
    0 and nothing for any other address, the addresses that
    [run_leak_detector] recorded included. *)
Theorem search_after_first_leak_check (sz UNUSED IN_USE LEAKED : N) :
  0 < sz → sz * 300 ≤ LEAK_CHECK_STACK_SIZE →
  ∃ st, MC_leak_check_main sz UNUSED IN_USE LEAKED leak_check_init = Done st ∧
        ∀ a, ∃ st', search_chunks sz a st
                    = Done (if a =? 0 then Some 0 else None, st').
Proof.
  intros Hpos Hroom. apply search_after_first_run; [done | lia | done].
Qed.

Lemma search_after_first_leak_check_witness :
  ∃ st, MC_leak_check_main 16 0 1 2 leak_check_init = Done st ∧
        ∀ a, ∃ st', search_chunks 16 a st
                    = Done (if a =? 0 then Some 0 else None, st').
Proof.
  apply (search_after_first_leak_check 16 0 1 2).
  - lia.
  - vm_compute. discriminate.
Defined.
